(** * Keyboard shortcut engine of sway/input/keyboard.c

    A shallow embedding of the shortcut-state tracker
    ([state_erase_key], [state_add_key], [update_shortcut_state]), the
    binding resolver ([get_active_binding]) and the per-event dispatcher
    ([handle_key_event], [handle_keyboard_repeat]), followed by the
    properties the specification states about them.

    Conventions.
    - [uint32_t] values are integers in [Z]; the only arithmetic the code
      performs on them is [event->keycode + 8], whose wrap-around is
      written out in [xkb_keycode_of].
    - The two fixed-size arrays of [struct sway_shortcut_state] are lists
      read with [!!!] and written with [<[i:=x]>]; the loops of the C
      code are recursive functions over the loop counter. Every access
      the code makes is in range on a well-formed state ([wf_state]).
    - [SWAY_KEYBOARD_PRESSED_KEYS_CAP], [BINDING_RELEASE] and
      [BINDING_LOCKED] are defined in headers and are kept abstract.
    - The dispatcher is a computation on [struct sway_keyboard] that logs
      its calls into wlroots, wayland and the rest of sway in the order
      they are made. What xkb, the device and the configuration answer
      for one event is gathered in [key_context]; what a binding's
      command does to the keyboard is the parameter [command_effect].
      Logging and the freeing of the identifier string are left out. *)

From stdpp Require Import base numbers list sorting strings.

Set Default Proof Using "Type".

Open Scope Z_scope.

(** ** Data model *)

Record sway_shortcut_state := mk_state {
  pressed_keys : list Z;
  pressed_keycodes : list Z;
  last_keycode : Z;
  last_raw_modifiers : Z;
  npressed : nat;
  current_key : Z
}.

Inductive wlr_key_state := WLR_KEY_RELEASED | WLR_KEY_PRESSED.

Global Instance wlr_key_state_eq_dec : EqDecision wlr_key_state.
Proof. solve_decision. Defined.

Record wlr_event_keyboard_key := mk_event {
  time_msec : Z;
  keycode : Z;
  state : wlr_key_state
}.

(** The pressed entries as the code reads them: the first [npressed]
    cells of the two arrays, paired as (identifier, origin keycode). *)
Definition pressed (st : sway_shortcut_state) : list (Z * Z) :=
  take (npressed st) (zip (pressed_keys st) (pressed_keycodes st)).

Definition pressed_ids (st : sway_shortcut_state) : list Z :=
  (pressed st).*1.

(** ** Shortcut state tracker *)

(** The [for] loop of [state_erase_key]; [n] counts the iterations that
    remain, [i] and [j] are the read and write cursors. *)
Fixpoint erase_loop (n i j : nat) (found : bool) (keys kcs : list Z)
    (kc : Z) : nat * bool * list Z * list Z :=
  match n with
  | O => (j, found, keys, kcs)
  | S n' =>
      let keys1 := if (j <? i)%nat then <[j := keys !!! i]> keys else keys in
      let kcs1 := if (j <? i)%nat then <[j := kcs !!! i]> kcs else kcs in
      if negb (kcs1 !!! i =? kc)
      then erase_loop n' (S i) (S j) found keys1 kcs1 kc
      else erase_loop n' (S i) j true keys1 kcs1 kc
  end.

(** The [while (state->npressed > j)] loop that clears the freed tail. *)
Fixpoint erase_clear (np j : nat) (keys kcs : list Z) : nat * list Z * list Z :=
  match np with
  | O => (O, keys, kcs)
  | S m =>
      if (j <? S m)%nat
      then erase_clear m j (<[m := 0]> keys) (<[m := 0]> kcs)
      else (S m, keys, kcs)
  end.

Definition state_erase_key (st : sway_shortcut_state) (kc : Z)
    : bool * sway_shortcut_state :=
  let '(j, found, keys, kcs) :=
    erase_loop (npressed st) 0 0 false (pressed_keys st) (pressed_keycodes st) kc in
  let '(np, keys', kcs') := erase_clear (npressed st) j keys kcs in
  (found,
   {| pressed_keys := keys'; pressed_keycodes := kcs';
      last_keycode := last_keycode st;
      last_raw_modifiers := last_raw_modifiers st;
      npressed := np; current_key := 0 |}).

(** The search loop of [state_add_key]:
    [while (i < npressed && pressed_keys[i] < key_id) ++i]. *)
Fixpoint add_find (n i : nat) (keys : list Z) (key_id : Z) : nat :=
  match n with
  | O => i
  | S n' => if keys !!! i <? key_id then add_find n' (S i) keys key_id else i
  end.

(** The shifting loop of [state_add_key]:
    [while (j > i) { a[j] = a[j - 1]; --j; }] on both arrays. *)
Fixpoint add_shift (j i : nat) (keys kcs : list Z) : list Z * list Z :=
  match j with
  | O => (keys, kcs)
  | S j' =>
      if (i <? S j')%nat
      then add_shift j' i (<[S j' := keys !!! j']> keys) (<[S j' := kcs !!! j']> kcs)
      else (keys, kcs)
  end.

Section Keyboard.

(** Constants of headers that are not part of this file:
    the capacity of the pressed-key arrays and the two binding flags
    tested by the resolver. *)
Variable SWAY_KEYBOARD_PRESSED_KEYS_CAP : nat.
Variable BINDING_RELEASE : Z.
Variable BINDING_LOCKED : Z.

Definition state_add_key (st : sway_shortcut_state) (kc key_id : Z)
    : sway_shortcut_state :=
  if (SWAY_KEYBOARD_PRESSED_KEYS_CAP <=? npressed st)%nat then st
  else
    let i := add_find (npressed st) 0 (pressed_keys st) key_id in
    let '(keys, kcs) :=
      add_shift (npressed st) i (pressed_keys st) (pressed_keycodes st) in
    {| pressed_keys := <[i := key_id]> keys;
       pressed_keycodes := <[i := kc]> kcs;
       last_keycode := last_keycode st;
       last_raw_modifiers := last_raw_modifiers st;
       npressed := S (npressed st);
       current_key := key_id |}.

Definition set_last_raw_modifiers (st : sway_shortcut_state) (m : Z) :=
  {| pressed_keys := pressed_keys st; pressed_keycodes := pressed_keycodes st;
     last_keycode := last_keycode st; last_raw_modifiers := m;
     npressed := npressed st; current_key := current_key st |}.

Definition set_last_keycode (st : sway_shortcut_state) (kc : Z) :=
  {| pressed_keys := pressed_keys st; pressed_keycodes := pressed_keycodes st;
     last_keycode := kc; last_raw_modifiers := last_raw_modifiers st;
     npressed := npressed st; current_key := current_key st |}.

(** The state after the first half of [update_shortcut_state]: the new
    modifier mask is recorded and, when it differs from the recorded one
    and [last_keycode] is non-zero, the last pressed key is erased. *)
Definition update_modifier_step (st : sway_shortcut_state) (raw_modifiers : Z)
    : sway_shortcut_state :=
  let last_key_was_a_modifier := negb (raw_modifiers =? last_raw_modifiers st) in
  let st1 := set_last_raw_modifiers st raw_modifiers in
  if last_key_was_a_modifier && negb (last_keycode st1 =? 0)
  then snd (state_erase_key st1 (last_keycode st1))
  else st1.

Definition update_shortcut_state (st : sway_shortcut_state)
    (event : wlr_event_keyboard_key) (new_key raw_modifiers : Z)
    : bool * sway_shortcut_state :=
  let st2 := update_modifier_step st raw_modifiers in
  match state event with
  | WLR_KEY_PRESSED =>
      (false, set_last_keycode (state_add_key st2 (keycode event) new_key)
                               (keycode event))
  | WLR_KEY_RELEASED => state_erase_key st2 (keycode event)
  end.

(** A freshly allocated ([calloc]) shortcut state. *)
Definition empty_state : sway_shortcut_state :=
  {| pressed_keys := replicate SWAY_KEYBOARD_PRESSED_KEYS_CAP 0;
     pressed_keycodes := replicate SWAY_KEYBOARD_PRESSED_KEYS_CAP 0;
     last_keycode := 0; last_raw_modifiers := 0;
     npressed := O; current_key := 0 |}.

(** Array bounds: both arrays have [SWAY_KEYBOARD_PRESSED_KEYS_CAP] cells
    and [npressed] indexes into them. *)
Definition wf_state (st : sway_shortcut_state) : Prop :=
  length (pressed_keys st) = SWAY_KEYBOARD_PRESSED_KEYS_CAP ∧
  length (pressed_keycodes st) = SWAY_KEYBOARD_PRESSED_KEYS_CAP ∧
  (npressed st ≤ SWAY_KEYBOARD_PRESSED_KEYS_CAP)%nat.

(** ** Binding resolver *)

(** A [struct sway_binding] together with the address it lives at; the
    resolver and the dispatcher compare bindings by pointer. *)
Record sway_binding := mk_binding {
  baddr : Z;
  order : Z;
  input : string;
  flags : Z;
  keys : list Z;
  modifiers : Z;
  group : Z
}.

Definition XKB_LAYOUT_INVALID : Z := 4294967295.

Definition binding_ptr_eq (a b : sway_binding) : bool := baddr a =? baddr b.

(** Equality of two possibly-NULL binding pointers. *)
Definition ptr_eq (a b : option sway_binding) : bool :=
  match a, b with
  | None, None => true
  | Some x, Some y => binding_ptr_eq x y
  | _, _ => false
  end.

Definition streq (a b : string) : bool := String.eqb a b.

Definition binding_locked (b : sway_binding) : bool :=
  negb (Z.land (flags b) BINDING_LOCKED =? 0).

Definition binding_release (b : sway_binding) : bool :=
  negb (Z.land (flags b) BINDING_RELEASE =? 0).

(** The condition of the first [continue] of [get_active_binding]. *)
Definition binding_filtered_out (b : sway_binding) (mods : Z)
    (release locked : bool) (inp : string) (exact_input : bool) (grp : Z) : bool :=
  negb (Z.lxor mods (modifiers b) =? 0)
  || negb (eqb release (binding_release b))
  || (Z.b2z locked >? Z.b2z (binding_locked b))
  || (negb (group b =? XKB_LAYOUT_INVALID) && negb (group b =? grp))
  || (negb (streq (input b) inp)
      && (negb (streq (input b) "*") || exact_input)).

(** The inner loop comparing required keys with pressed identifiers. *)
Fixpoint keys_loop (n j : nat) (bkeys pkeys : list Z) : bool :=
  match n with
  | O => true
  | S n' =>
      if negb (bkeys !!! j =? pkeys !!! j) then false
      else keys_loop n' (S j) bkeys pkeys
  end.

(** The value of [match] once the matching block has run. *)
Definition binding_match (st : sway_shortcut_state) (b : sway_binding) : bool :=
  if (npressed st =? length (keys b))%nat
  then keys_loop (npressed st) 0 (keys b) (pressed_keys st)
  else if (length (keys b) =? 1)%nat
       then current_key st =? keys b !!! O
       else false.

(** The tie-break block: [true] when the loop [continue]s and keeps the
    binding already chosen. *)
Definition keep_current (cur b : sway_binding) (locked : bool)
    (inp : string) (grp : Z) : bool :=
  if binding_ptr_eq cur b then true
  else
    let current_locked := binding_locked cur in
    let current_input := streq (input cur) inp in
    let current_group_set := negb (group cur =? XKB_LAYOUT_INVALID) in
    let binding_input := streq (input b) inp in
    let binding_group_set := negb (group b =? XKB_LAYOUT_INVALID) in
    if eqb current_input binding_input
       && eqb current_locked (binding_locked b)
       && eqb current_group_set binding_group_set
    then true
    else if current_input && negb binding_input then true
    else if eqb current_input binding_input && (group cur =? grp) then true
    else if eqb current_input binding_input
            && eqb current_group_set binding_group_set
            && eqb current_locked locked
    then true
    else false.

(** The test that ends the scan early. *)
Definition perfect_match (b : sway_binding) (locked : bool)
    (inp : string) (grp : Z) : bool :=
  streq (input b) inp
  && (Z.land (flags b) BINDING_LOCKED =? Z.b2z locked)
  && (group b =? grp).

Fixpoint get_active_binding (st : sway_shortcut_state)
    (bindings : list sway_binding) (current_binding : option sway_binding)
    (mods : Z) (release locked : bool) (inp : string) (exact_input : bool)
    (grp : Z) : option sway_binding :=
  match bindings with
  | [] => current_binding
  | b :: rest =>
      let continue cur :=
        get_active_binding st rest cur mods release locked inp exact_input grp in
      if binding_filtered_out b mods release locked inp exact_input grp
      then continue current_binding
      else if negb (binding_match st b) then continue current_binding
      else if match current_binding with
              | Some cur => keep_current cur b locked inp grp
              | None => false
              end
      then continue current_binding
      else if perfect_match b locked inp grp then Some b
      else continue (Some b)
  end.

(** ** Physical keyboard and its collaborators *)

(** The fields of [struct sway_keyboard] that this file reads or writes.
    [key_repeat_source] holds the delay, in milliseconds, the repeat
    timer is armed with; [0] means disarmed, as for
    [wl_event_source_timer_update]. *)
Record sway_keyboard := mk_keyboard {
  state_keycodes : sway_shortcut_state;
  state_keysyms_translated : sway_shortcut_state;
  state_keysyms_raw : sway_shortcut_state;
  state_pressed_sent : sway_shortcut_state;
  effective_layout : Z;
  held_binding : option sway_binding;
  repeat_binding : option sway_binding;
  key_repeat_source : Z
}.

(** What one key event sees of the device, the seat, xkb and the
    configuration: the results of the library queries made for the
    event's keycode and the binding tables of the current mode. *)
Record key_context := mk_context {
  device_identifier : string;
  keyboard_group : bool;
  exclusive_client : bool;
  wlr_keyboard_get_modifiers : Z;
  xkb_consumed_mods : Z;
  xkb_state_key_get_syms : list Z;
  xkb_keymap_key_get_syms_by_level0 : list Z;
  repeat_info_delay : Z;
  repeat_info_rate : Z;
  keycode_bindings : list sway_binding;
  keysym_bindings : list sway_binding;
  backend_is_multi : bool;
  backend_has_session : bool
}.

(** Calls into collaborators, in the order they are made. *)
Inductive action :=
  | IdleNotify
  | Execute (b : sway_binding)
  | ChangeVT (vt : Z)
  | TimerUpdate (ms : Z)
  | SetKeyboard
  | NotifyKey (time kc : Z) (s : wlr_key_state)
  | CommitDirty.

(** What running a binding's command does to the keyboard it was
    triggered from; command execution itself is a collaborator. *)
Variable command_effect : sway_binding → sway_keyboard → sway_keyboard.

(** A computation on the keyboard that logs its outgoing calls. *)
Definition M (A : Type) : Type := sway_keyboard → A * sway_keyboard * list action.

Definition ret {A} (a : A) : M A := λ kb, (a, kb, []).

Definition bind {A B} (m : M A) (f : A → M B) : M B :=
  λ kb, let '(a, kb1, t1) := m kb in
        let '(b, kb2, t2) := f a kb1 in
        (b, kb2, t1 ++ t2).

Definition gets {A} (f : sway_keyboard → A) : M A := λ kb, (f kb, kb, []).

Definition modify (f : sway_keyboard → sway_keyboard) : M unit :=
  λ kb, (tt, f kb, []).

Definition emit (a : action) : M unit := λ kb, (tt, kb, [a]).

Definition when (c : bool) (m : M unit) : M unit := if c then m else ret tt.

Notation "'let*' x ':=' m 'in' f" := (bind m (λ x, f))
  (at level 10, x name, m at level 100, f at level 200, only parsing).
Notation "m >> f" := (bind m (λ _, f))
  (at level 100, f at level 200, only parsing).

Definition set_state_keycodes (s : sway_shortcut_state) (kb : sway_keyboard) :=
  {| state_keycodes := s;
     state_keysyms_translated := state_keysyms_translated kb;
     state_keysyms_raw := state_keysyms_raw kb;
     state_pressed_sent := state_pressed_sent kb;
     effective_layout := effective_layout kb;
     held_binding := held_binding kb; repeat_binding := repeat_binding kb;
     key_repeat_source := key_repeat_source kb |}.

Definition set_state_keysyms_translated (s : sway_shortcut_state) (kb : sway_keyboard) :=
  {| state_keycodes := state_keycodes kb;
     state_keysyms_translated := s;
     state_keysyms_raw := state_keysyms_raw kb;
     state_pressed_sent := state_pressed_sent kb;
     effective_layout := effective_layout kb;
     held_binding := held_binding kb; repeat_binding := repeat_binding kb;
     key_repeat_source := key_repeat_source kb |}.

Definition set_state_keysyms_raw (s : sway_shortcut_state) (kb : sway_keyboard) :=
  {| state_keycodes := state_keycodes kb;
     state_keysyms_translated := state_keysyms_translated kb;
     state_keysyms_raw := s;
     state_pressed_sent := state_pressed_sent kb;
     effective_layout := effective_layout kb;
     held_binding := held_binding kb; repeat_binding := repeat_binding kb;
     key_repeat_source := key_repeat_source kb |}.

Definition set_state_pressed_sent (s : sway_shortcut_state) (kb : sway_keyboard) :=
  {| state_keycodes := state_keycodes kb;
     state_keysyms_translated := state_keysyms_translated kb;
     state_keysyms_raw := state_keysyms_raw kb;
     state_pressed_sent := s;
     effective_layout := effective_layout kb;
     held_binding := held_binding kb; repeat_binding := repeat_binding kb;
     key_repeat_source := key_repeat_source kb |}.

Definition set_held_binding (b : option sway_binding) (kb : sway_keyboard) :=
  {| state_keycodes := state_keycodes kb;
     state_keysyms_translated := state_keysyms_translated kb;
     state_keysyms_raw := state_keysyms_raw kb;
     state_pressed_sent := state_pressed_sent kb;
     effective_layout := effective_layout kb;
     held_binding := b; repeat_binding := repeat_binding kb;
     key_repeat_source := key_repeat_source kb |}.

Definition set_repeat_binding (b : option sway_binding) (kb : sway_keyboard) :=
  {| state_keycodes := state_keycodes kb;
     state_keysyms_translated := state_keysyms_translated kb;
     state_keysyms_raw := state_keysyms_raw kb;
     state_pressed_sent := state_pressed_sent kb;
     effective_layout := effective_layout kb;
     held_binding := held_binding kb; repeat_binding := b;
     key_repeat_source := key_repeat_source kb |}.

Definition set_key_repeat_source (ms : Z) (kb : sway_keyboard) :=
  {| state_keycodes := state_keycodes kb;
     state_keysyms_translated := state_keysyms_translated kb;
     state_keysyms_raw := state_keysyms_raw kb;
     state_pressed_sent := state_pressed_sent kb;
     effective_layout := effective_layout kb;
     held_binding := held_binding kb; repeat_binding := repeat_binding kb;
     key_repeat_source := ms |}.

(** [seat_execute_command]: the call is logged and its effect applied. *)
Definition seat_execute_command (b : sway_binding) : M unit :=
  emit (Execute b) >> modify (command_effect b).

(** [wl_event_source_timer_update(keyboard->key_repeat_source, ms)]; a
    failure is only logged by the callers. *)
Definition wl_event_source_timer_update (ms : Z) : M unit :=
  emit (TimerUpdate ms) >> modify (set_key_repeat_source ms).

Definition sway_keyboard_disarm_key_repeat : M unit :=
  modify (set_repeat_binding None) >>
  wl_event_source_timer_update 0.

(** ** Event dispatcher *)

Definition XKB_KEY_XF86Switch_VT_1 : Z := 269024769.
Definition XKB_KEY_XF86Switch_VT_12 : Z := 269024780.

(** [xkb_keycode_t keycode = event->keycode + 8], in 32 bits. *)
Definition xkb_keycode_of (event : wlr_event_keyboard_key) : Z :=
  (keycode event + 8) mod 2 ^ 32.

Definition is_pressed (event : wlr_event_keyboard_key) : bool :=
  match state event with WLR_KEY_PRESSED => true | WLR_KEY_RELEASED => false end.

Definition is_released (event : wlr_event_keyboard_key) : bool :=
  match state event with WLR_KEY_RELEASED => true | WLR_KEY_PRESSED => false end.

Definition non_null (b : option sway_binding) : bool :=
  match b with Some _ => true | None => false end.

Fixpoint keyboard_execute_compositor_binding (ctx : key_context)
    (pressed_keysyms : list Z) : M bool :=
  match pressed_keysyms with
  | [] => ret false
  | keysym :: rest =>
      if (XKB_KEY_XF86Switch_VT_1 <=? keysym) && (keysym <=? XKB_KEY_XF86Switch_VT_12)
      then
        when (backend_is_multi ctx && backend_has_session ctx)
             (emit (ChangeVT (keysym - XKB_KEY_XF86Switch_VT_1 + 1))) >>
        ret true
      else keyboard_execute_compositor_binding ctx rest
  end.

(** Keysyms and modifiers with the modifiers consumed by translation
    cleared. *)
Definition keyboard_keysyms_translated (ctx : key_context) : list Z * Z :=
  (xkb_state_key_get_syms ctx,
   Z.land (wlr_keyboard_get_modifiers ctx) (Z.lnot (xkb_consumed_mods ctx))).

(** Level-0 keysyms and the unfiltered modifiers. *)
Definition keyboard_keysyms_raw (ctx : key_context) : list Z * Z :=
  (xkb_keymap_key_get_syms_by_level0 ctx, wlr_keyboard_get_modifiers ctx).

(** The loops calling [update_shortcut_state] once per keysym. *)
Definition update_each (st : sway_shortcut_state)
    (event : wlr_event_keyboard_key) (syms : list Z) (mods : Z)
    : sway_shortcut_state :=
  fold_left (λ s sym, (update_shortcut_state s event sym mods).2) syms st.

(** The three consecutive [get_active_binding] calls sharing one result
    slot; [handle_key_event] makes them once for release bindings and
    once for press bindings. *)
Definition active_binding (ctx : key_context) (kb : sway_keyboard)
    (release : bool) : option sway_binding :=
  let input_inhibited := exclusive_client ctx in
  let exact_identifier := keyboard_group ctx in
  let code_modifiers := wlr_keyboard_get_modifiers ctx in
  let raw_modifiers := (keyboard_keysyms_raw ctx).2 in
  let translated_modifiers := (keyboard_keysyms_translated ctx).2 in
  let b1 := get_active_binding (state_keycodes kb) (keycode_bindings ctx) None
              code_modifiers release input_inhibited (device_identifier ctx)
              exact_identifier (effective_layout kb) in
  let b2 := get_active_binding (state_keysyms_raw kb) (keysym_bindings ctx) b1
              raw_modifiers release input_inhibited (device_identifier ctx)
              exact_identifier (effective_layout kb) in
  get_active_binding (state_keysyms_translated kb) (keysym_bindings ctx) b2
    translated_modifiers release input_inhibited (device_identifier ctx)
    exact_identifier (effective_layout kb).

(** The last block of [handle_key_event]: record the event in
    [state_pressed_sent] and pass it on to the focused client. *)
Definition forward_to_client (event : wlr_event_keyboard_key) (handled : bool)
    : M unit :=
  when (negb handled || is_released event)
    (let* pressed_sent := (λ kb,
        let r := update_shortcut_state (state_pressed_sent kb) event
                   (xkb_keycode_of event) 0 in
        (r.1, set_state_pressed_sent r.2 kb, [])) in
     when (pressed_sent || is_pressed event)
       (emit SetKeyboard >>
        emit (NotifyKey (time_msec event) (keycode event) (state event)))).

(** The three updates under "Update shortcut model state". *)
Definition update_model_state (ctx : key_context)
    (event : wlr_event_keyboard_key) (kb : sway_keyboard) : sway_keyboard :=
  let keycode := xkb_keycode_of event in
  let raw_keysyms := (keyboard_keysyms_raw ctx).1 in
  let translated_keysyms := (keyboard_keysyms_translated ctx).1 in
  let code_modifiers := wlr_keyboard_get_modifiers ctx in
  let kb1 := set_state_keycodes
    (update_shortcut_state (state_keycodes kb) event keycode code_modifiers).2 kb in
  let kb2 := set_state_keysyms_raw
    (update_each (state_keysyms_raw kb1) event raw_keysyms code_modifiers) kb1 in
  set_state_keysyms_translated
    (update_each (state_keysyms_translated kb2) event translated_keysyms
       code_modifiers) kb2.

(** The two assignments to [held_binding] that follow the execution of
    the stored release binding. *)
Definition store_held_binding (binding_released : option sway_binding)
    (event : wlr_event_keyboard_key) (kb : sway_keyboard) : sway_keyboard :=
  let kb1 := if negb (ptr_eq binding_released (held_binding kb))
             then set_held_binding None kb else kb in
  if non_null binding_released && is_pressed event
  then set_held_binding binding_released kb1 else kb1.

(** "Set up (or clear) keyboard repeat for a pressed binding." *)
Definition setup_key_repeat (ctx : key_context) (binding : option sway_binding)
    : M unit :=
  if non_null binding && (repeat_info_delay ctx >? 0)
  then modify (set_repeat_binding binding) >>
       wl_event_source_timer_update (repeat_info_delay ctx)
  else let* rb := gets repeat_binding in
       when (non_null rb) sway_keyboard_disarm_key_repeat.

(** The stored release binding that the event causes to run, if any. *)
Definition held_to_run (binding_released : option sway_binding)
    (event : wlr_event_keyboard_key) (kb : sway_keyboard) : option sway_binding :=
  match held_binding kb with
  | Some h =>
      if negb (ptr_eq binding_released (held_binding kb)) && is_released event
      then Some h else None
  | None => None
  end.

(** [handle_key_event] up to and including the execution of the pressed
    binding; the result is the value of [handled] at that point. *)
Definition execute_bindings (ctx : key_context)
    (event : wlr_event_keyboard_key) : M bool :=
  emit IdleNotify >>
  (* Update shortcut model state *)
  modify (update_model_state ctx event) >>
  (* Identify active release binding *)
  let* binding_released := gets (λ kb, active_binding ctx kb true) in
  (* Execute stored release binding once no longer active *)
  let* held := gets (held_to_run binding_released event) in
  let* handled :=
    match held with
    | Some h => seat_execute_command h >> ret true
    | None => ret false
    end in
  modify (store_held_binding binding_released event) >>
  (* Identify and execute active pressed binding *)
  let* binding := gets (λ kb,
    if is_pressed event then active_binding ctx kb false else None) in
  setup_key_repeat ctx binding >>
  match binding with
  | Some b => seat_execute_command b >> ret true
  | None => ret handled
  end.

(** "Compositor bindings": first the translated keysyms, then the raw. *)
Definition compositor_bindings (ctx : key_context)
    (event : wlr_event_keyboard_key) (handled : bool) : M bool :=
  let* handled :=
    if negb handled && is_pressed event
    then keyboard_execute_compositor_binding ctx (keyboard_keysyms_translated ctx).1
    else ret handled in
  if negb handled && is_pressed event
  then keyboard_execute_compositor_binding ctx (keyboard_keysyms_raw ctx).1
  else ret handled.

Definition handle_key_event (ctx : key_context)
    (event : wlr_event_keyboard_key) : M unit :=
  let* handled := execute_bindings ctx event in
  if negb handled && keyboard_group ctx
  then ret tt (* Only handle device specific bindings for keyboards in a group *)
  else
    let* handled := compositor_bindings ctx event handled in
    forward_to_client event handled >>
    emit CommitDirty.

Definition handle_keyboard_repeat (ctx : key_context) : M unit :=
  let* rb := gets repeat_binding in
  match rb with
  | Some b =>
      when (repeat_info_rate ctx >? 0)
        (* We queue the next event first, as the command might cancel it *)
        (wl_event_source_timer_update (1000 `quot` repeat_info_rate ctx)) >>
      seat_execute_command b >>
      emit CommitDirty
  | None => ret tt
  end.

(** A keyboard as [sway_keyboard_create] leaves it. *)
Definition new_keyboard : sway_keyboard :=
  {| state_keycodes := empty_state;
     state_keysyms_translated := empty_state;
     state_keysyms_raw := empty_state;
     state_pressed_sent := empty_state;
     effective_layout := 0;
     held_binding := None; repeat_binding := None;
     key_repeat_source := 0 |}.

(** Processing a sequence of key events, each with what it observes. *)
Fixpoint handle_key_events (evs : list (key_context * wlr_event_keyboard_key))
    : M unit :=
  match evs with
  | [] => ret tt
  | (ctx, event) :: rest => handle_key_event ctx event >> handle_key_events rest
  end.

(** ** Vocabulary of the properties *)

(** An entry that was added under keycode [kc], and one that was not. *)
Definition from_keycode (kc : Z) (p : Z * Z) : Prop := p.2 = kc.

Global Instance from_keycode_dec kc p : Decision (from_keycode kc p).
Proof. unfold from_keycode. apply _. Defined.

Definition other_keycode (kc : Z) (p : Z * Z) : Prop := p.2 ≠ kc.

Global Instance other_keycode_dec kc p : Decision (other_keycode kc p).
Proof. unfold other_keycode. apply _. Defined.

(** The number of leading identifiers smaller than [key_id]: where the
    search loop of [state_add_key] stops. *)
Fixpoint insert_pos (key_id : Z) (ids : list Z) : nat :=
  match ids with
  | [] => O
  | x :: rest => if x <? key_id then S (insert_pos key_id rest) else O
  end.

(** The array after the shifting loop: cells [i..j-1] moved up by one. *)
Definition shifted {A} (i j : nat) (cells : list A) : list A :=
  take (S i) cells ++ take (j - i) (drop i cells) ++ drop (S j) cells.

(** One operation on a shortcut state, and sequences of them. *)
Inductive tracker_op :=
  | OpAdd (kc key_id : Z)
  | OpErase (kc : Z)
  | OpUpdate (event : wlr_event_keyboard_key) (new_key raw_modifiers : Z).

Definition apply_op (st : sway_shortcut_state) (o : tracker_op)
    : sway_shortcut_state :=
  match o with
  | OpAdd kc key_id => state_add_key st kc key_id
  | OpErase kc => (state_erase_key st kc).2
  | OpUpdate event new_key raw_modifiers =>
      (update_shortcut_state st event new_key raw_modifiers).2
  end.

Definition apply_ops (st : sway_shortcut_state) (ops : list tracker_op)
    : sway_shortcut_state :=
  fold_left apply_op ops st.

(** The operation does not add an identifier that is pressed at the
    moment of the add. *)
Definition op_fresh (st : sway_shortcut_state) (o : tracker_op) : Prop :=
  match o with
  | OpAdd _ key_id => key_id ∉ pressed_ids st
  | OpErase _ => True
  | OpUpdate event new_key raw_modifiers =>
      state event = WLR_KEY_PRESSED →
      new_key ∉ pressed_ids (update_modifier_step st raw_modifiers)
  end.

Fixpoint ops_fresh (st : sway_shortcut_state) (ops : list tracker_op) : Prop :=
  match ops with
  | [] => True
  | o :: rest => op_fresh st o ∧ ops_fresh (apply_op st o) rest
  end.

(** Sorted ascending by identifier. *)
Definition sorted_by_id (st : sway_shortcut_state) : Prop :=
  Sorted Z.le (pressed_ids st).

(** The invariant the tracker maintains: bounds and order. *)
Definition tracker_inv (st : sway_shortcut_state) : Prop :=
  wf_state st ∧ StronglySorted Z.le (pressed_ids st).

(** The two ways a binding can match a state, in the words of the
    specification: every required key is the pressed identifier at the
    same position, or the single required key is [current_key]. *)
Definition exact_match (st : sway_shortcut_state) (b : sway_binding) : Prop :=
  npressed st = length (keys b) ∧
  ∀ j : nat, (j < npressed st)%nat → keys b !! j = pressed_ids st !! j.

Definition single_match (st : sway_shortcut_state) (b : sway_binding) : Prop :=
  length (keys b) = 1%nat ∧ keys b !! O = Some (current_key st).

(** [current_key] is either cleared or one of the pressed identifiers. *)
Definition current_key_inv (st : sway_shortcut_state) : Prop :=
  current_key st = 0 ∨ current_key st ∈ pressed_ids st.

(** Running a computation: the keyboard it leaves and the calls it made. *)
Definition final_state {A} (m : M A) (kb : sway_keyboard) : sway_keyboard := (m kb).1.2.
Definition calls {A} (m : M A) (kb : sway_keyboard) : list action := (m kb).2.
Definition value {A} (m : M A) (kb : sway_keyboard) : A := (m kb).1.1.

(** A computation leaves the observation [f] of the keyboard as it was. *)
Definition preserves {A B} (f : sway_keyboard → B) (m : M A) : Prop :=
  ∀ kb, f (final_state m kb) = f kb.

(** A computation makes only calls satisfying [P]. *)
Definition calls_only {A} (P : action → Prop) (m : M A) : Prop :=
  ∀ kb, Forall P (calls m kb).

Definition is_notify_key (a : action) : Prop :=
  match a with NotifyKey _ _ _ => True | _ => False end.

Definition is_execute (a : action) : Prop :=
  match a with Execute _ => True | _ => False end.

Definition is_change_vt (a : action) : Prop :=
  match a with ChangeVT _ => True | _ => False end.

Global Instance is_notify_key_dec a : Decision (is_notify_key a).
Proof. destruct a; simpl; apply _. Defined.

Global Instance is_execute_dec a : Decision (is_execute a).
Proof. destruct a; simpl; apply _. Defined.

(** The forwarding rule of the last block of [handle_key_event]: a press
    is passed on, a release only if its keycode is recorded as sent. *)
Definition forwarding_rule (kb : sway_keyboard)
    (event : wlr_event_keyboard_key) : Prop :=
  is_pressed event = true ∨
  Exists (from_keycode (keycode event)) (pressed (state_pressed_sent kb)).

(** The keycodes the client has been shown pressed and not yet
    released, read off the calls made so far. *)
Definition sent_step (acc : list Z) (a : action) : list Z :=
  match a with
  | NotifyKey _ kc WLR_KEY_PRESSED => kc :: acc
  | NotifyKey _ kc WLR_KEY_RELEASED => filter (λ k, k ≠ kc) acc
  | _ => acc
  end.

Definition sent_keys (tr : list action) : list Z := fold_left sent_step tr [].

(** The keyboard after [sway_keyboard_disarm_key_repeat]. *)
Definition disarmed (kb : sway_keyboard) : sway_keyboard :=
  final_state sway_keyboard_disarm_key_repeat kb.

(** The call and the effect of running an optional binding. *)
Definition exec_calls (b : option sway_binding) : list action :=
  match b with Some x => [Execute x] | None => [] end.

Definition exec_effect (b : option sway_binding) (kb : sway_keyboard) : sway_keyboard :=
  match b with Some x => command_effect x kb | None => kb end.


Definition is_timer_update (a : action) : Prop :=
  match a with TimerUpdate _ => True | _ => False end.

(** The keycodes [state_pressed_sent] records, read off the calls made
    so far: a press shown to the client is recorded unless
    [SWAY_KEYBOARD_PRESSED_KEYS_CAP] keycodes are recorded already, and
    a release shown to the client removes the keycode. *)
Definition recorded_step (acc : list Z) (a : action) : list Z :=
  match a with
  | NotifyKey _ kc WLR_KEY_PRESSED =>
      if decide (length acc < SWAY_KEYBOARD_PRESSED_KEYS_CAP)%nat
      then kc :: acc else acc
  | NotifyKey _ kc WLR_KEY_RELEASED => filter (λ k, k ≠ kc) acc
  | _ => acc
  end.

Definition recorded_keys (tr : list action) : list Z :=
  fold_left recorded_step tr [].

(** What links [state_pressed_sent] to the calls made so far: the
    origin keycodes it holds are the recorded keycodes. *)
Definition sent_inv (kb : sway_keyboard) (tr : list action) : Prop :=
  wf_state (state_pressed_sent kb) ∧
  last_raw_modifiers (state_pressed_sent kb) = 0 ∧
  (pressed (state_pressed_sent kb)).*2 ≡ₚ recorded_keys tr.

(** No more keycodes than the capacity are outstanding at the client
    after any of the calls. *)
Definition within_capacity (tr : list action) : Prop :=
  ∀ n : nat,
    (length (sent_keys (take n tr)) ≤ SWAY_KEYBOARD_PRESSED_KEYS_CAP)%nat.

(** Whether the event reaches the last block of [handle_key_event] and
    enters it. *)
Definition reaches_forwarding ctx ev kb : bool :=
  let handled := value (execute_bindings ctx ev) kb in
  let kb1 := final_state (execute_bindings ctx ev) kb in
  negb (negb handled && keyboard_group ctx)
  && (negb (value (compositor_bindings ctx ev handled) kb1) || is_released ev).


(** The event is cut short by the keyboard-group return: the keyboard
    belongs to a group and the event runs no binding. *)
Definition stopped_by_group ctx ev kb : Prop :=
  keyboard_group ctx = true ∧
  filter is_execute (calls (handle_key_event ctx ev) kb) = [].


(** ** Sample inputs *)

Definition press (kc : Z) : wlr_event_keyboard_key :=
  {| time_msec := 0; keycode := kc; state := WLR_KEY_PRESSED |}.
Definition release (kc : Z) : wlr_event_keyboard_key :=
  {| time_msec := 0; keycode := kc; state := WLR_KEY_RELEASED |}.

(** Commands that leave the keyboard as it is. *)
Definition no_effect (b : sway_binding) (kb : sway_keyboard) : sway_keyboard := kb.

(** Keys 30 and 31 held, then 31 released. *)
Definition one_key_left : sway_shortcut_state :=
  apply_ops empty_state
    [OpUpdate (press 30) 38 0; OpUpdate (press 31) 39 0; OpUpdate (release 31) 39 0].

(** Two identifiers under keycode 10 and one under keycode 11. *)
Definition three_entries : sway_shortcut_state :=
  apply_ops empty_state [OpAdd 10 7; OpAdd 11 3; OpAdd 10 5].

(** A release binding on the single key 0, usable from any device. *)
Definition binding_key0 : sway_binding :=
  {| baddr := 4096; order := 0; input := "*"; flags := 1; keys := [0];
     modifiers := 0; group := XKB_LAYOUT_INVALID |}.

(** A press binding on keysym 97 and a release binding on the same key. *)
Definition binding_a : sway_binding :=
  {| baddr := 8192; order := 1; input := "*"; flags := 0; keys := [97];
     modifiers := 0; group := XKB_LAYOUT_INVALID |}.
Definition binding_a_release : sway_binding :=
  {| baddr := 8256; order := 2; input := "*"; flags := 1; keys := [97];
     modifiers := 0; group := XKB_LAYOUT_INVALID |}.

(** A keyboard of its own, with no bindings configured. *)
Definition plain_context : key_context :=
  {| device_identifier := "kbd0"; keyboard_group := false;
     exclusive_client := false; wlr_keyboard_get_modifiers := 0;
     xkb_consumed_mods := 0; xkb_state_key_get_syms := [97];
     xkb_keymap_key_get_syms_by_level0 := [97];
     repeat_info_delay := 600; repeat_info_rate := 25;
     keycode_bindings := []; keysym_bindings := [];
     backend_is_multi := false; backend_has_session := false |}.

(** The same keyboard as a member of a keyboard group. *)
Definition grouped_context : key_context :=
  {| device_identifier := "kbd0"; keyboard_group := true;
     exclusive_client := false; wlr_keyboard_get_modifiers := 0;
     xkb_consumed_mods := 0; xkb_state_key_get_syms := [97];
     xkb_keymap_key_get_syms_by_level0 := [97];
     repeat_info_delay := 600; repeat_info_rate := 25;
     keycode_bindings := []; keysym_bindings := [];
     backend_is_multi := false; backend_has_session := false |}.

(** The same keyboard with the two bindings on keysym 97 configured. *)
Definition bound_context : key_context :=
  {| device_identifier := "kbd0"; keyboard_group := false;
     exclusive_client := false; wlr_keyboard_get_modifiers := 0;
     xkb_consumed_mods := 0; xkb_state_key_get_syms := [97];
     xkb_keymap_key_get_syms_by_level0 := [97];
     repeat_info_delay := 600; repeat_info_rate := 25;
     keycode_bindings := []; keysym_bindings := [binding_a; binding_a_release];
     backend_is_multi := false; backend_has_session := false |}.

(** The same keyboard with only the release binding on keysym 97
    configured, on its own and as a member of a keyboard group. *)
Definition release_bound_context : key_context :=
  {| device_identifier := "kbd0"; keyboard_group := false;
     exclusive_client := false; wlr_keyboard_get_modifiers := 0;
     xkb_consumed_mods := 0; xkb_state_key_get_syms := [97];
     xkb_keymap_key_get_syms_by_level0 := [97];
     repeat_info_delay := 600; repeat_info_rate := 25;
     keycode_bindings := []; keysym_bindings := [binding_a_release];
     backend_is_multi := false; backend_has_session := false |}.

Definition grouped_release_bound_context : key_context :=
  {| device_identifier := "kbd0"; keyboard_group := true;
     exclusive_client := false; wlr_keyboard_get_modifiers := 0;
     xkb_consumed_mods := 0; xkb_state_key_get_syms := [97];
     xkb_keymap_key_get_syms_by_level0 := [97];
     repeat_info_delay := 600; repeat_info_rate := 25;
     keycode_bindings := []; keysym_bindings := [binding_a_release];
     backend_is_multi := false; backend_has_session := false |}.

(** Thirty-three keys pressed one after the other, none released. *)
Definition presses_1_to_33 : list (key_context * wlr_event_keyboard_key) :=
  (λ kc, (plain_context, press kc)) <$> seqZ 1 33.

(** Thirty-two keys pressed one after the other, none released. *)
Definition presses_1_to_32 : list (key_context * wlr_event_keyboard_key) :=
  (λ kc, (plain_context, press kc)) <$> seqZ 1 32.

(** ** Further vocabulary *)

(** The cells of both arrays from [npressed] on hold 0. *)
Definition tail_clear (st : sway_shortcut_state) : Prop :=
  drop (npressed st) (pressed_keys st)
  = replicate (SWAY_KEYBOARD_PRESSED_KEYS_CAP - npressed st) 0 ∧
  drop (npressed st) (pressed_keycodes st)
  = replicate (SWAY_KEYBOARD_PRESSED_KEYS_CAP - npressed st) 0.

(** The binding passes the filtering pass and matches the state. *)
Definition candidate (st : sway_shortcut_state) (mods : Z)
    (release locked : bool) (inp : string) (exact_input : bool) (grp : Z)
    (b : sway_binding) : bool :=
  negb (binding_filtered_out b mods release locked inp exact_input grp)
  && binding_match st b.

(** Two bindings that the tie-break cannot tell apart: both or neither
    name the device, carry the lock flag, set a layout group. *)
Definition equally_specific (inp : string) (a b : sway_binding) : Prop :=
  streq (input a) inp = streq (input b) inp ∧
  binding_locked a = binding_locked b ∧
  (group a =? XKB_LAYOUT_INVALID) = (group b =? XKB_LAYOUT_INVALID).

(** Bindings at the same address are the same binding. *)
Definition addresses_distinct (bs : list sway_binding) : Prop :=
  ∀ a b, a ∈ bs → b ∈ bs → baddr a = baddr b → a = b.

(** The keysym is one of [XF86Switch_VT_1] .. [XF86Switch_VT_12]. *)
Definition is_vt_switch (keysym : Z) : Prop :=
  XKB_KEY_XF86Switch_VT_1 ≤ keysym ≤ XKB_KEY_XF86Switch_VT_12.

Global Instance is_vt_switch_dec keysym : Decision (is_vt_switch keysym).
Proof. unfold is_vt_switch. apply _. Defined.

(** All four shortcut states of a keyboard are within bounds and sorted. *)
Definition keyboard_inv (kb : sway_keyboard) : Prop :=
  tracker_inv (state_keycodes kb) ∧
  tracker_inv (state_keysyms_translated kb) ∧
  tracker_inv (state_keysyms_raw kb) ∧
  tracker_inv (state_pressed_sent kb).

(** ** Modifier names *)

(** The modifier names of xkbcommon-names.h and the modifier bits of
    wlroots that the table [modifiers] is built from. *)
Variables XKB_MOD_NAME_SHIFT XKB_MOD_NAME_CAPS XKB_MOD_NAME_CTRL
  XKB_MOD_NAME_ALT XKB_MOD_NAME_NUM XKB_MOD_NAME_LOGO : string.
Variables WLR_MODIFIER_SHIFT WLR_MODIFIER_CAPS WLR_MODIFIER_CTRL
  WLR_MODIFIER_ALT WLR_MODIFIER_MOD2 WLR_MODIFIER_MOD3 WLR_MODIFIER_LOGO
  WLR_MODIFIER_MOD5 : Z.

Record modifier_key := mk_modifier_key { name : string; mod_ : Z }.

(** The static table [modifiers]. *)
Definition modifiers_table : list modifier_key :=
  [ {| name := XKB_MOD_NAME_SHIFT; mod_ := WLR_MODIFIER_SHIFT |};
    {| name := XKB_MOD_NAME_CAPS; mod_ := WLR_MODIFIER_CAPS |};
    {| name := XKB_MOD_NAME_CTRL; mod_ := WLR_MODIFIER_CTRL |};
    {| name := "Ctrl"; mod_ := WLR_MODIFIER_CTRL |};
    {| name := XKB_MOD_NAME_ALT; mod_ := WLR_MODIFIER_ALT |};
    {| name := "Alt"; mod_ := WLR_MODIFIER_ALT |};
    {| name := XKB_MOD_NAME_NUM; mod_ := WLR_MODIFIER_MOD2 |};
    {| name := "Mod3"; mod_ := WLR_MODIFIER_MOD3 |};
    {| name := XKB_MOD_NAME_LOGO; mod_ := WLR_MODIFIER_LOGO |};
    {| name := "Mod5"; mod_ := WLR_MODIFIER_MOD5 |} ].

(** [tolower] on one byte, in the C locale. *)
Definition tolower (c : Ascii.ascii) : Ascii.ascii :=
  let n := Ascii.N_of_ascii c in
  if ((65 <=? n) && (n <=? 90))%N then Ascii.ascii_of_N (n + 32) else c.

Fixpoint string_tolower (s : string) : string :=
  match s with
  | EmptyString => EmptyString
  | String c rest => String (tolower c) (string_tolower rest)
  end.

(** [strcasecmp(a, b) == 0]. *)
Definition strcasecmp_eq (a b : string) : bool :=
  String.eqb (string_tolower a) (string_tolower b).

Fixpoint mask_by_name_loop (tbl : list modifier_key) (n : string) : Z :=
  match tbl with
  | [] => 0
  | e :: rest =>
      if strcasecmp_eq (name e) n then mod_ e else mask_by_name_loop rest n
  end.

Definition get_modifier_mask_by_name (n : string) : Z :=
  mask_by_name_loop modifiers_table n.

Fixpoint name_by_mask_loop (tbl : list modifier_key) (modifier : Z)
    : option string :=
  match tbl with
  | [] => None
  | e :: rest =>
      if mod_ e =? modifier then Some (name e) else name_by_mask_loop rest modifier
  end.

(** [NULL] is [None]. *)
Definition get_modifier_name_by_mask (modifier : Z) : option string :=
  name_by_mask_loop modifiers_table modifier.

Fixpoint modifier_names_loop (tbl : list modifier_key) (modifier_masks : Z)
    : list string :=
  match tbl with
  | [] => []
  | e :: rest =>
      if negb (Z.land modifier_masks (mod_ e) =? 0)
      then name e :: modifier_names_loop rest (Z.lxor modifier_masks (mod_ e))
      else modifier_names_loop rest modifier_masks
  end.

(** The names written to [names], in order; the value returned by the C
    function is the length of this list. *)
Definition get_modifier_names (modifier_masks : Z) : list string :=
  modifier_names_loop modifiers_table modifier_masks.

(** The table entries behind the names written by the loop. *)
Fixpoint held_entries (tbl : list modifier_key) (modifier_masks : Z)
    : list modifier_key :=
  match tbl with
  | [] => []
  | e :: rest =>
      if negb (Z.land modifier_masks (mod_ e) =? 0)
      then e :: held_entries rest (Z.lxor modifier_masks (mod_ e))
      else held_entries rest modifier_masks
  end.

(** The eight modifier bits are single bits. *)
Definition single_bit (p : Z) : Prop := ∃ k, 0 ≤ k ∧ p = 2 ^ k.

Definition modifier_bits_single : Prop :=
  Forall (λ e, single_bit (mod_ e)) modifiers_table.

(** No two names of the table are equal when case is ignored. *)
Definition modifier_names_distinct : Prop :=
  NoDup ((λ e, string_tolower (name e)) <$> modifiers_table).

(** ** Bars shown while a modifier is held *)

(** The fields of [struct bar_config] read or written here. *)
Record bar_config := mk_bar {
  modifier : Z;
  visible_by_modifier : bool;
  mode : string;
  hidden_state : string
}.

Definition set_visible_by_modifier (v : bool) (bar : bar_config) : bar_config :=
  {| modifier := modifier bar; visible_by_modifier := v;
     mode := mode bar; hidden_state := hidden_state bar |}.

(** [~x] on a [uint32_t]. *)
Definition uint32_not (x : Z) : Z := Z.lnot x mod 2 ^ 32.

(** Calls made while a modifier event is handled, in order. *)
Inductive modifier_call :=
  | SeatSetKeyboard
  | SeatNotifyModifiers
  | IpcBarStateUpdate (bar : bar_config)
  | IpcInput (change : string).

Definition vis_by_mod (modifiers : Z) (bar : bar_config) : bool :=
  Z.land (uint32_not modifiers) (modifier bar) =? 0.

(** The loop over [config->bars]: the bars as it leaves them and the
    IPC events it sends. *)
Fixpoint determine_bar_visibility (bars : list bar_config) (modifiers : Z)
    : list bar_config * list modifier_call :=
  match bars with
  | [] => ([], [])
  | bar :: rest =>
      let '(bar', sent) :=
        if modifier bar =? 0 then (bar, [])
        else
          let v := vis_by_mod modifiers bar in
          if negb (eqb (visible_by_modifier bar) v) then
            (* If visible by modifier is set, send that it is no longer
               visible by modifier (regardless of bar mode and state).
               Otherwise, only send the visible by modifier status if
               mode and state are hide *)
            if visible_by_modifier bar || streq (mode bar) (hidden_state bar)
            then let bar' := set_visible_by_modifier v bar in
                 (bar', [IpcBarStateUpdate bar'])
            else (bar, [])
          else (bar, []) in
      let '(rest', sent_rest) := determine_bar_visibility rest modifiers in
      (bar' :: rest', sent ++ sent_rest)
  end.

(** What a modifier event sees of the device besides [key_context]:
    the active layout ([modifiers.group]) and whether the wlr keyboard
    is itself the keyboard of a group. *)
Record modifier_context := mk_modifier_context {
  device : key_context;
  modifiers_group : Z;
  is_keyboard_group : bool
}.

Definition set_effective_layout (l : Z) (kb : sway_keyboard) : sway_keyboard :=
  {| state_keycodes := state_keycodes kb;
     state_keysyms_translated := state_keysyms_translated kb;
     state_keysyms_raw := state_keysyms_raw kb;
     state_pressed_sent := state_pressed_sent kb;
     effective_layout := l;
     held_binding := held_binding kb;
     repeat_binding := repeat_binding kb;
     key_repeat_source := key_repeat_source kb |}.

Definition handle_modifier_event (ctx : modifier_context) (kb : sway_keyboard)
    (bars : list bar_config)
    : sway_keyboard * list bar_config * list modifier_call :=
  let '(bars, sent) :=
    if negb (keyboard_group (device ctx)) then
      let modifiers := wlr_keyboard_get_modifiers (device ctx) in
      let '(bars', sent_bars) := determine_bar_visibility bars modifiers in
      (bars', [SeatSetKeyboard; SeatNotifyModifiers] ++ sent_bars)
    else (bars, []) in
  if negb (modifiers_group ctx =? effective_layout kb)
     && negb (is_keyboard_group ctx)
  then (set_effective_layout (modifiers_group ctx) kb, bars,
        sent ++ [IpcInput "xkb_layout"])
  else (kb, bars, sent).

(** The bar's flag differs between the two lists. *)
Definition flag_changed (p : bar_config * bar_config) : Prop :=
  visible_by_modifier p.1 ≠ visible_by_modifier p.2.

Global Instance flag_changed_dec p : Decision (flag_changed p).
Proof. unfold flag_changed. apply _. Defined.

(** All the modifier bits of the bar are among [modifiers]. *)
Definition modifier_held (modifiers : Z) (bar : bar_config) : Prop :=
  Z.land modifiers (modifier bar) = modifier bar.

(** ** Messages of libxkbcommon *)

Inductive sway_log_importance := SWAY_ERROR | SWAY_INFO | SWAY_DEBUG.

Global Instance sway_log_importance_eq_dec : EqDecision sway_log_importance.
Proof. solve_decision. Defined.

Variables XKB_LOG_LEVEL_ERROR XKB_LOG_LEVEL_INFO : Z.

Definition newline : Ascii.ascii := Ascii.ascii_of_nat 10.

(** The string left in [error] once a final newline has been replaced
    by the terminator. [None]: the message is empty, and
    [error[length - 2]] is read outside the buffer. *)
Definition strip_newline (formatted : string) : option string :=
  let length := (String.length formatted + 1)%nat in
  if (length <? 2)%nat then None
  else
    match String.get (length - 2) formatted with
    | Some c =>
        if Ascii.eqb c newline
        then Some (String.substring 0 (length - 2) formatted)
        else Some formatted
    | None => None
    end.

Definition importance_of (level : Z) : sway_log_importance :=
  if level <=? XKB_LOG_LEVEL_ERROR then SWAY_ERROR (* Critical and Error *)
  else if level <=? XKB_LOG_LEVEL_INFO then SWAY_INFO (* Warning and Info *)
  else SWAY_DEBUG.

(** The user data of the xkb context: [None] when the pointer is
    [NULL], otherwise the string it points to, [None] for [NULL]. *)
Definition error_slot := option (option string).

(** What one call does: it returns because the buffer cannot be
    allocated, reads outside the buffer, or logs [message] with
    [importance] and leaves the user data as [data]. *)
Inductive log_outcome :=
  | AllocFailed
  | OutOfBounds
  | Logged (importance : sway_log_importance) (message : string)
           (data : error_slot).

(** [formatted] is what [vsnprintf] writes for [format] and [args];
    [malloc_ok] tells whether the buffer could be allocated. *)
Definition handle_xkb_context_log (malloc_ok : bool) (level : Z)
    (formatted : string) (data : error_slot) : log_outcome :=
  if negb malloc_ok then AllocFailed
  else
    match strip_newline formatted with
    | None => OutOfBounds
    | Some error =>
        let importance := importance_of level in
        match importance, data with
        | SWAY_ERROR, Some None => Logged importance error (Some (Some error))
        | _, _ => Logged importance error data
        end
    end.

(** The messages of one compilation, handled one after the other on
    the same user data, every buffer being allocated; the run stops at
    a message whose handling has no defined outcome. *)
Fixpoint handle_xkb_context_logs (msgs : list (Z * string)) (data : error_slot)
    : option error_slot :=
  match msgs with
  | [] => Some data
  | (level, formatted) :: rest =>
      match handle_xkb_context_log true level formatted data with
      | Logged _ _ data' => handle_xkb_context_logs rest data'
      | _ => None
      end
  end.

(** The message is of level error or critical. *)
Definition is_error_message (m : Z * string) : Prop := m.1 ≤ XKB_LOG_LEVEL_ERROR.

Global Instance is_error_message_dec m : Decision (is_error_message m).
Proof. unfold is_error_message. apply _. Defined.

(** ** Keyboard groups *)

Inductive keyboard_grouping :=
  | KEYBOARD_GROUP_DEFAULT
  | KEYBOARD_GROUP_NONE
  | KEYBOARD_GROUP_KEYMAP.

Global Instance keyboard_grouping_eq_dec : EqDecision keyboard_grouping.
Proof. solve_decision. Defined.

(** A keymap is represented by the text [xkb_keymap_get_as_string] gives
    for it, which is all that [keymaps_match] looks at. *)
Definition keymaps_match (km1 km2 : string) : bool := streq km1 km2.

(** A [struct sway_keyboard_group] of [seat->keyboard_groups]: the
    address of its [wlr_group] and the keymap of the group keyboard. *)
Record sway_keyboard_group := mk_group {
  wlr_group : Z;
  group_keymap : string
}.

(** What the allocations of [sway_keyboard_group_add] answer:
    [false] and [None] stand for [NULL]. *)
Record group_allocation := mk_group_allocation {
  sway_group_alloc : bool;
  wlr_keyboard_group_create : option Z;
  seat_device_alloc : bool;
  input_device_alloc : bool;
  sway_keyboard_create : bool
}.

Inductive group_object := SwayGroup | SeatDevice | InputDevice | Keyboard.

Global Instance group_object_eq_dec : EqDecision group_object.
Proof. solve_decision. Defined.

(** Calls made by [sway_keyboard_group_add], in order. [Alloc] is a
    [calloc] (or [sway_keyboard_create]) that succeeded, [Free] a
    [free] of a pointer that is not [NULL]; [GroupListen] stands for
    the two [wl_signal_add] with their handlers. *)
Inductive group_call :=
  | Alloc (o : group_object)
  | Free (o : group_object)
  | GroupCreate (g : Z)
  | GroupDestroy (g : Z)
  | GroupSetKeymap (g : Z) (keymap : string)
  | GroupAddKeyboard (g : Z)
  | GroupListInsert (g : Z)
  | GroupListen (g : Z).

Global Instance group_call_eq_dec : EqDecision group_call.
Proof. solve_decision. Defined.

(** How the function ends: it returns, or it reads a field through a
    pointer that is [NULL]. *)
Inductive group_outcome :=
  | Returned (made : list group_call)
  | NullDereference (made : list group_call).

(** [sc ? sc->keyboard_grouping : KEYBOARD_GROUP_DEFAULT]. *)
Definition grouping_of (sc : option keyboard_grouping) : keyboard_grouping :=
  match sc with
  | Some grouping => grouping
  | None => KEYBOARD_GROUP_DEFAULT
  end.

(** The loop over [seat->keyboard_groups]: the calls made before the
    [return] inside the loop, or [None] when the loop runs to its end. *)
Fixpoint group_add_loop (sc : option keyboard_grouping) (keymap : string)
    (groups : list sway_keyboard_group) : option (list group_call) :=
  match groups with
  | [] => None
  | group :: rest =>
      match grouping_of sc with
      | KEYBOARD_GROUP_NONE =>
          (* Nothing to do. This shouldn't even be reached *)
          Some []
      | KEYBOARD_GROUP_DEFAULT | KEYBOARD_GROUP_KEYMAP =>
          if keymaps_match keymap (group_keymap group)
          then Some [GroupAddKeyboard (wlr_group group)]
          else group_add_loop sc keymap rest
      end
  end.

(** The code after the label [cleanup]. [sway_group] is allocated on
    every path that leads here, and [seat_device->keyboard] is [NULL] on
    every such path on which [seat_device] is not. *)
Definition group_add_cleanup (wlr : option Z) (seat_device input_device : bool)
    (made : list group_call) : group_outcome :=
  let made :=
    made ++ match wlr with
            | Some g => [GroupDestroy g]
            | None => []
            end in
  if negb seat_device
  then NullDereference made (* [sway_group->seat_device->keyboard] *)
  else Returned (made ++ (if input_device then [Free InputDevice] else [])
                      ++ [Free SeatDevice; Free SwayGroup]).

(** [sc] is the seat configuration found, [None] when neither the seat
    nor ["*"] has one; [keymap] is the keyboard's keymap. *)
Definition sway_keyboard_group_add (sc : option keyboard_grouping)
    (groups : list sway_keyboard_group) (keymap : string)
    (a : group_allocation) : group_outcome :=
  if match sc with
     | Some grouping => bool_decide (grouping = KEYBOARD_GROUP_NONE)
     | None => false
     end
  then Returned [] (* Keyboard grouping is disabled for the seat *)
  else
    match group_add_loop sc keymap groups with
    | Some made => Returned made
    | None =>
        if negb (sway_group_alloc a) then Returned []
        else
          let made := [Alloc SwayGroup] in
          match wlr_keyboard_group_create a with
          | None => group_add_cleanup None false false made
          | Some g =>
              let made := made ++ [GroupCreate g; GroupSetKeymap g keymap] in
              if negb (seat_device_alloc a)
              then group_add_cleanup (Some g) false false made
              else
                let made := made ++ [Alloc SeatDevice] in
                if negb (input_device_alloc a)
                then group_add_cleanup (Some g) true false made
                else
                  let made := made ++ [Alloc InputDevice] in
                  if negb (sway_keyboard_create a)
                  then group_add_cleanup (Some g) true true made
                  else
                    Returned (made ++ [Alloc Keyboard; GroupAddKeyboard g;
                                       GroupListInsert g; GroupListen g])
          end
    end.

(** The group's keymap is the keyboard's. *)
Definition same_keymap (keymap : string) (group : sway_keyboard_group) : Prop :=
  group_keymap group = keymap.

Global Instance same_keymap_dec keymap group : Decision (same_keymap keymap group).
Proof. unfold same_keymap. apply _. Defined.

(** Whatever was allocated or created has been released again. *)
Definition all_released (made : list group_call) : Prop :=
  (∀ o, Alloc o ∈ made → Free o ∈ made) ∧
  (∀ g, GroupCreate g ∈ made → GroupDestroy g ∈ made).

Definition outcome_calls (r : group_outcome) : list group_call :=
  match r with
  | Returned made | NullDereference made => made
  end.

Definition is_add_keyboard (c : group_call) : Prop :=
  match c with
  | GroupAddKeyboard _ => True
  | _ => False
  end.

Global Instance is_add_keyboard_dec c : Decision (is_add_keyboard c).
Proof. destruct c; simpl; apply _. Defined.

(** ** Further sample inputs *)

(** A second press binding on keysym 97, as unspecific as [binding_a]. *)
Definition binding_b : sway_binding :=
  {| baddr := 8320; order := 5; input := "*"; flags := 0; keys := [97];
     modifiers := 0; group := XKB_LAYOUT_INVALID |}.

(** Three bindings on keysym 97 that carry the lock flag
    ([BINDING_LOCKED = 2]): for the device and layout group 0, for the
    device and any group, for any device and group 0. *)
Definition binding_own_group0 : sway_binding :=
  {| baddr := 12288; order := 3; input := "kbd0"; flags := 2; keys := [97];
     modifiers := 0; group := 0 |}.
Definition binding_own_any_group : sway_binding :=
  {| baddr := 16384; order := 4; input := "kbd0"; flags := 2; keys := [97];
     modifiers := 0; group := XKB_LAYOUT_INVALID |}.
Definition binding_any_group0 : sway_binding :=
  {| baddr := 20480; order := 6; input := "*"; flags := 2; keys := [97];
     modifiers := 0; group := 0 |}.

(** Shift (1) and Control (4) held while key 11 is pressed: the
    translation consumes Shift and gives keysym 64, level 0 is keysym 50. *)
Definition shift_ctrl_context : key_context :=
  {| device_identifier := "kbd0"; keyboard_group := false;
     exclusive_client := false; wlr_keyboard_get_modifiers := 5;
     xkb_consumed_mods := 1; xkb_state_key_get_syms := [64];
     xkb_keymap_key_get_syms_by_level0 := [50];
     repeat_info_delay := 600; repeat_info_rate := 25;
     keycode_bindings := []; keysym_bindings := [];
     backend_is_multi := false; backend_has_session := false |}.

(** A binding on keysym 64 with Control. *)
Definition binding_ctrl_at : sway_binding :=
  {| baddr := 24576; order := 7; input := "*"; flags := 0; keys := [64];
     modifiers := 4; group := XKB_LAYOUT_INVALID |}.

(** * Properties *)

(** ** Array cells *)

Lemma zip_lookup_total (l k : list Z) (i : nat) :
  (i < length l)%nat → (i < length k)%nat →
  zip l k !!! i = (l !!! i, k !!! i).
Proof.
  intros Hl Hk. apply list_lookup_total_correct.
  rewrite lookup_zip_with.
  rewrite (list_lookup_lookup_total_lt l i Hl), (list_lookup_lookup_total_lt k i Hk).
  reflexivity.
Qed.

Lemma zip_insert (l k : list Z) (i : nat) (a b : Z) :
  zip (<[i := a]> l) (<[i := b]> k) = <[i := (a, b)]> (zip l k).
Proof.
  revert k i. induction l as [|x l IH]; intros k i; [done|].
  destruct k as [|y k]; [by destruct i|].
  destruct i as [|i]; simpl; [done|]. f_equal. apply IH.
Qed.

Lemma take_S_total {A} `{!Inhabited A} (l : list A) (n : nat) :
  (n < length l)%nat → take (S n) l = take n l ++ [l !!! n].
Proof.
  intros H. apply take_S_r. by apply list_lookup_lookup_total_lt.
Qed.

Lemma drop_S_total {A} `{!Inhabited A} (l : list A) (n : nat) :
  (n < length l)%nat → drop n l = l !!! n :: drop (S n) l.
Proof.
  intros H. apply drop_S. by apply list_lookup_lookup_total_lt.
Qed.

(** ** [state_erase_key] *)

Lemma erase_loop_spec (kc : Z) (n : nat) :
  ∀ (i j : nat) (found : bool) (keys kcs : list Z),
    length keys = length kcs → (j ≤ i)%nat → (i + n ≤ length keys)%nat →
    ∃ j' keys' kcs',
      erase_loop n i j found keys kcs kc
      = (j', found || bool_decide (Exists (from_keycode kc)
                                     (take n (drop i (zip keys kcs)))),
         keys', kcs') ∧
      length keys' = length keys ∧ length kcs' = length kcs ∧
      (j' ≤ i + n)%nat ∧
      take j' (zip keys' kcs')
      = take j (zip keys kcs)
        ++ filter (other_keycode kc) (take n (drop i (zip keys kcs))).
Proof.
  induction n as [|n IH]; intros i j found keys kcs Hlen Hji Hin.
  - exists j, keys, kcs. simpl. rewrite orb_false_r, app_nil_r.
    repeat split; auto with lia.
  - simpl erase_loop.
    set (keys1 := if (j <? i)%nat then <[j := keys !!! i]> keys else keys).
    set (kcs1 := if (j <? i)%nat then <[j := kcs !!! i]> kcs else kcs).
    set (cells := zip keys kcs).
    assert (Hlc : length cells = length keys).
    { unfold cells. rewrite length_zip_with. lia. }
    assert (Hl1 : length keys1 = length keys).
    { unfold keys1. destruct (j <? i)%nat; [apply length_insert | done]. }
    assert (Hl2 : length kcs1 = length kcs).
    { unfold kcs1. destruct (j <? i)%nat; [apply length_insert | done]. }
    assert (Hc1 : zip keys1 kcs1
                  = if (j <? i)%nat then <[j := cells !!! i]> cells else cells).
    { unfold keys1, kcs1, cells. destruct (j <? i)%nat; [|done].
      rewrite zip_insert, zip_lookup_total by lia. done. }
    assert (Hkci : kcs1 !!! i = (cells !!! i).2).
    { unfold cells. rewrite zip_lookup_total by lia. simpl. unfold kcs1.
      destruct (Nat.ltb_spec j i); [|done].
      rewrite list_lookup_total_insert_ne by lia. done. }
    assert (Htk : take (S j) (zip keys1 kcs1) = take j cells ++ [cells !!! i]).
    { rewrite Hc1. destruct (Nat.ltb_spec j i).
      - rewrite take_S_total by (rewrite length_insert; lia).
        rewrite take_insert_ge by lia.
        rewrite list_lookup_total_insert_eq by lia. done.
      - assert (j = i) by lia. subst j. apply take_S_total. lia. }
    assert (Htj : take j (zip keys1 kcs1) = take j cells).
    { rewrite Hc1. destruct (j <? i)%nat; [|done]. by rewrite take_insert_ge. }
    assert (Hdr : drop (S i) (zip keys1 kcs1) = drop (S i) cells).
    { rewrite Hc1. destruct (Nat.ltb_spec j i); [|done].
      rewrite drop_insert_lt by lia. done. }
    assert (Hsplit : take (S n) (drop i cells)
                     = cells !!! i :: take n (drop (S i) cells)).
    { rewrite (drop_S_total cells i) by lia. done. }
    rewrite Hsplit, Hkci.
    destruct (Z.eqb_spec (cells !!! i).2 kc) as [Heq | Hne]; simpl negb; cbv iota.
    + destruct (IH (S i) j true keys1 kcs1) as (j' & keys' & kcs' & He & H1 & H2 & H3 & H4);
        [lia | lia | lia |].
      exists j', keys', kcs'. rewrite He, Hdr, H4, Htj, Hdr.
      repeat split; try lia.
      * f_equal. f_equal. f_equal. simpl.
        rewrite bool_decide_eq_true_2 by (by left).
        by rewrite orb_true_r.
      * rewrite filter_cons_False by (unfold other_keycode; intros ?; done).
        done.
    + destruct (IH (S i) (S j) found keys1 kcs1) as (j' & keys' & kcs' & He & H1 & H2 & H3 & H4);
        [lia | lia | lia |].
      exists j', keys', kcs'. rewrite He, Hdr, H4, Htk, Hdr.
      repeat split; try lia.
      * f_equal. f_equal. f_equal. f_equal.
        apply bool_decide_ext. rewrite Exists_cons. unfold from_keycode at 2.
        tauto.
      * rewrite filter_cons_True by done. by rewrite <- app_assoc.
Qed.

Lemma erase_clear_spec (np : nat) :
  ∀ (j : nat) (keys kcs : list Z),
    (j ≤ np)%nat →
    ∃ keys' kcs',
      erase_clear np j keys kcs = (j, keys', kcs') ∧
      length keys' = length keys ∧ length kcs' = length kcs ∧
      take j (zip keys' kcs') = take j (zip keys kcs).
Proof.
  induction np as [|m IH]; intros j keys kcs Hj.
  - assert (j = O) by lia. subst j. by exists keys, kcs.
  - simpl. destruct (Nat.ltb_spec j (S m)) as [Hlt | Hge].
    + destruct (IH j (<[m := 0]> keys) (<[m := 0]> kcs)) as (keys' & kcs' & He & H1 & H2 & H3);
        [lia|].
      exists keys', kcs'. rewrite He, H1, H2, H3, !length_insert.
      repeat split. rewrite zip_insert. apply take_insert_ge. lia.
    + assert (j = S m) by lia. subst j. by exists keys, kcs.
Qed.

(** What [state_erase_key] computes, read on the pressed entries. *)
Lemma state_erase_key_spec (st : sway_shortcut_state) (kc : Z) :
  length (pressed_keys st) = length (pressed_keycodes st) →
  (npressed st ≤ length (pressed_keys st))%nat →
  let r := state_erase_key st kc in
  r.1 = bool_decide (Exists (from_keycode kc) (pressed st)) ∧
  pressed r.2 = filter (other_keycode kc) (pressed st) ∧
  npressed r.2 = length (filter (other_keycode kc) (pressed st)) ∧
  length (pressed_keys r.2) = length (pressed_keys st) ∧
  length (pressed_keycodes r.2) = length (pressed_keycodes st) ∧
  current_key r.2 = 0 ∧
  last_keycode r.2 = last_keycode st ∧
  last_raw_modifiers r.2 = last_raw_modifiers st.
Proof.
  intros Hlen Hnp. unfold state_erase_key, pressed.
  destruct (erase_loop_spec kc (npressed st) 0 0 false (pressed_keys st)
              (pressed_keycodes st) Hlen) as (j & keys & kcs & He & H1 & H2 & H3 & H4);
    [lia | lia |].
  rewrite He.
  destruct (erase_clear_spec (npressed st) j keys kcs) as (keys' & kcs' & Hc & H5 & H6 & H7);
    [lia|].
  rewrite Hc. cbn [fst snd pressed_keys pressed_keycodes npressed current_key
                   last_keycode last_raw_modifiers].
  rewrite drop_0 in H4. simpl in H4.
  rewrite drop_0, orb_false_l, H7, H4.
  repeat split; try congruence.
  rewrite <- H4, length_take, length_zip_with. lia.
Qed.

(** ** [state_add_key] *)

Lemma add_find_spec (key_id : Z) (n : nat) :
  ∀ (i : nat) (keys : list Z),
    (i + n ≤ length keys)%nat →
    add_find n i keys key_id = (i + insert_pos key_id (take n (drop i keys)))%nat.
Proof.
  induction n as [|n IH]; intros i keys Hlen; simpl.
  - lia.
  - rewrite (drop_S_total keys i) by lia. simpl.
    destruct (keys !!! i <? key_id); [|lia].
    rewrite IH by lia. lia.
Qed.

Lemma insert_pos_le key_id ids : (insert_pos key_id ids ≤ length ids)%nat.
Proof. induction ids as [|x ids IH]; simpl; [lia|]. destruct (x <? key_id); lia. Qed.

Lemma insert_pos_before key_id ids x :
  x ∈ take (insert_pos key_id ids) ids → x < key_id.
Proof.
  induction ids as [|y ids IH]; simpl; [by intros ?%elem_of_nil|].
  destruct (Z.ltb_spec y key_id); simpl; [|by intros ?%elem_of_nil].
  intros [->|?]%elem_of_cons; auto.
Qed.

Lemma insert_pos_after key_id ids x :
  StronglySorted Z.le ids →
  x ∈ drop (insert_pos key_id ids) ids → key_id ≤ x.
Proof.
  induction 1 as [|y ids Hs IH Hall]; simpl; [by intros ?%elem_of_nil|].
  destruct (Z.ltb_spec y key_id); simpl; [done|].
  intros [->|Hin]%elem_of_cons; [done|].
  rewrite Forall_forall in Hall. specialize (Hall _ Hin). lia.
Qed.

Lemma shifted_step {A} `{!Inhabited A} (i j : nat) (cells : list A) :
  (i ≤ j)%nat → (S j < length cells)%nat →
  shifted i j (<[S j := cells !!! j]> cells) = shifted i (S j) cells.
Proof.
  intros Hij Hj. unfold shifted.
  rewrite take_insert_ge by lia.
  rewrite (drop_insert_ge _ i) by lia.
  rewrite take_insert_ge by lia.
  rewrite (drop_insert_ge _ (S j)) by lia.
  rewrite Nat.sub_diag, (drop_S_total cells (S j)) by lia. simpl.
  replace (S j - i)%nat with (S (j - i)) by lia.
  rewrite (take_S_total (drop i cells)) by (rewrite length_drop; lia).
  rewrite lookup_total_drop. replace (i + (j - i))%nat with j by lia.
  by rewrite <- !app_assoc.
Qed.

Lemma shifted_same {A} (i : nat) (cells : list A) : shifted i i cells = cells.
Proof.
  unfold shifted. rewrite Nat.sub_diag, take_0. simpl. apply take_drop.
Qed.

Lemma add_shift_spec (j : nat) :
  ∀ (i : nat) (keys kcs : list Z),
    length keys = length kcs → (i ≤ j)%nat → (j < length keys)%nat →
    ∃ keys' kcs',
      add_shift j i keys kcs = (keys', kcs') ∧
      length keys' = length keys ∧ length kcs' = length kcs ∧
      zip keys' kcs' = shifted i j (zip keys kcs).
Proof.
  induction j as [|j IH]; intros i keys kcs Hlen Hij Hj.
  - assert (i = O) by lia. subst i. exists keys, kcs.
    by rewrite shifted_same.
  - simpl. destruct (Nat.ltb_spec i (S j)) as [Hlt | Hge].
    + destruct (IH i (<[S j := keys !!! j]> keys) (<[S j := kcs !!! j]> kcs))
        as (keys' & kcs' & He & H1 & H2 & H3);
        [by rewrite !length_insert | lia | rewrite length_insert; lia |].
      exists keys', kcs'. rewrite He, H1, H2, H3, !length_insert.
      repeat split.
      rewrite zip_insert, <- zip_lookup_total by lia.
      apply shifted_step; [lia|]. rewrite length_zip_with. lia.
    + assert (i = S j) by lia. subst i. exists keys, kcs.
      by rewrite shifted_same.
Qed.

Lemma take_insert_shifted {A} `{!Inhabited A} (i n : nat) (x : A) (cells : list A) :
  (i ≤ n)%nat → (n < length cells)%nat →
  take (S n) (<[i := x]> (shifted i n cells))
  = take i (take n cells) ++ x :: drop i (take n cells).
Proof.
  intros Hin Hn. unfold shifted.
  rewrite (take_S_total cells i) by lia.
  rewrite <- app_assoc. simpl.
  rewrite insert_app_r_alt by (rewrite length_take; lia).
  rewrite length_take_le by lia. rewrite Nat.sub_diag. simpl.
  rewrite take_app_ge by (rewrite length_take; lia).
  rewrite length_take_le by lia.
  replace (S n - i)%nat with (S (n - i)) by lia. simpl.
  rewrite take_app_length' by (rewrite length_take, length_drop; lia).
  rewrite take_take. replace (i `min` n)%nat with i by lia.
  rewrite take_drop_commute. replace (i + (n - i))%nat with n by lia.
  done.
Qed.

(** What [state_add_key] computes below capacity, read on the pressed
    entries: the new entry is placed after the leading identifiers that
    are smaller. *)
Lemma state_add_key_spec (st : sway_shortcut_state) (kc key_id : Z) :
  length (pressed_keys st) = length (pressed_keycodes st) →
  (npressed st < length (pressed_keys st))%nat →
  (npressed st < SWAY_KEYBOARD_PRESSED_KEYS_CAP)%nat →
  let st' := state_add_key st kc key_id in
  let i := insert_pos key_id (pressed_ids st) in
  pressed st' = take i (pressed st) ++ (key_id, kc) :: drop i (pressed st) ∧
  npressed st' = S (npressed st) ∧
  length (pressed_keys st') = length (pressed_keys st) ∧
  length (pressed_keycodes st') = length (pressed_keycodes st) ∧
  current_key st' = key_id ∧
  last_keycode st' = last_keycode st ∧
  last_raw_modifiers st' = last_raw_modifiers st.
Proof.
  intros Hlen Hnp Hcap. unfold state_add_key.
  destruct (Nat.leb_spec SWAY_KEYBOARD_PRESSED_KEYS_CAP (npressed st)); [lia|].
  rewrite add_find_spec by lia. rewrite drop_0. simpl Nat.add.
  assert (Hids : pressed_ids st = take (npressed st) (pressed_keys st)).
  { unfold pressed_ids, pressed. rewrite fmap_take, fst_zip by lia. done. }
  rewrite <- Hids.
  pose proof (insert_pos_le key_id (pressed_ids st)) as Hle.
  assert (length (pressed_ids st) = npressed st) as Hl.
  { rewrite Hids, length_take. lia. }
  destruct (add_shift_spec (npressed st) (insert_pos key_id (pressed_ids st))
              (pressed_keys st) (pressed_keycodes st))
    as (keys' & kcs' & He & H1 & H2 & H3); [done | lia | lia |].
  rewrite He. unfold pressed at 1.
  cbn [pressed_keys pressed_keycodes npressed current_key last_keycode
       last_raw_modifiers].
  rewrite zip_insert, H3, !length_insert.
  rewrite take_insert_shifted by (rewrite ?length_zip_with; lia).
  repeat split; congruence.
Qed.

Lemma state_add_key_full (st : sway_shortcut_state) (kc key_id : Z) :
  (SWAY_KEYBOARD_PRESSED_KEYS_CAP ≤ npressed st)%nat →
  state_add_key st kc key_id = st.
Proof.
  intros H. unfold state_add_key.
  by destruct (Nat.leb_spec SWAY_KEYBOARD_PRESSED_KEYS_CAP (npressed st)); [|lia].
Qed.


(** ** Invariants of the tracker *)

Lemma pressed_length (st : sway_shortcut_state) :
  wf_state st → length (pressed st) = npressed st.
Proof.
  intros (H1 & H2 & H3). unfold pressed.
  rewrite length_take, length_zip_with. lia.
Qed.

Lemma wf_empty_state : wf_state empty_state.
Proof. unfold wf_state, empty_state. simpl. rewrite !length_replicate. lia. Qed.

Lemma wf_state_erase_key st kc : wf_state st → wf_state (state_erase_key st kc).2.
Proof.
  intros (H1 & H2 & H3).
  destruct (state_erase_key_spec st kc) as (_ & Hp & Hn & Hl1 & Hl2 & _);
    [lia | lia |].
  repeat split; [lia | lia |].
  rewrite Hn. etrans; [apply length_filter|].
  rewrite pressed_length by done. done.
Qed.

Lemma wf_state_add_key st kc key_id : wf_state st → wf_state (state_add_key st kc key_id).
Proof.
  intros Hwf. pose proof Hwf as (H1 & H2 & H3).
  destruct (Nat.le_gt_cases SWAY_KEYBOARD_PRESSED_KEYS_CAP (npressed st)).
  - by rewrite state_add_key_full.
  - destruct (state_add_key_spec st kc key_id) as (_ & Hn & Hl1 & Hl2 & _);
      [lia | lia | lia |].
    repeat split; lia.
Qed.

Lemma wf_update_modifier_step st m : wf_state st → wf_state (update_modifier_step st m).
Proof.
  intros Hwf. unfold update_modifier_step.
  destruct (_ && _); [apply wf_state_erase_key|]; done.
Qed.

Lemma wf_update_shortcut_state st ev k m :
  wf_state st → wf_state (update_shortcut_state st ev k m).2.
Proof.
  intros Hwf%(wf_update_modifier_step _ m). unfold update_shortcut_state.
  destruct (state ev).
  - by apply wf_state_erase_key.
  - by apply (wf_state_add_key _ (keycode ev) k) in Hwf.
Qed.

Lemma wf_apply_op st o : wf_state st → wf_state (apply_op st o).
Proof.
  destruct o; simpl; auto using wf_state_add_key, wf_state_erase_key,
    wf_update_shortcut_state.
Qed.

Lemma pressed_erase_key st kc :
  wf_state st → pressed (state_erase_key st kc).2 = filter (other_keycode kc) (pressed st).
Proof.
  intros (H1 & H2 & H3). apply state_erase_key_spec; lia.
Qed.

Lemma pressed_add_key st kc key_id :
  wf_state st → (npressed st < SWAY_KEYBOARD_PRESSED_KEYS_CAP)%nat →
  pressed (state_add_key st kc key_id)
  = take (insert_pos key_id (pressed_ids st)) (pressed st)
    ++ (key_id, kc) :: drop (insert_pos key_id (pressed_ids st)) (pressed st).
Proof.
  intros (H1 & H2 & H3) Hlt. apply state_add_key_spec; lia.
Qed.

Lemma pressed_ids_add_key st kc key_id :
  wf_state st → (npressed st < SWAY_KEYBOARD_PRESSED_KEYS_CAP)%nat →
  pressed_ids (state_add_key st kc key_id)
  = take (insert_pos key_id (pressed_ids st)) (pressed_ids st)
    ++ key_id :: drop (insert_pos key_id (pressed_ids st)) (pressed_ids st).
Proof.
  intros Hwf Hlt. unfold pressed_ids at 1. rewrite pressed_add_key by done.
  rewrite fmap_app, fmap_cons, fmap_take, fmap_drop. done.
Qed.

Lemma pressed_update_modifier_step st m :
  wf_state st →
  pressed (update_modifier_step st m)
  = if decide (m ≠ last_raw_modifiers st ∧ last_keycode st ≠ 0)
    then filter (other_keycode (last_keycode st)) (pressed st)
    else pressed st.
Proof.
  intros Hwf. unfold update_modifier_step.
  destruct (Z.eqb_spec m (last_raw_modifiers st)),
           (Z.eqb_spec (last_keycode (set_last_raw_modifiers st m)) 0);
    simpl in *; case_decide; try tauto.
  by rewrite pressed_erase_key.
Qed.

Lemma fmap_filter_sublist {A B} (f : A → B) (P : A → Prop)
    `{!∀ x, Decision (P x)} (l : list A) :
  f <$> filter P l `sublist_of` f <$> l.
Proof. apply fmap_sublist, sublist_filter. Qed.

Lemma StronglySorted_sublist {A} (R : relation A) (l k : list A) :
  l `sublist_of` k → StronglySorted R k → StronglySorted R l.
Proof.
  induction 1 as [|x l k Hs IH|x l k Hs IH]; intros Hk; [done| |].
  - apply StronglySorted_inv in Hk as [Hk Hall]. constructor; [auto|].
    rewrite Forall_forall in Hall |- *. intros y Hy. apply Hall.
    by eapply sublist_subseteq.
  - apply StronglySorted_inv in Hk as [Hk _]. auto.
Qed.

Lemma sorted_insert (key_id : Z) (ids : list Z) :
  StronglySorted Z.le ids →
  StronglySorted Z.le (take (insert_pos key_id ids) ids
                       ++ key_id :: drop (insert_pos key_id ids) ids).
Proof.
  intros Hs. apply StronglySorted_app. split_and!.
  - intros x1 x2 Hx1%insert_pos_before [->|Hx2]%elem_of_cons; [lia|].
    apply (insert_pos_after key_id ids x2 Hs) in Hx2. lia.
  - eapply StronglySorted_sublist; [apply sublist_take | done].
  - constructor.
    + eapply StronglySorted_sublist; [apply sublist_drop | done].
    + apply Forall_forall. intros x Hx. by eapply insert_pos_after.
Qed.

Lemma tracker_inv_erase st kc : tracker_inv st → tracker_inv (state_erase_key st kc).2.
Proof.
  intros [Hwf Hs]. split; [by apply wf_state_erase_key|].
  unfold pressed_ids. rewrite pressed_erase_key by done.
  eapply StronglySorted_sublist; [apply fmap_filter_sublist | done].
Qed.

Lemma tracker_inv_add st kc key_id : tracker_inv st → tracker_inv (state_add_key st kc key_id).
Proof.
  intros [Hwf Hs]. split; [by apply wf_state_add_key|].
  destruct (Nat.le_gt_cases SWAY_KEYBOARD_PRESSED_KEYS_CAP (npressed st)).
  - by rewrite state_add_key_full.
  - rewrite pressed_ids_add_key by done. by apply sorted_insert.
Qed.

Lemma tracker_inv_modifier_step st m : tracker_inv st → tracker_inv (update_modifier_step st m).
Proof.
  intros Hinv. unfold update_modifier_step.
  destruct (_ && _); [apply tracker_inv_erase|]; done.
Qed.

Lemma tracker_inv_update st ev k m :
  tracker_inv st → tracker_inv (update_shortcut_state st ev k m).2.
Proof.
  intros Hinv%(tracker_inv_modifier_step _ m). unfold update_shortcut_state.
  destruct (state ev).
  - by apply tracker_inv_erase.
  - by apply (tracker_inv_add _ (keycode ev) k) in Hinv.
Qed.

Lemma tracker_inv_apply_op st o : tracker_inv st → tracker_inv (apply_op st o).
Proof.
  destruct o; simpl; auto using tracker_inv_add, tracker_inv_erase,
    tracker_inv_update.
Qed.

Lemma tracker_inv_apply_ops ops : ∀ st, tracker_inv st → tracker_inv (apply_ops st ops).
Proof.
  induction ops as [|o ops IH]; intros st Hinv; [done|].
  apply IH, tracker_inv_apply_op, Hinv.
Qed.

Lemma tracker_inv_empty : tracker_inv empty_state.
Proof. split; [apply wf_empty_state | constructor]. Qed.


(** ** Duplicates *)

Lemma insert_permutation {A} (i : nat) (x : A) (l : list A) :
  take i l ++ x :: drop i l ≡ₚ x :: l.
Proof. rewrite <- Permutation_middle. by rewrite take_drop. Qed.

Lemma nodup_erase st kc :
  wf_state st → NoDup (pressed_ids st) → NoDup (pressed_ids (state_erase_key st kc).2).
Proof.
  intros Hwf Hnd. unfold pressed_ids. rewrite pressed_erase_key by done.
  eapply sublist_NoDup; [done | apply fmap_filter_sublist].
Qed.

Lemma nodup_add st kc key_id :
  wf_state st → NoDup (pressed_ids st) → key_id ∉ pressed_ids st →
  NoDup (pressed_ids (state_add_key st kc key_id)).
Proof.
  intros Hwf Hnd Hfresh.
  destruct (Nat.le_gt_cases SWAY_KEYBOARD_PRESSED_KEYS_CAP (npressed st)).
  - by rewrite state_add_key_full.
  - rewrite pressed_ids_add_key, insert_permutation by done.
    by apply NoDup_cons.
Qed.

Lemma nodup_modifier_step st m :
  wf_state st → NoDup (pressed_ids st) → NoDup (pressed_ids (update_modifier_step st m)).
Proof.
  intros Hwf Hnd. unfold update_modifier_step.
  destruct (_ && _); [apply nodup_erase|]; done.
Qed.

Lemma nodup_apply_op st o :
  wf_state st → NoDup (pressed_ids st) → op_fresh st o →
  NoDup (pressed_ids (apply_op st o)).
Proof.
  intros Hwf Hnd Hfresh. destruct o as [kc key_id | kc | ev k m]; simpl in *.
  - by apply nodup_add.
  - by apply nodup_erase.
  - unfold update_shortcut_state.
    pose proof (wf_update_modifier_step st m Hwf).
    pose proof (nodup_modifier_step st m Hwf Hnd).
    destruct (state ev); [by apply nodup_erase|].
    apply (nodup_add _ (keycode ev) k); auto.
Qed.

Lemma nodup_apply_ops ops :
  ∀ st, wf_state st → NoDup (pressed_ids st) → ops_fresh st ops →
        NoDup (pressed_ids (apply_ops st ops)).
Proof.
  induction ops as [|o ops IH]; intros st Hwf Hnd Hfresh; [done|].
  destruct Hfresh as [Ho Hrest]. simpl.
  apply IH; auto using wf_apply_op, nodup_apply_op.
Qed.

Lemma filter_shorter_exists {A} (P : A → Prop) `{!∀ x, Decision (P x)}
    (l : list A) :
  (length (filter P l) < length l)%nat → ∃ x, x ∈ l ∧ ¬ P x.
Proof.
  induction l as [|a l IH]; simpl; [lia|].
  rewrite filter_cons. destruct (decide (P a)); simpl; intros Hlt.
  - destruct IH as (x & ? & ?); [lia|]. exists x. split; [by right | done].
  - exists a. split; [by left | done].
Qed.

(** ** The tracker claims *)

Lemma state_erase_key_view (st : sway_shortcut_state) (kc : Z) :
  wf_state st →
  let r := state_erase_key st kc in
  pressed r.2 = filter (other_keycode kc) (pressed st) ∧
  (r.1 = true ↔ Exists (from_keycode kc) (pressed st)) ∧
  (r.1 = true ↔ (length (pressed r.2) < length (pressed st))%nat) ∧
  current_key r.2 = 0.
Proof.
  intros (H1 & H2 & H3).
  destruct (state_erase_key_spec st kc) as (Hf & Hp & _ & _ & _ & Hc & _);
    [lia | lia |].
  intros r. fold r in Hf, Hp, Hc. rewrite Hf, Hp, bool_decide_eq_true.
  split_and!; [done | done | | done].
  rewrite Exists_exists. split.
  - intros (p & Hin & Hp'). apply (length_filter_lt _ _ p); [done|].
    unfold other_keycode, from_keycode in *. tauto.
  - intros (p & Hin & Hp')%filter_shorter_exists. exists p. split; [done|].
    unfold other_keycode, from_keycode in *. by destruct (decide (p.2 = kc)).
Qed.

(** C8. [state_erase_key] keeps, in order, exactly the pressed entries
    whose origin keycode differs from the given one; it returns true
    exactly when some entry had that keycode, which is exactly when the
    pressed sequence became shorter; and it leaves [current_key] at 0
    whether or not anything was removed. *)
Theorem state_erase_key_exact (st : sway_shortcut_state) (kc : Z) :
  wf_state st →
  let r := state_erase_key st kc in
  pressed r.2 = filter (other_keycode kc) (pressed st) ∧
  (r.1 = true ↔ Exists (from_keycode kc) (pressed st)) ∧
  (r.1 = true ↔ (length (pressed r.2) < length (pressed st))%nat) ∧
  current_key r.2 = 0.
Proof. apply state_erase_key_view. Qed.

(** C2. Whatever add, erase and update operations are applied to an
    empty state, the pressed sequence is sorted ascending by identifier
    and holds at most [SWAY_KEYBOARD_PRESSED_KEYS_CAP] entries; an add
    that finds the state at capacity returns it unchanged. *)
Theorem tracker_sorted_bounded (ops : list tracker_op) :
  let st := apply_ops empty_state ops in
  sorted_by_id st ∧
  (length (pressed st) ≤ SWAY_KEYBOARD_PRESSED_KEYS_CAP)%nat ∧
  (npressed st ≤ SWAY_KEYBOARD_PRESSED_KEYS_CAP)%nat ∧
  ∀ kc key_id, npressed st = SWAY_KEYBOARD_PRESSED_KEYS_CAP →
               state_add_key st kc key_id = st.
Proof.
  intros st.
  destruct (tracker_inv_apply_ops ops empty_state tracker_inv_empty) as [Hwf Hs].
  fold st in Hwf, Hs. split_and!.
  - by apply StronglySorted_Sorted.
  - rewrite pressed_length by done. apply Hwf.
  - apply Hwf.
  - intros kc key_id Hfull. apply state_add_key_full. lia.
Qed.

(** C1, as the code has it. When no add (direct, or made by a press
    update) carries an identifier that is pressed at that moment, the
    pressed sequence never holds an identifier twice; [state_add_key]
    itself does not look for the identifier: below capacity it always
    inserts one more entry. *)
Theorem tracker_nodup_when_fresh (ops : list tracker_op) :
  ops_fresh empty_state ops →
  let st := apply_ops empty_state ops in
  NoDup (pressed_ids st) ∧
  ∀ kc key_id, (npressed st < SWAY_KEYBOARD_PRESSED_KEYS_CAP)%nat →
               pressed_ids (state_add_key st kc key_id) ≡ₚ key_id :: pressed_ids st.
Proof.
  intros Hfresh st. split.
  - apply nodup_apply_ops; [apply wf_empty_state | constructor | done].
  - intros kc key_id Hlt.
    destruct (tracker_inv_apply_ops ops empty_state tracker_inv_empty) as [Hwf _].
    rewrite pressed_ids_add_key by done. apply insert_permutation.
Qed.

Lemma update_shortcut_state_view (st : sway_shortcut_state)
    (ev : wlr_event_keyboard_key) (k m : Z) :
  wf_state st →
  let st1 := update_modifier_step st m in
  let r := update_shortcut_state st ev k m in
  last_raw_modifiers st1 = m ∧
  last_keycode st1 = last_keycode st ∧
  pressed st1
  = (if decide (m ≠ last_raw_modifiers st ∧ last_keycode st ≠ 0)
     then filter (other_keycode (last_keycode st)) (pressed st)
     else pressed st) ∧
  match state ev with
  | WLR_KEY_PRESSED =>
      r.1 = false ∧
      last_keycode r.2 = keycode ev ∧
      pressed r.2 = pressed (state_add_key st1 (keycode ev) k) ∧
      ((npressed st1 < SWAY_KEYBOARD_PRESSED_KEYS_CAP)%nat →
       pressed r.2
       = take (insert_pos k (pressed_ids st1)) (pressed st1)
         ++ (k, keycode ev) :: drop (insert_pos k (pressed_ids st1)) (pressed st1))
  | WLR_KEY_RELEASED =>
      (r.1 = true ↔ Exists (from_keycode (keycode ev)) (pressed st1)) ∧
      pressed r.2 = filter (other_keycode (keycode ev)) (pressed st1) ∧
      last_keycode r.2 = last_keycode st
  end.
Proof.
  intros Hwf st1 r.
  pose proof (wf_update_modifier_step st m Hwf) as Hwf1. fold st1 in Hwf1.
  assert (Hm : last_raw_modifiers st1 = m ∧ last_keycode st1 = last_keycode st).
  { unfold st1, update_modifier_step. destruct (_ && _); [|done].
    destruct Hwf as (H1 & H2 & H3).
    destruct (state_erase_key_spec (set_last_raw_modifiers st m)
                (last_keycode (set_last_raw_modifiers st m)))
      as (_ & _ & _ & _ & _ & _ & Hk & Hr); [simpl; lia | simpl; lia |].
    by rewrite Hk, Hr. }
  destruct Hm as [Hm1 Hm2].
  split_and!; [done | done | by apply pressed_update_modifier_step |].
  unfold r, update_shortcut_state. fold st1. destruct (state ev); simpl.
  - destruct (state_erase_key_view st1 (keycode ev) Hwf1) as (Hp & Hf & _ & _).
    split_and!; [done | done |].
    destruct Hwf1 as (H1 & H2 & H3).
    destruct (state_erase_key_spec st1 (keycode ev))
      as (_ & _ & _ & _ & _ & _ & Hk & _); [lia | lia |].
    by rewrite Hk.
  - split_and!; [done | done | done |].
    intros Hlt. by apply pressed_add_key.
Qed.

(** C7, as the code has it. [update_shortcut_state] first records the
    modifier mask and, when it differs from the recorded one while
    [last_keycode] is set, erases the entries of [last_keycode]. On the
    resulting state a press records the event's keycode as
    [last_keycode] and returns false; it adds the new identifier under
    the event's keycode only while the state holds fewer than
    [SWAY_KEYBOARD_PRESSED_KEYS_CAP] entries, and leaves the pressed
    entries as they are when it is full. A release erases the entries of
    the event's keycode and returns whether there was one. *)
Theorem update_shortcut_state_spec (st : sway_shortcut_state)
    (ev : wlr_event_keyboard_key) (k m : Z) :
  wf_state st →
  let st1 := update_modifier_step st m in
  let r := update_shortcut_state st ev k m in
  last_raw_modifiers st1 = m ∧
  last_keycode st1 = last_keycode st ∧
  pressed st1
  = (if decide (m ≠ last_raw_modifiers st ∧ last_keycode st ≠ 0)
     then filter (other_keycode (last_keycode st)) (pressed st)
     else pressed st) ∧
  match state ev with
  | WLR_KEY_PRESSED =>
      r.1 = false ∧
      last_keycode r.2 = keycode ev ∧
      pressed r.2 = pressed (state_add_key st1 (keycode ev) k) ∧
      ((npressed st1 < SWAY_KEYBOARD_PRESSED_KEYS_CAP)%nat →
       pressed r.2
       = take (insert_pos k (pressed_ids st1)) (pressed st1)
         ++ (k, keycode ev) :: drop (insert_pos k (pressed_ids st1)) (pressed st1)) ∧
      ((SWAY_KEYBOARD_PRESSED_KEYS_CAP ≤ npressed st1)%nat →
       pressed r.2 = pressed st1)
  | WLR_KEY_RELEASED =>
      (r.1 = true ↔ Exists (from_keycode (keycode ev)) (pressed st1)) ∧
      pressed r.2 = filter (other_keycode (keycode ev)) (pressed st1) ∧
      last_keycode r.2 = last_keycode st
  end.
Proof.
  intros Hwf st1 r.
  destruct (update_shortcut_state_view st ev k m Hwf) as (H1 & H2 & H3 & Hv).
  fold st1 r in H1, H2, H3, Hv.
  split_and!; [done | done | done |].
  destruct (state ev); [done|].
  destruct Hv as (Hr & Hk & Hp & Hins). split_and!; [done | done | done | done |].
  intros Hfull. by rewrite Hp, state_add_key_full.
Qed.

(** ** Binding resolver *)

Lemma pressed_ids_take (st : sway_shortcut_state) :
  wf_state st → pressed_ids st = take (npressed st) (pressed_keys st).
Proof.
  intros (H1 & H2 & H3). unfold pressed_ids, pressed.
  rewrite fmap_take, fst_zip by lia. done.
Qed.

Lemma keys_loop_spec (n : nat) :
  ∀ (j : nat) (bkeys pkeys : list Z),
    (j + n ≤ length bkeys)%nat → (j + n ≤ length pkeys)%nat →
    keys_loop n j bkeys pkeys = true
    ↔ take n (drop j bkeys) = take n (drop j pkeys).
Proof.
  induction n as [|n IH]; intros j bkeys pkeys Hb Hp; simpl keys_loop.
  - by rewrite !take_0.
  - rewrite (drop_S_total bkeys j), (drop_S_total pkeys j) by lia. simpl.
    destruct (Z.eqb_spec (bkeys !!! j) (pkeys !!! j)) as [Heq | Hne]; simpl.
    + rewrite IH by lia. rewrite Heq. split; [by intros -> | by intros [=]].
    + split; [done | by intros [=]].
Qed.

Lemma exact_match_ids (st : sway_shortcut_state) (b : sway_binding) :
  wf_state st → exact_match st b ↔ pressed_ids st = keys b.
Proof.
  intros Hwf. pose proof (pressed_length st Hwf) as Hl.
  assert (length (pressed_ids st) = npressed st) as Hli.
  { unfold pressed_ids. by rewrite length_fmap. }
  unfold exact_match. split.
  - intros [Hn Hj]. apply list_eq. intros j.
    destruct (Nat.lt_ge_cases j (npressed st)); [by rewrite Hj|].
    rewrite !lookup_ge_None_2 by lia. done.
  - intros Heq. rewrite <- Heq. split; [lia | done].
Qed.

(** The code's matching block, read as a proposition. *)
Lemma binding_match_code (st : sway_shortcut_state) (b : sway_binding) :
  wf_state st →
  binding_match st b = true
  ↔ exact_match st b ∨ (npressed st ≠ length (keys b) ∧ single_match st b).
Proof.
  clear command_effect.
  intros Hwf. rewrite exact_match_ids by done. unfold binding_match.
  pose proof Hwf as (H1 & H2 & H3).
  destruct (Nat.eqb_spec (npressed st) (length (keys b))) as [Hn | Hn].
  - rewrite keys_loop_spec by lia. rewrite !drop_0.
    rewrite <- pressed_ids_take by done.
    rewrite (take_ge (keys b)) by lia. intuition congruence.
  - assert (pressed_ids st ≠ keys b).
    { intros Heq. apply Hn. rewrite <- Heq. unfold pressed_ids.
      by rewrite length_fmap, pressed_length. }
    unfold single_match.
    destruct (Nat.eqb_spec (length (keys b)) 1) as [H1k | H1k].
    + destruct (keys b) as [|k [|]] eqn:Hk; try done. simpl.
      rewrite Z.eqb_eq. intuition congruence.
    + intuition congruence.
Qed.


Lemma current_key_inv_erase st kc : current_key_inv (state_erase_key st kc).2.
Proof.
  left. unfold state_erase_key.
  destruct (erase_loop _ _ _ _ _ _ _) as [[[j f] ks] kcs].
  by destruct (erase_clear _ _ _ _) as [[np ks'] kcs'].
Qed.

Lemma current_key_inv_add st kc key_id :
  wf_state st → current_key_inv st → current_key_inv (state_add_key st kc key_id).
Proof.
  intros Hwf Hinv.
  destruct (Nat.le_gt_cases SWAY_KEYBOARD_PRESSED_KEYS_CAP (npressed st)).
  - by rewrite state_add_key_full.
  - right. pose proof Hwf as (H1 & H2 & H3).
    destruct (state_add_key_spec st kc key_id) as (_ & _ & _ & _ & Hc & _);
      [lia | lia | lia |].
    rewrite Hc, pressed_ids_add_key by done.
    apply elem_of_app. right. by left.
Qed.

Lemma current_key_inv_apply_op st o :
  wf_state st → current_key_inv st → current_key_inv (apply_op st o).
Proof.
  intros Hwf Hinv. destruct o as [kc key_id | kc | ev k m]; simpl.
  - by apply current_key_inv_add.
  - apply current_key_inv_erase.
  - unfold update_shortcut_state.
    assert (current_key_inv (update_modifier_step st m)) as Hinv1.
    { unfold update_modifier_step.
      destruct (_ && _); [apply current_key_inv_erase | done]. }
    pose proof (wf_update_modifier_step st m Hwf).
    destruct (state ev); [apply current_key_inv_erase|].
    by apply (current_key_inv_add _ (keycode ev) k) in Hinv1.
Qed.

Lemma current_key_inv_apply_ops ops :
  ∀ st, wf_state st → current_key_inv st → current_key_inv (apply_ops st ops).
Proof.
  induction ops as [|o ops IH]; intros st Hwf Hinv; [done|].
  apply IH; auto using wf_apply_op, current_key_inv_apply_op.
Qed.

(** On the states the tracker can reach, and for a binding whose single
    key is not 0, the size test in front of the single-key rule makes no
    difference. *)
Lemma binding_match_reachable (ops : list tracker_op) (b : sway_binding) :
  let st := apply_ops empty_state ops in
  keys b ≠ [0] →
  binding_match st b = true ↔ exact_match st b ∨ single_match st b.
Proof.
  clear command_effect. intros st Hnz.
  destruct (tracker_inv_apply_ops ops empty_state tracker_inv_empty) as [Hwf _].
  assert (current_key_inv st) as Hck.
  { apply current_key_inv_apply_ops; [apply wf_empty_state | by left]. }
  fold st in Hwf. rewrite binding_match_code by done.
  split; [tauto|]. intros [He | Hs]; [by left|].
  destruct (decide (npressed st = length (keys b))) as [Hn | Hn]; [|by right].
  left. apply exact_match_ids; [done|].
  destruct Hs as [Hl H0].
  destruct (keys b) as [|k [|]] eqn:Hk; try done. simpl in H0, Hn.
  injection H0 as ->.
  assert (length (pressed_ids st) = 1%nat) as Hl1.
  { unfold pressed_ids. rewrite length_fmap, pressed_length by done. done. }
  destruct (pressed_ids st) as [|x [|]] eqn:Hids; try done.
  destruct Hck as [Hz | Hin]; [congruence|].
  rewrite Hids in Hin. apply list_elem_of_singleton in Hin. by rewrite Hin.
Qed.

(** Scanning a table that holds one binding returns it exactly when it
    is eligible and matches. *)
Lemma get_active_binding_single st b mods release locked inp exact_input grp :
  get_active_binding st [b] None mods release locked inp exact_input grp = Some b
  ↔ binding_filtered_out b mods release locked inp exact_input grp = false
    ∧ binding_match st b = true.
Proof.
  simpl. destruct (binding_filtered_out _ _ _ _ _ _ _); [by split; [|intros []]|].
  destruct (binding_match st b); simpl; [|by split; [|intros []]].
  by destruct (perfect_match _ _ _ _).
Qed.

(** C3, as the code has it. A binding matches a state exactly when
    (a) the number of pressed entries equals the number of required keys
    and every required key equals the pressed identifier at the same
    position, or (b) the two numbers differ, the binding requires
    exactly one key and that key equals [current_key]. For an eligible
    binding this is exactly when a scan of the table holding it alone
    returns it. *)
Theorem binding_match_iff (st : sway_shortcut_state) (b : sway_binding) :
  wf_state st →
  (binding_match st b = true
   ↔ exact_match st b ∨ (npressed st ≠ length (keys b) ∧ single_match st b)) ∧
  ∀ mods release locked inp exact_input grp,
    binding_filtered_out b mods release locked inp exact_input grp = false →
    get_active_binding st [b] None mods release locked inp exact_input grp = Some b
    ↔ binding_match st b = true.
Proof.
  intros Hwf. split; [by apply binding_match_code|].
  intros mods release locked inp exact_input grp Hel.
  rewrite get_active_binding_single, Hel. split; [by intros [_ ?] | done].
Qed.


(** ** Reasoning about computations *)

Lemma run_bind {A B} (m : M A) (f : A → M B) (kb : sway_keyboard) :
  bind m f kb
  = (value (f (value m kb)) (final_state m kb),
     final_state (f (value m kb)) (final_state m kb),
     calls m kb ++ calls (f (value m kb)) (final_state m kb)).
Proof.
  unfold bind, value, final_state, calls.
  destruct (m kb) as [[a kb1] t1]. simpl. by destruct (f a kb1) as [[b kb2] t2].
Qed.

Lemma final_state_bind {A B} (m : M A) (f : A → M B) kb :
  final_state (bind m f) kb = final_state (f (value m kb)) (final_state m kb).
Proof. unfold final_state at 1. by rewrite run_bind. Qed.

Lemma calls_bind {A B} (m : M A) (f : A → M B) kb :
  calls (bind m f) kb = calls m kb ++ calls (f (value m kb)) (final_state m kb).
Proof. unfold calls at 1. by rewrite run_bind. Qed.

Lemma value_bind {A B} (m : M A) (f : A → M B) kb :
  value (bind m f) kb = value (f (value m kb)) (final_state m kb).
Proof. unfold value at 1. by rewrite run_bind. Qed.

Lemma preserves_bind {A B C} (g : sway_keyboard → C) (m : M A) (f : A → M B) :
  preserves g m → (∀ a, preserves g (f a)) → preserves g (bind m f).
Proof.
  intros Hm Hf kb. rewrite final_state_bind. by rewrite Hf, Hm.
Qed.

Lemma preserves_ret {A C} (g : sway_keyboard → C) (a : A) : preserves g (ret a).
Proof. done. Qed.

Lemma preserves_emit {C} (g : sway_keyboard → C) (a : action) : preserves g (emit a).
Proof. done. Qed.

Lemma preserves_gets {A C} (g : sway_keyboard → C) (f : sway_keyboard → A) :
  preserves g (gets f).
Proof. done. Qed.

Lemma preserves_modify {C} (g : sway_keyboard → C) (f : sway_keyboard → sway_keyboard) :
  (∀ kb, g (f kb) = g kb) → preserves g (modify f).
Proof. intros H kb. apply H. Qed.

Lemma preserves_when {C} (g : sway_keyboard → C) (c : bool) (m : M unit) :
  preserves g m → preserves g (when c m).
Proof. destruct c; [done | intros; apply preserves_ret]. Qed.

Lemma calls_only_bind {A B} (P : action → Prop) (m : M A) (f : A → M B) :
  calls_only P m → (∀ a, calls_only P (f a)) → calls_only P (bind m f).
Proof.
  intros Hm Hf kb. rewrite calls_bind. apply Forall_app. split; [apply Hm | apply Hf].
Qed.

Lemma calls_only_ret {A} (P : action → Prop) (a : A) : calls_only P (ret a).
Proof. intros kb. constructor. Qed.

Lemma calls_only_gets {A} (P : action → Prop) (f : sway_keyboard → A) :
  calls_only P (gets f).
Proof. intros kb. constructor. Qed.

Lemma calls_only_modify (P : action → Prop) (f : sway_keyboard → sway_keyboard) :
  calls_only P (modify f).
Proof. intros kb. constructor. Qed.

Lemma calls_only_emit (P : action → Prop) (a : action) : P a → calls_only P (emit a).
Proof. intros H kb. by repeat constructor. Qed.

Lemma calls_only_when (P : action → Prop) (c : bool) (m : M unit) :
  calls_only P m → calls_only P (when c m).
Proof. destruct c; [done | intros; apply calls_only_ret]. Qed.

Lemma preserves_timer_update {C} (g : sway_keyboard → C) (ms : Z) :
  (∀ ms kb, g (set_key_repeat_source ms kb) = g kb) →
  preserves g (wl_event_source_timer_update ms).
Proof.
  intros H. unfold wl_event_source_timer_update.
  apply preserves_bind; [apply preserves_emit|]. intros _. by apply preserves_modify.
Qed.

Lemma preserves_disarm {C} (g : sway_keyboard → C) :
  (∀ ms kb, g (set_key_repeat_source ms kb) = g kb) →
  (∀ b kb, g (set_repeat_binding b kb) = g kb) →
  preserves g sway_keyboard_disarm_key_repeat.
Proof.
  intros H1 H2. unfold sway_keyboard_disarm_key_repeat.
  apply preserves_bind; [by apply preserves_modify|].
  intros _. by apply preserves_timer_update.
Qed.

Lemma preserves_compositor_binding {C} (g : sway_keyboard → C) ctx syms :
  preserves g (keyboard_execute_compositor_binding ctx syms).
Proof.
  induction syms as [|k syms IH]; simpl; [apply preserves_ret|].
  destruct (_ && _); [|done].
  apply preserves_bind; [apply preserves_when, preserves_emit|].
  intros _. apply preserves_ret.
Qed.

Lemma calls_only_compositor_binding (P : action → Prop) ctx syms :
  (∀ vt, P (ChangeVT vt)) →
  calls_only P (keyboard_execute_compositor_binding ctx syms).
Proof.
  intros HP. induction syms as [|k syms IH]; simpl; [apply calls_only_ret|].
  destruct (_ && _); [|done].
  apply calls_only_bind; [by apply calls_only_when, calls_only_emit|].
  intros _. apply calls_only_ret.
Qed.


(** ** The binding phase of the dispatcher *)

(** [execute_bindings] written out: the states it passes through and
    the calls it makes. *)
Lemma execute_bindings_run ctx ev kb :
  let kb1 := update_model_state ctx ev kb in
  let cand := active_binding ctx kb1 true in
  let held := held_to_run cand ev kb1 in
  let kb2 := store_held_binding cand ev (exec_effect held kb1) in
  let binding := if is_pressed ev then active_binding ctx kb2 false else None in
  let kb3 := final_state (setup_key_repeat ctx binding) kb2 in
  execute_bindings ctx ev kb
  = (non_null held || non_null binding,
     exec_effect binding kb3,
     IdleNotify :: exec_calls held
       ++ calls (setup_key_repeat ctx binding) kb2 ++ exec_calls binding).
Proof.
  intros kb1 cand held kb2 binding kb3.
  cbv beta iota zeta delta [execute_bindings bind emit modify gets ret
                            seat_execute_command].
  fold kb1. fold cand. fold held.
  assert (Hsetup : setup_key_repeat ctx binding kb2
                   = (tt, kb3, calls (setup_key_repeat ctx binding) kb2)).
  { unfold kb3, final_state, calls.
    by destruct (setup_key_repeat ctx binding kb2) as [[[] k3] t3]. }
  destruct held as [h|]; cbn [exec_effect exec_calls non_null] in *;
    cbv beta iota zeta; fold kb2; fold binding; rewrite Hsetup;
    destruct binding as [b|]; cbn [exec_effect exec_calls non_null orb app];
    rewrite ?app_nil_r; reflexivity.
Qed.

Lemma preserves_compositor_bindings {C} (g : sway_keyboard → C) ctx ev handled :
  preserves g (compositor_bindings ctx ev handled).
Proof.
  unfold compositor_bindings. apply preserves_bind.
  - destruct (_ && _); [apply preserves_compositor_binding | apply preserves_ret].
  - intros h. destruct (_ && _); [apply preserves_compositor_binding | apply preserves_ret].
Qed.

Lemma calls_only_compositor_bindings (P : action → Prop) ctx ev handled :
  (∀ vt, P (ChangeVT vt)) → calls_only P (compositor_bindings ctx ev handled).
Proof.
  intros HP. unfold compositor_bindings. apply calls_only_bind.
  - destruct (_ && _); [by apply calls_only_compositor_binding | apply calls_only_ret].
  - intros h. destruct (_ && _); [by apply calls_only_compositor_binding | apply calls_only_ret].
Qed.

(** A handled event stays handled through the compositor bindings, and
    a release is never handled by them. *)
Lemma compositor_bindings_value ctx ev handled kb :
  (handled = true → value (compositor_bindings ctx ev handled) kb = true) ∧
  (is_pressed ev = false → value (compositor_bindings ctx ev handled) kb = handled).
Proof.
  unfold compositor_bindings. rewrite value_bind. split.
  - intros ->. done.
  - intros ->. by rewrite !andb_false_r.
Qed.

Lemma forward_to_client_run ev handled kb :
  forward_to_client ev handled kb
  = if negb handled || is_released ev
    then let r := update_shortcut_state (state_pressed_sent kb) ev (xkb_keycode_of ev) 0 in
         (tt, set_state_pressed_sent r.2 kb,
          if r.1 || is_pressed ev
          then [SetKeyboard; NotifyKey (time_msec ev) (keycode ev) (state ev)]
          else [])
    else (tt, kb, []).
Proof.
  unfold forward_to_client. destruct (_ || _); [|done]. simpl.
  cbv beta iota zeta delta [bind]. cbn [fst snd].
  by destruct (_ || _).
Qed.

(** [handle_key_event] after the binding phase. *)
Lemma handle_key_event_run ctx ev kb :
  let handled := value (execute_bindings ctx ev) kb in
  let kb1 := final_state (execute_bindings ctx ev) kb in
  let tr1 := calls (execute_bindings ctx ev) kb in
  handle_key_event ctx ev kb
  = if negb handled && keyboard_group ctx then (tt, kb1, tr1)
    else
      let handled' := value (compositor_bindings ctx ev handled) kb1 in
      (tt, final_state (forward_to_client ev handled') kb1,
       tr1 ++ calls (compositor_bindings ctx ev handled) kb1
           ++ calls (forward_to_client ev handled') kb1 ++ [CommitDirty]).
Proof.
  intros handled kb1 tr1. unfold handle_key_event. rewrite run_bind.
  fold handled. fold kb1. fold tr1.
  destruct (negb handled && keyboard_group ctx).
  - cbn. by rewrite app_nil_r.
  - pose proof (preserves_compositor_bindings id ctx ev handled kb1) as Hc.
    unfold id in Hc. cbv beta iota.
    f_equal; [f_equal|].
    + by destruct (value (bind _ _) kb1).
    + rewrite !final_state_bind, Hc. done.
    + rewrite !calls_bind, Hc. done.
Qed.

Lemma filter_none {A} (Q : A → Prop) `{!∀ x, Decision (Q x)} (l : list A) :
  Forall (λ a, ¬ Q a) l → filter Q l = [].
Proof.
  induction 1 as [|a l Ha Hl IH]; [done|]. by rewrite filter_cons_False.
Qed.

Lemma calls_only_timer_update ms : calls_only is_timer_update (wl_event_source_timer_update ms).
Proof.
  unfold wl_event_source_timer_update.
  apply calls_only_bind; [by apply calls_only_emit|]. intros _. apply calls_only_modify.
Qed.

Lemma calls_only_disarm : calls_only is_timer_update sway_keyboard_disarm_key_repeat.
Proof.
  unfold sway_keyboard_disarm_key_repeat.
  apply calls_only_bind; [apply calls_only_modify|]. intros _. apply calls_only_timer_update.
Qed.

Lemma calls_only_setup_key_repeat ctx b : calls_only is_timer_update (setup_key_repeat ctx b).
Proof.
  unfold setup_key_repeat. destruct (_ && _).
  - apply calls_only_bind; [apply calls_only_modify|]. intros _. apply calls_only_timer_update.
  - apply calls_only_bind; [apply calls_only_gets|].
    intros rb. apply calls_only_when, calls_only_disarm.
Qed.

Lemma preserves_setup_key_repeat {C} (g : sway_keyboard → C) ctx b :
  (∀ ms kb, g (set_key_repeat_source ms kb) = g kb) →
  (∀ b kb, g (set_repeat_binding b kb) = g kb) →
  preserves g (setup_key_repeat ctx b).
Proof.
  intros H1 H2. unfold setup_key_repeat. destruct (_ && _).
  - apply preserves_bind; [by apply preserves_modify|].
    intros _. by apply preserves_timer_update.
  - apply preserves_bind; [apply preserves_gets|].
    intros rb. by apply preserves_when, preserves_disarm.
Qed.

Lemma filter_execute_setup ctx b kb :
  filter is_execute (calls (setup_key_repeat ctx b) kb) = [].
Proof.
  apply filter_none. eapply Forall_impl; [apply calls_only_setup_key_repeat|].
  intros a Ha He. by destruct a.
Qed.

Lemma filter_execute_compositor ctx ev handled kb :
  filter is_execute (calls (compositor_bindings ctx ev handled) kb) = [].
Proof.
  apply filter_none.
  eapply Forall_impl; [apply (calls_only_compositor_bindings is_change_vt); done|].
  intros a Ha He. by destruct a.
Qed.

Lemma filter_execute_forward ev handled kb :
  filter is_execute (calls (forward_to_client ev handled) kb) = [].
Proof.
  unfold calls. rewrite forward_to_client_run.
  destruct (_ || _); [|done]. cbn [snd]. by destruct (_ || _).
Qed.

Lemma filter_execute_exec_calls b : filter is_execute (exec_calls b) = exec_calls b.
Proof. by destruct b. Qed.

Lemma held_binding_exec_effect b kb :
  (∀ b k, held_binding (command_effect b k) = held_binding k) →
  held_binding (exec_effect b kb) = held_binding kb.
Proof. intros H. destruct b; [apply H | done]. Qed.

Lemma execute_bindings_calls ctx ev kb :
  let kb1 := update_model_state ctx ev kb in
  let cand := active_binding ctx kb1 true in
  let held := held_to_run cand ev kb1 in
  let kb2 := store_held_binding cand ev (exec_effect held kb1) in
  let binding := if is_pressed ev then active_binding ctx kb2 false else None in
  calls (execute_bindings ctx ev) kb
  = IdleNotify :: exec_calls held
      ++ calls (setup_key_repeat ctx binding) kb2 ++ exec_calls binding.
Proof. intros. unfold calls at 1. by rewrite execute_bindings_run. Qed.

Lemma execute_bindings_value ctx ev kb :
  let kb1 := update_model_state ctx ev kb in
  let cand := active_binding ctx kb1 true in
  let held := held_to_run cand ev kb1 in
  let kb2 := store_held_binding cand ev (exec_effect held kb1) in
  let binding := if is_pressed ev then active_binding ctx kb2 false else None in
  value (execute_bindings ctx ev) kb = non_null held || non_null binding.
Proof. intros. unfold value. by rewrite execute_bindings_run. Qed.

Lemma execute_bindings_final_state ctx ev kb :
  let kb1 := update_model_state ctx ev kb in
  let cand := active_binding ctx kb1 true in
  let held := held_to_run cand ev kb1 in
  let kb2 := store_held_binding cand ev (exec_effect held kb1) in
  let binding := if is_pressed ev then active_binding ctx kb2 false else None in
  final_state (execute_bindings ctx ev) kb
  = exec_effect binding (final_state (setup_key_repeat ctx binding) kb2).
Proof. intros. unfold final_state at 1. by rewrite execute_bindings_run. Qed.

Lemma handle_key_event_calls ctx ev kb :
  let handled := value (execute_bindings ctx ev) kb in
  let kb1 := final_state (execute_bindings ctx ev) kb in
  let tr1 := calls (execute_bindings ctx ev) kb in
  calls (handle_key_event ctx ev) kb
  = if negb handled && keyboard_group ctx then tr1
    else tr1 ++ calls (compositor_bindings ctx ev handled) kb1
             ++ calls (forward_to_client ev
                         (value (compositor_bindings ctx ev handled) kb1)) kb1
             ++ [CommitDirty].
Proof.
  intros. unfold calls at 1. rewrite handle_key_event_run.
  fold handled kb1 tr1. by destruct (_ && _).
Qed.

Lemma handle_key_event_final_state ctx ev kb :
  let handled := value (execute_bindings ctx ev) kb in
  let kb1 := final_state (execute_bindings ctx ev) kb in
  final_state (handle_key_event ctx ev) kb
  = if negb handled && keyboard_group ctx then kb1
    else final_state (forward_to_client ev
                        (value (compositor_bindings ctx ev handled) kb1)) kb1.
Proof.
  intros. unfold final_state at 1. rewrite handle_key_event_run.
  fold handled kb1. by destruct (_ && _).
Qed.

Lemma filter_execute_bindings ctx ev kb :
  let kb1 := update_model_state ctx ev kb in
  let cand := active_binding ctx kb1 true in
  let held := held_to_run cand ev kb1 in
  let kb2 := store_held_binding cand ev (exec_effect held kb1) in
  let binding := if is_pressed ev then active_binding ctx kb2 false else None in
  filter is_execute (calls (execute_bindings ctx ev) kb)
  = exec_calls held ++ exec_calls binding.
Proof.
  intros. rewrite execute_bindings_calls.
  rewrite filter_cons_False by (by intros []).
  by rewrite !filter_app, filter_execute_setup, !filter_execute_exec_calls.
Qed.

(** The bindings run by one event: the stored release binding, then the
    pressed binding. *)
Lemma executed_by_event ctx ev kb :
  let kb1 := update_model_state ctx ev kb in
  let cand := active_binding ctx kb1 true in
  let held := held_to_run cand ev kb1 in
  let kb2 := store_held_binding cand ev (exec_effect held kb1) in
  let binding := if is_pressed ev then active_binding ctx kb2 false else None in
  filter is_execute (calls (handle_key_event ctx ev) kb)
  = exec_calls held ++ exec_calls binding.
Proof.
  intros. rewrite handle_key_event_calls.
  destruct (_ && _); [apply filter_execute_bindings|].
  rewrite !filter_app, filter_execute_bindings, filter_execute_compositor,
    filter_execute_forward.
  cbn. by rewrite !app_nil_r.
Qed.

(** C10. After a key event the held binding is the release candidate
    when the event is a press and a candidate was found; otherwise it is
    cleared when the candidate differs from it and kept when the
    candidate is the held binding. On a release the only binding run is
    the previously held one, and it is run exactly when the candidate
    differs from it; on a press the only binding run is the pressed
    binding. The held binding that is run is run on the keyboard that
    still holds it; the reference is cleared afterwards. *)
Theorem held_binding_after_event ctx ev kb :
  (∀ b k, held_binding (command_effect b k) = held_binding k) →
  let kb1 := update_model_state ctx ev kb in
  let cand := active_binding ctx kb1 true in
  let kb' := final_state (handle_key_event ctx ev) kb in
  let tr := calls (handle_key_event ctx ev) kb in
  held_binding kb'
  = (if non_null cand && is_pressed ev then cand
     else if ptr_eq cand (held_binding kb) then held_binding kb else None) ∧
  (is_released ev = true →
   filter is_execute tr
   = match held_binding kb with
     | Some h => if ptr_eq cand (Some h) then [] else [Execute h]
     | None => []
     end) ∧
  (is_pressed ev = true →
   filter is_execute tr
   = exec_calls (active_binding ctx (store_held_binding cand ev kb1) false)) ∧
  (∀ h, is_released ev = true → held_binding kb = Some h →
        ptr_eq cand (Some h) = false →
        held_binding kb1 = Some h ∧
        final_state (execute_bindings ctx ev) kb
        = final_state (setup_key_repeat ctx None)
            (store_held_binding cand ev (command_effect h kb1))).
Proof.
  intros Hframe kb1 cand kb' tr.
  assert (Hheld1 : held_binding kb1 = held_binding kb) by done.
  split_and!.
  - unfold kb'. rewrite handle_key_event_final_state, execute_bindings_final_state.
    fold kb1 cand.
    set (held := held_to_run cand ev kb1).
    set (kb2 := store_held_binding cand ev (exec_effect held kb1)).
    set (binding := if is_pressed ev then active_binding ctx kb2 false else None).
    assert (Hk2 : held_binding kb2
                  = (if non_null cand && is_pressed ev then cand
                     else if ptr_eq cand (held_binding kb) then held_binding kb
                          else None)).
    { unfold kb2, store_held_binding.
      rewrite held_binding_exec_effect, Hheld1 by done.
      destruct (non_null cand && is_pressed ev), (ptr_eq cand (held_binding kb));
        cbn; by rewrite ?held_binding_exec_effect, ?Hheld1. }
    assert (Hk3 : held_binding (exec_effect binding
                    (final_state (setup_key_repeat ctx binding) kb2))
                  = held_binding kb2).
    { rewrite held_binding_exec_effect by done.
      by apply (preserves_setup_key_repeat held_binding ctx binding). }
    destruct (_ && keyboard_group ctx); [by rewrite Hk3|].
    unfold final_state at 1. rewrite forward_to_client_run.
    destruct (_ || is_released ev); cbv zeta;
      cbn [fst snd held_binding set_state_pressed_sent]; by rewrite Hk3.
  - intros Hrel. unfold tr. rewrite executed_by_event. fold kb1 cand.
    assert (is_pressed ev = false) as -> by (unfold is_pressed, is_released in *; by destruct (state ev)).
    rewrite app_nil_r. unfold held_to_run. rewrite Hheld1, Hrel, andb_true_r.
    destruct (held_binding kb) as [h|]; [|done]. by destruct (ptr_eq cand (Some h)).
  - intros Hpr. unfold tr. rewrite executed_by_event. fold kb1 cand. rewrite Hpr.
    assert (held_to_run cand ev kb1 = None) as ->.
    { unfold held_to_run.
      assert (is_released ev = false) as -> by (unfold is_pressed, is_released in *; by destruct (state ev)).
      rewrite andb_false_r. by destruct (held_binding kb1). }
    done.
  - intros h Hrel Hh Hne. split; [by rewrite Hheld1|].
    rewrite execute_bindings_final_state. fold kb1 cand.
    assert (is_pressed ev = false) as ->
      by (unfold is_pressed, is_released in *; by destruct (state ev)).
    unfold held_to_run. by rewrite Hheld1, Hh, Hne, Hrel.
Qed.

(** ** Keyboards in a group *)

Lemma execute_bindings_unhandled ctx ev kb :
  value (execute_bindings ctx ev) kb = false
  ↔ filter is_execute (calls (execute_bindings ctx ev) kb) = [].
Proof.
  rewrite execute_bindings_value, filter_execute_bindings.
  destruct (held_to_run _ _ _), (if is_pressed ev then _ else _); cbn; split; done.
Qed.

Lemma state_pressed_sent_store cand ev kb :
  state_pressed_sent (store_held_binding cand ev kb) = state_pressed_sent kb.
Proof.
  unfold store_held_binding. by destruct (negb _), (_ && _).
Qed.

(** C5, as the code has it. When a key event arrives on a keyboard that
    belongs to a group and the binding phase ran no binding, processing
    ends with the binding phase: the compositor bindings are not tried,
    the event is not passed on to the client, [state_pressed_sent] is
    not touched and nothing is committed. *)
Theorem grouped_unhandled_event_stops ctx ev kb :
  keyboard_group ctx = true →
  filter is_execute (calls (execute_bindings ctx ev) kb) = [] →
  let tr := calls (handle_key_event ctx ev) kb in
  let kb' := final_state (handle_key_event ctx ev) kb in
  tr = calls (execute_bindings ctx ev) kb ∧
  Forall (λ a, a = IdleNotify ∨ is_timer_update a) tr ∧
  (∀ vt, ChangeVT vt ∉ tr) ∧
  (∀ t kc s, NotifyKey t kc s ∉ tr) ∧
  (CommitDirty ∉ tr) ∧
  state_pressed_sent kb' = state_pressed_sent kb.
Proof.
  intros Hgrp Hnone tr kb'.
  pose proof Hnone as Hval. rewrite <- execute_bindings_unhandled in Hval.
  assert (Htr : tr = calls (execute_bindings ctx ev) kb).
  { unfold tr. by rewrite handle_key_event_calls, Hval, Hgrp. }
  assert (Hq : Forall (λ a, a = IdleNotify ∨ is_timer_update a) tr).
  { rewrite Htr. rewrite execute_bindings_value in Hval.
    apply orb_false_iff in Hval as [Hh Hb].
    rewrite execute_bindings_calls.
    destruct (held_to_run _ _ _); [done|].
    destruct (if is_pressed ev then _ else _); [done|].
    cbn [exec_calls app]. rewrite app_nil_r. constructor; [by left|].
    eapply Forall_impl; [apply calls_only_setup_key_repeat|]. by right. }
  split_and!; try done.
  - intros vt Hin. rewrite Forall_forall in Hq. by destruct (Hq _ Hin).
  - intros t kc s Hin. rewrite Forall_forall in Hq. by destruct (Hq _ Hin).
  - intros Hin. rewrite Forall_forall in Hq. by destruct (Hq _ Hin).
  - unfold kb'. rewrite handle_key_event_final_state, Hval, Hgrp. cbn.
    rewrite execute_bindings_final_state.
    rewrite execute_bindings_value in Hval.
    apply orb_false_iff in Hval as [Hh Hb].
    destruct (held_to_run _ _ _); [done|].
    destruct (if is_pressed ev then _ else _); [done|].
    cbn [exec_effect].
    rewrite (preserves_setup_key_repeat state_pressed_sent) by done.
    by rewrite state_pressed_sent_store.
Qed.

(** ** Key repeat *)

Lemma handle_keyboard_repeat_run ctx kb b :
  repeat_binding kb = Some b →
  handle_keyboard_repeat ctx kb
  = if repeat_info_rate ctx >? 0
    then (tt, command_effect b
                (set_key_repeat_source (1000 `quot` repeat_info_rate ctx) kb),
          [TimerUpdate (1000 `quot` repeat_info_rate ctx); Execute b; CommitDirty])
    else (tt, command_effect b kb, [Execute b; CommitDirty]).
Proof.
  intros Hb. unfold handle_keyboard_repeat.
  cbv beta iota zeta delta [bind gets]. rewrite Hb.
  by destruct (_ >? 0).
Qed.

Lemma handle_keyboard_repeat_idle ctx kb :
  repeat_binding kb = None → handle_keyboard_repeat ctx kb = (tt, kb, []).
Proof.
  intros Hb. unfold handle_keyboard_repeat.
  cbv beta iota zeta delta [bind gets]. by rewrite Hb.
Qed.

(** C9. With a repeat delay of 600 ms and a rate of 25 per second: a
    press that resolves to a binding arms the timer at 600 ms and
    remembers the binding before running it; an expiry with a remembered
    binding re-arms the timer at 40 ms and only then runs the binding
    (with a rate that is not positive the timer is not re-armed); if the
    binding's command disarms repetition the current expiry has run it
    and the keyboard is left disarmed, so the next expiry runs nothing;
    and after a disarm the timer is off and an expiry runs nothing. *)
Theorem key_repeat_600_25 ctx ev kb b :
  repeat_info_delay ctx = 600 →
  repeat_info_rate ctx = 25 →
  (is_pressed ev = true →
   let kb1 := update_model_state ctx ev kb in
   let kb2 := store_held_binding (active_binding ctx kb1 true) ev kb1 in
   active_binding ctx kb2 false = Some b →
   handle_key_event ctx ev kb
   = (tt,
      command_effect b (set_key_repeat_source 600 (set_repeat_binding (Some b) kb2)),
      [IdleNotify; TimerUpdate 600; Execute b; CommitDirty])) ∧
  (repeat_binding kb = Some b →
   handle_keyboard_repeat ctx kb
   = (tt, command_effect b (set_key_repeat_source 40 kb),
      [TimerUpdate 40; Execute b; CommitDirty])) ∧
  (∀ ctx', repeat_info_rate ctx' ≤ 0 → repeat_binding kb = Some b →
           handle_keyboard_repeat ctx' kb
           = (tt, command_effect b kb, [Execute b; CommitDirty])) ∧
  (repeat_binding kb = Some b → (∀ k, command_effect b k = disarmed k) →
   let kb' := final_state (handle_keyboard_repeat ctx) kb in
   Execute b ∈ calls (handle_keyboard_repeat ctx) kb ∧
   repeat_binding kb' = None ∧ key_repeat_source kb' = 0 ∧
   handle_keyboard_repeat ctx kb' = (tt, kb', [])) ∧
  (repeat_binding (disarmed kb) = None ∧ key_repeat_source (disarmed kb) = 0 ∧
   handle_keyboard_repeat ctx (disarmed kb) = (tt, disarmed kb, [])).
Proof.
  intros Hdelay Hrate. split_and!.
  - intros Hpr kb1 kb2 Hb.
    assert (Hrel : is_released ev = false)
      by (unfold is_pressed, is_released in *; by destruct (state ev)).
    assert (Hheld : held_to_run (active_binding ctx kb1 true) ev kb1 = None).
    { unfold held_to_run. rewrite Hrel, andb_false_r. by destruct (held_binding kb1). }
    rewrite handle_key_event_run.
    rewrite execute_bindings_value, execute_bindings_final_state,
      execute_bindings_calls.
    fold kb1. rewrite Hheld. cbn [exec_effect exec_calls app]. fold kb2.
    rewrite Hpr, Hb. cbn [non_null orb negb andb exec_effect exec_calls].
    destruct (compositor_bindings_value ctx ev true
                (command_effect b (final_state (setup_key_repeat ctx (Some b)) kb2)))
      as [Hv _].
    rewrite Hv by done.
    unfold final_state at 1, calls at 3. rewrite forward_to_client_run.
    rewrite Hrel. cbn [negb orb fst snd].
    unfold calls at 2, compositor_bindings. cbn.
    unfold setup_key_repeat, calls, final_state. rewrite Hdelay. cbn.
    done.
  - intros Hb. rewrite (handle_keyboard_repeat_run ctx kb b Hb), Hrate. done.
  - intros ctx' Hr Hb. rewrite (handle_keyboard_repeat_run ctx' kb b Hb).
    destruct (Z.gtb_spec (repeat_info_rate ctx') 0); [lia | done].
  - intros Hb Hdis kb'.
    unfold kb', final_state, calls.
    rewrite (handle_keyboard_repeat_run ctx kb b Hb), Hrate. cbn [fst snd Z.gtb Z.compare].
    rewrite Hdis.
    split_and!; [apply elem_of_cons; right; by left | done | done
                | by apply handle_keyboard_repeat_idle].
  - done.
  - done.
  - by apply handle_keyboard_repeat_idle.
Qed.


(** ** Forwarding to the client *)

Lemma sent_keys_filter (tr : list action) :
  ∀ acc, fold_left sent_step tr acc
         = fold_left sent_step (filter is_notify_key tr) acc.
Proof.
  induction tr as [|a tr IH]; intros acc; [done|].
  destruct a; rewrite ?filter_cons_True, ?filter_cons_False by (simpl; auto);
    simpl; apply IH.
Qed.

Lemma sent_keys_app (tr tr' : list action) :
  sent_keys (tr ++ tr') = fold_left sent_step (filter is_notify_key tr') (sent_keys tr).
Proof.
  unfold sent_keys. rewrite fold_left_app. apply sent_keys_filter.
Qed.

Lemma update_modifier_step_same (st : sway_shortcut_state) (m : Z) :
  last_raw_modifiers st = m → update_modifier_step st m = st.
Proof.
  destruct st as [ks kcs lk lm np ck]. simpl. intros ->.
  unfold update_modifier_step. simpl. by rewrite Z.eqb_refl.
Qed.

Lemma filter_notify_quiet {A} (m : M A) (P : action → Prop) kb :
  calls_only P m → (∀ a, P a → ¬ is_notify_key a) →
  filter is_notify_key (calls m kb) = [].
Proof.
  intros Hm HP. apply filter_none. eapply Forall_impl; [apply Hm | done].
Qed.

Lemma filter_notify_exec_calls b : filter is_notify_key (exec_calls b) = [].
Proof. by destruct b. Qed.

Lemma filter_notify_execute_bindings ctx ev kb :
  filter is_notify_key (calls (execute_bindings ctx ev) kb) = [].
Proof.
  rewrite execute_bindings_calls.
  rewrite filter_cons_False by (by intros []).
  rewrite !filter_app, !filter_notify_exec_calls.
  rewrite (filter_notify_quiet _ is_timer_update); [done | | intros a ? ?; by destruct a].
  apply calls_only_setup_key_repeat.
Qed.

Lemma state_pressed_sent_execute_bindings ctx ev kb :
  (∀ b k, state_pressed_sent (command_effect b k) = state_pressed_sent k) →
  state_pressed_sent (final_state (execute_bindings ctx ev) kb) = state_pressed_sent kb.
Proof.
  intros Hf. rewrite execute_bindings_final_state.
  assert (He : ∀ b k, state_pressed_sent (exec_effect b k) = state_pressed_sent k).
  { intros [b|] k; [apply Hf | done]. }
  rewrite He, (preserves_setup_key_repeat state_pressed_sent) by done.
  by rewrite state_pressed_sent_store, He.
Qed.

(** What one event does to [state_pressed_sent] and which key it passes
    on to the client. *)
Lemma handle_key_event_sent ctx ev kb :
  (∀ b k, state_pressed_sent (command_effect b k) = state_pressed_sent k) →
  let r := update_shortcut_state (state_pressed_sent kb) ev (xkb_keycode_of ev) 0 in
  state_pressed_sent (final_state (handle_key_event ctx ev) kb)
  = (if reaches_forwarding ctx ev kb then r.2 else state_pressed_sent kb) ∧
  filter is_notify_key (calls (handle_key_event ctx ev) kb)
  = (if reaches_forwarding ctx ev kb && (r.1 || is_pressed ev)
     then [NotifyKey (time_msec ev) (keycode ev) (state ev)] else []).
Proof.
  intros Hf r. unfold reaches_forwarding.
  rewrite handle_key_event_final_state, handle_key_event_calls.
  set (handled := value (execute_bindings ctx ev) kb).
  set (kb1 := final_state (execute_bindings ctx ev) kb).
  assert (Hs1 : state_pressed_sent kb1 = state_pressed_sent kb)
    by by apply state_pressed_sent_execute_bindings.
  destruct (negb handled && keyboard_group ctx); cbn [negb andb].
  - by rewrite filter_notify_execute_bindings.
  - rewrite !filter_app, filter_notify_execute_bindings.
    rewrite (filter_notify_quiet _ is_change_vt);
      [| by apply calls_only_compositor_bindings | intros a ? ?; by destruct a].
    unfold final_state at 1, calls. rewrite forward_to_client_run, Hs1. fold r.
    destruct (_ || is_released ev); cbn [fst snd app]; [|done].
    split; [done|]. by destruct (r.1 || is_pressed ev).
Qed.

Lemma fmap_snd_filter_keycode (kc : Z) (l : list (Z * Z)) :
  (filter (other_keycode kc) l).*2 = filter (λ k, k ≠ kc) l.*2.
Proof.
  induction l as [|p l IH]; [done|].
  rewrite fmap_cons. destruct (decide (p.2 = kc)) as [Heq | Hne].
  - rewrite !filter_cons_False by (unfold other_keycode; auto). done.
  - rewrite !filter_cons_True by done. rewrite fmap_cons. by f_equal.
Qed.

Lemma from_keycode_elem_of (kc : Z) (l : list (Z * Z)) :
  Exists (from_keycode kc) l ↔ kc ∈ l.*2.
Proof.
  rewrite Exists_exists, list_elem_of_fmap. unfold from_keycode.
  split; intros (p & H1 & H2); exists p; by split.
Qed.

Lemma filter_not_elem_of (kc : Z) (l : list Z) :
  kc ∉ l → filter (λ k, k ≠ kc) l = l.
Proof.
  induction l as [|x l IH]; [done|]. intros Hn.
  apply not_elem_of_cons in Hn as [Hx Hl].
  rewrite filter_cons_True by done. by rewrite IH.
Qed.

Lemma not_elem_of_filter_self (kc : Z) (l : list Z) :
  kc ∉ filter (λ k, k ≠ kc) l.
Proof. rewrite list_elem_of_filter. by intros [? _]. Qed.

(** [update_shortcut_state] as the dispatcher uses it on
    [state_pressed_sent]: always with modifier mask 0. *)
Lemma update_pressed_sent (st : sway_shortcut_state)
    (ev : wlr_event_keyboard_key) (key_id : Z) :
  wf_state st → last_raw_modifiers st = 0 →
  let r := update_shortcut_state st ev key_id 0 in
  wf_state r.2 ∧ last_raw_modifiers r.2 = 0 ∧
  match state ev with
  | WLR_KEY_PRESSED =>
      r.1 = false ∧
      ((npressed st < SWAY_KEYBOARD_PRESSED_KEYS_CAP)%nat →
       (pressed r.2).*2 ≡ₚ keycode ev :: (pressed st).*2) ∧
      ((SWAY_KEYBOARD_PRESSED_KEYS_CAP ≤ npressed st)%nat →
       pressed r.2 = pressed st)
  | WLR_KEY_RELEASED =>
      (r.1 = true ↔ keycode ev ∈ (pressed st).*2) ∧
      (pressed r.2).*2 = filter (λ k, k ≠ keycode ev) (pressed st).*2
  end.
Proof.
  intros Hwf Hm r.
  pose proof (wf_update_shortcut_state st ev key_id 0 Hwf) as Hwf'. fold r in Hwf'.
  pose proof (update_shortcut_state_view st ev key_id 0 Hwf) as Hv.
  cbv zeta in Hv. fold r in Hv.
  rewrite (update_modifier_step_same st 0 Hm) in Hv.
  destruct Hv as (_ & _ & _ & Hv).
  assert (Hraw : last_raw_modifiers r.2 = 0).
  { unfold r, update_shortcut_state.
    rewrite (update_modifier_step_same st 0 Hm).
    pose proof Hwf as (H1 & H2 & H3). destruct (state ev).
    - destruct (state_erase_key_spec st (keycode ev))
        as (_ & _ & _ & _ & _ & _ & _ & Hr); [lia | lia |]. by rewrite Hr.
    - cbn [snd set_last_keycode last_raw_modifiers].
      destruct (Nat.le_gt_cases SWAY_KEYBOARD_PRESSED_KEYS_CAP (npressed st)).
      + by rewrite state_add_key_full.
      + destruct (state_add_key_spec st (keycode ev) key_id)
          as (_ & _ & _ & _ & _ & _ & Hr); [lia | lia | lia |]. by rewrite Hr. }
  split_and!; [done | done |].
  destruct (state ev).
  - destruct Hv as (Hf & Hp & _). split.
    + by rewrite Hf, from_keycode_elem_of.
    + by rewrite Hp, fmap_snd_filter_keycode.
  - destruct Hv as (Hf & _ & Hp & Hins). split_and!; [done | |].
    + intros Hlt. rewrite (Hins Hlt), fmap_app, fmap_cons, fmap_take, fmap_drop.
      apply insert_permutation.
    + intros Hge. by rewrite Hp, state_add_key_full.
Qed.

Lemma recorded_keys_filter (tr : list action) :
  ∀ acc, fold_left recorded_step tr acc
         = fold_left recorded_step (filter is_notify_key tr) acc.
Proof.
  induction tr as [|a tr IH]; intros acc; [done|].
  destruct a; rewrite ?filter_cons_True, ?filter_cons_False by (simpl; auto);
    simpl; apply IH.
Qed.

Lemma recorded_keys_app (tr tr' : list action) :
  recorded_keys (tr ++ tr')
  = fold_left recorded_step (filter is_notify_key tr') (recorded_keys tr).
Proof.
  unfold recorded_keys. rewrite fold_left_app. apply recorded_keys_filter.
Qed.

Lemma sent_inv_length kb tr :
  sent_inv kb tr → length (recorded_keys tr) = npressed (state_pressed_sent kb).
Proof.
  intros (Hwf & _ & Hp). by rewrite <- Hp, length_fmap, pressed_length.
Qed.

(** One event keeps [state_pressed_sent] in step with the recorded
    keycodes, whether or not the state is full. *)
Lemma sent_inv_step ctx ev kb tr :
  (∀ b k, state_pressed_sent (command_effect b k) = state_pressed_sent k) →
  sent_inv kb tr →
  sent_inv (final_state (handle_key_event ctx ev) kb)
           (tr ++ calls (handle_key_event ctx ev) kb).
Proof.
  intros Hf Hinv. pose proof (sent_inv_length kb tr Hinv) as Hlen.
  destruct Hinv as (Hwf & Hm & Hp).
  destruct (handle_key_event_sent ctx ev kb Hf) as [Hs Hn].
  destruct (update_pressed_sent (state_pressed_sent kb) ev (xkb_keycode_of ev) Hwf Hm)
    as (Hwf' & Hm' & Hcase).
  unfold sent_inv. rewrite Hs, recorded_keys_app, Hn.
  destruct (reaches_forwarding ctx ev kb); cbn [andb]; [|done].
  split_and!; [done | done |].
  unfold is_pressed. destruct (state ev).
  - destruct Hcase as [Hfound Hfilter]. rewrite Hfilter, orb_false_r.
    destruct (update_shortcut_state _ _ _ _).1 eqn:Hr; cbn.
    + by rewrite Hp.
    + rewrite Hp. rewrite filter_not_elem_of; [done|].
      rewrite <- Hp, <- Hfound. congruence.
  - destruct Hcase as (_ & Hins & Hfull). rewrite orb_true_r. cbn. rewrite Hlen.
    destruct (decide (npressed (state_pressed_sent kb)
                      < SWAY_KEYBOARD_PRESSED_KEYS_CAP)%nat) as [Hlt | Hge].
    + rewrite Hins by done. by rewrite Hp.
    + rewrite Hfull by lia. done.
Qed.

Lemma sent_inv_new_keyboard : sent_inv new_keyboard [].
Proof. split_and!; [apply wf_empty_state | done | done]. Qed.

Lemma handle_key_events_cons ctx ev evs kb :
  final_state (handle_key_events ((ctx, ev) :: evs)) kb
  = final_state (handle_key_events evs) (final_state (handle_key_event ctx ev) kb) ∧
  calls (handle_key_events ((ctx, ev) :: evs)) kb
  = calls (handle_key_event ctx ev) kb
    ++ calls (handle_key_events evs) (final_state (handle_key_event ctx ev) kb).
Proof. simpl. by rewrite final_state_bind, calls_bind. Qed.

Lemma sent_inv_events evs :
  (∀ b k, state_pressed_sent (command_effect b k) = state_pressed_sent k) →
  ∀ kb tr, sent_inv kb tr →
           sent_inv (final_state (handle_key_events evs) kb)
                    (tr ++ calls (handle_key_events evs) kb).
Proof.
  intros Hf. induction evs as [|[ctx ev] evs IH]; intros kb tr Hinv.
  - cbn. by rewrite app_nil_r.
  - destruct (handle_key_events_cons ctx ev evs kb) as [-> ->].
    rewrite app_assoc. by apply IH, sent_inv_step.
Qed.

(** A recorded keycode is outstanding at the client. *)
Lemma recorded_outstanding (tr : list action) :
  ∀ acc acc', acc ⊆ acc' →
              fold_left recorded_step tr acc ⊆ fold_left sent_step tr acc'.
Proof.
  induction tr as [|a tr IH]; intros acc acc' Hsub; [done|].
  cbn [fold_left]. apply IH.
  destruct a as [| | | | |t kc [|]|]; simpl; try done.
  - intros k [Hk Hin]%list_elem_of_filter. apply list_elem_of_filter. auto.
  - destruct (decide _); intros k Hin.
    + apply elem_of_cons in Hin as [-> | Hin]; [by left | right; auto].
    + right. auto.
Qed.

(** While no more keycodes than the capacity are outstanding, every
    outstanding keycode is recorded. *)
Lemma recorded_within_capacity (tr : list action) :
  within_capacity tr → recorded_keys tr = sent_keys tr.
Proof.
  induction tr as [|a tr IH] using rev_ind; intros Hcap; [done|].
  assert (Htr : recorded_keys tr = sent_keys tr).
  { apply IH. intros n. specialize (Hcap (n `min` length tr)%nat).
    rewrite take_app_le in Hcap by lia.
    destruct (Nat.le_gt_cases n (length tr)).
    - by rewrite Nat.min_l in Hcap.
    - rewrite Nat.min_r, firstn_all in Hcap by lia. by rewrite take_ge by lia. }
  specialize (Hcap (S (length tr))).
  rewrite take_ge in Hcap by (rewrite length_app; simpl; lia).
  unfold recorded_keys, sent_keys in *. rewrite !fold_left_app in *. cbn [fold_left] in *.
  rewrite Htr. destruct a as [| | | | |t kc [|]|]; simpl in *; try done.
  rewrite decide_True; [done | lia].
Qed.

Lemma sent_keys_pressed_before (tr : list action) (kc : Z) :
  ∀ acc, kc ∈ fold_left sent_step tr acc →
         kc ∈ acc ∨ ∃ t, NotifyKey t kc WLR_KEY_PRESSED ∈ tr.
Proof.
  induction tr as [|a tr IH]; intros acc Hin; [by left|].
  simpl in Hin. apply IH in Hin as [Hin | [t Ht]]; [|right; exists t; by right].
  destruct a as [| | | | |t k [|]|]; simpl in Hin; auto.
  - apply list_elem_of_filter in Hin as [_ Hin]. auto.
  - apply elem_of_cons in Hin as [->|Hin]; [|auto].
    right. exists t. by left.
Qed.

Lemma notify_in_filter (tr : list action) t kc s :
  NotifyKey t kc s ∈ tr ↔ NotifyKey t kc s ∈ filter is_notify_key tr.
Proof. rewrite list_elem_of_filter. simpl. split; [done | by intros [_ ?]]. Qed.

Lemma stopped_by_group_reaches ctx ev kb :
  is_released ev = true →
  reaches_forwarding ctx ev kb = true ↔ ¬ stopped_by_group ctx ev kb.
Proof.
  intros Hrel. unfold reaches_forwarding, stopped_by_group.
  rewrite Hrel, orb_true_r, andb_true_r.
  assert (Hex : filter is_execute (calls (handle_key_event ctx ev) kb)
                = filter is_execute (calls (execute_bindings ctx ev) kb)).
  { rewrite executed_by_event, execute_bindings_calls.
    rewrite filter_cons_False by (by intros []).
    rewrite !filter_app, !filter_execute_exec_calls, filter_execute_setup.
    done. }
  rewrite Hex, <- execute_bindings_unhandled.
  destruct (value (execute_bindings ctx ev) kb), (keyboard_group ctx); cbn;
    (split; [intros ? [? ?]; congruence
            | intros H; first [done | exfalso; by apply H]]).
Qed.

(** C6, as the code has it. A release is passed on to the client only
    if its keycode was shown pressed earlier and has not been shown
    released since. It is passed on, exactly once, exactly when its
    keycode is recorded (a press of it was passed on while fewer
    keycodes than the capacity were recorded, and no release of it has
    been passed on since) and the event is not cut short by the
    keyboard-group return; the keycode is then no longer outstanding.
    Every recorded keycode is outstanding at the client, and while no
    more keycodes than the capacity are outstanding, the recorded
    keycodes are the outstanding ones. *)
Theorem forwarded_release_balanced
    (evs : list (key_context * wlr_event_keyboard_key))
    (ctx : key_context) (ev : wlr_event_keyboard_key) :
  (∀ b k, state_pressed_sent (command_effect b k) = state_pressed_sent k) →
  let kb := final_state (handle_key_events evs) new_keyboard in
  let tr := calls (handle_key_events evs) new_keyboard in
  let tr' := calls (handle_key_event ctx ev) kb in
  (∀ t kc, NotifyKey t kc WLR_KEY_RELEASED ∈ tr' →
           kc ∈ sent_keys tr ∧ ∃ t', NotifyKey t' kc WLR_KEY_PRESSED ∈ tr) ∧
  (is_released ev = true →
   (keycode ev ∈ recorded_keys tr → ¬ stopped_by_group ctx ev kb →
    filter is_notify_key tr'
    = [NotifyKey (time_msec ev) (keycode ev) WLR_KEY_RELEASED] ∧
    keycode ev ∉ sent_keys (tr ++ tr')) ∧
   (keycode ev ∉ recorded_keys tr ∨ stopped_by_group ctx ev kb →
    filter is_notify_key tr' = []) ∧
   (¬ stopped_by_group ctx ev kb → keycode ev ∉ recorded_keys (tr ++ tr'))) ∧
  recorded_keys tr ⊆ sent_keys tr ∧
  (within_capacity tr → recorded_keys tr = sent_keys tr).
Proof.
  intros Hf kb tr tr'.
  destruct (handle_key_event_sent ctx ev kb Hf) as [Hs Hn]. fold tr' in Hn.
  pose proof (sent_inv_events evs Hf new_keyboard [] sent_inv_new_keyboard) as Hinv.
  fold kb in Hinv. cbn [app] in Hinv. fold tr in Hinv.
  destruct Hinv as (Hwf & Hm & Hp).
  assert (Hsub : recorded_keys tr ⊆ sent_keys tr)
    by (by apply recorded_outstanding).
  destruct (update_pressed_sent (state_pressed_sent kb) ev (xkb_keycode_of ev) Hwf Hm)
    as (_ & _ & Hcase).
  split_and!; [| | done | apply recorded_within_capacity].
  - intros t kc Hin.
    apply notify_in_filter in Hin. rewrite Hn in Hin.
    destruct (reaches_forwarding ctx ev kb); [|by apply elem_of_nil in Hin].
    cbn [andb] in Hin. unfold is_pressed in Hin.
    destruct (state ev) eqn:Hst.
    + rewrite orb_false_r in Hin.
      destruct (update_shortcut_state _ _ _ _).1 eqn:Hr;
        [|by apply elem_of_nil in Hin].
      apply list_elem_of_singleton in Hin. injection Hin as -> ->.
      destruct Hcase as [Hfound _].
      assert (keycode ev ∈ sent_keys tr) as Hk.
      { apply Hsub. rewrite <- Hp. by apply Hfound. }
      split; [done|].
      apply sent_keys_pressed_before in Hk as [Hk | Hk]; [|done].
      by apply elem_of_nil in Hk.
    + rewrite orb_true_r in Hin. apply list_elem_of_singleton in Hin. done.
  - intros Hrel.
    pose proof (stopped_by_group_reaches ctx ev kb Hrel) as Hreach.
    assert (Hst : state ev = WLR_KEY_RELEASED)
      by (unfold is_released in Hrel; by destruct (state ev)).
    rewrite Hst in Hcase. destruct Hcase as [Hfound Hfilter].
    rewrite Hp in Hfound.
    rewrite sent_keys_app, recorded_keys_app, Hn.
    unfold is_pressed. rewrite Hst, orb_false_r.
    split_and!.
    + intros Hin Hgo. apply Hreach in Hgo. rewrite Hgo. cbn [andb].
      apply Hfound in Hin. rewrite Hin. cbn. split; [done|].
      apply not_elem_of_filter_self.
    + intros [Hnot | Hstop].
      * destruct (update_shortcut_state _ _ _ _).1 eqn:Hr;
          [|by rewrite andb_false_r].
        exfalso. by apply Hnot, Hfound.
      * destruct (reaches_forwarding ctx ev kb) eqn:Hgo; [|done].
        exfalso. by apply Hreach.
    + intros Hgo. apply Hreach in Hgo. rewrite Hgo. cbn [andb].
      destruct (update_shortcut_state _ _ _ _).1 eqn:Hr; cbn.
      * apply not_elem_of_filter_self.
      * intros Hin. apply Hfound in Hin. congruence.
Qed.

(** * Further properties of the code *)

(** ** The tracker: erasing what is not there, and clearing freed cells *)

Lemma erase_loop_absent (kc : Z) (n : nat) :
  ∀ (i : nat) (found : bool) (keys kcs : list Z),
    length keys = length kcs → (i + n ≤ length keys)%nat →
    ¬ Exists (from_keycode kc) (take n (drop i (zip keys kcs))) →
    erase_loop n i i found keys kcs kc = ((i + n)%nat, found, keys, kcs).
Proof.
  induction n as [|n IH]; intros i found keys kcs Hlen Hin Hno.
  - simpl. by rewrite Nat.add_0_r.
  - simpl erase_loop. rewrite Nat.ltb_irrefl.
    rewrite (drop_S_total (zip keys kcs) i) in Hno
      by (rewrite length_zip_with; lia).
    simpl in Hno. rewrite Exists_cons in Hno.
    rewrite zip_lookup_total in Hno by lia. unfold from_keycode at 1 in Hno.
    simpl in Hno.
    destruct (Z.eqb_spec (kcs !!! i) kc) as [Heq | Hne]; [tauto|]. simpl.
    rewrite IH by (try lia; tauto). f_equal. f_equal. f_equal. lia.
Qed.

Lemma erase_clear_same (np : nat) (keys kcs : list Z) :
  erase_clear np np keys kcs = (np, keys, kcs).
Proof. destruct np; [done|]. simpl. by rewrite Nat.ltb_irrefl. Qed.

Lemma filter_all {A} (P : A → Prop) `{!∀ x, Decision (P x)} (l : list A) :
  Forall P l → filter P l = l.
Proof.
  induction 1 as [|x l Hx Hl IH]; [done|]. by rewrite filter_cons_True, IH.
Qed.

Lemma erase_absent_run (st : sway_shortcut_state) (kc : Z) :
  wf_state st →
  ¬ Exists (from_keycode kc) (pressed st) →
  state_erase_key st kc
  = (false,
     {| pressed_keys := pressed_keys st; pressed_keycodes := pressed_keycodes st;
        last_keycode := last_keycode st;
        last_raw_modifiers := last_raw_modifiers st;
        npressed := npressed st; current_key := 0 |}).
Proof.
  clear command_effect.
  intros (H1 & H2 & H3) Hno. unfold state_erase_key.
  rewrite erase_loop_absent; [| lia | lia | by rewrite drop_0].
  by rewrite erase_clear_same.
Qed.

Lemma erase_nothing_left (st : sway_shortcut_state) (kc : Z) :
  wf_state st → ¬ Exists (from_keycode kc) (pressed (state_erase_key st kc).2).
Proof.
  intros Hwf. rewrite pressed_erase_key by done.
  rewrite Exists_exists. intros (p & Hin & Hp).
  apply list_elem_of_filter in Hin as [Hne _]. by apply Hne.
Qed.

Lemma erase_twice_run (st : sway_shortcut_state) (kc : Z) :
  wf_state st →
  state_erase_key (state_erase_key st kc).2 kc = (false, (state_erase_key st kc).2).
Proof.
  intros Hwf.
  rewrite erase_absent_run;
    [| by apply wf_state_erase_key | by apply erase_nothing_left].
  pose proof Hwf as (H1 & H2 & H3).
  destruct (state_erase_key_spec st kc) as (_ & _ & _ & _ & _ & Hc & _);
    [lia | lia |].
  destruct (state_erase_key st kc).2 as [ks kcs lk lm np ck]. simpl in *.
  by rewrite Hc.
Qed.

(** Erasing a keycode under which nothing is pressed writes to neither
    array and keeps [npressed]; it returns false and still clears
    [current_key]. So erasing the same keycode a second time changes
    nothing at all and returns false. *)
Theorem state_erase_key_absent (st : sway_shortcut_state) (kc : Z) :
  wf_state st →
  (¬ Exists (from_keycode kc) (pressed st) →
   state_erase_key st kc
   = (false,
      {| pressed_keys := pressed_keys st; pressed_keycodes := pressed_keycodes st;
         last_keycode := last_keycode st;
         last_raw_modifiers := last_raw_modifiers st;
         npressed := npressed st; current_key := 0 |})) ∧
  state_erase_key (state_erase_key st kc).2 kc = (false, (state_erase_key st kc).2).
Proof.
  intros Hwf. split; [by apply erase_absent_run | by apply erase_twice_run].
Qed.

(** Adding an identifier under a keycode that has nothing pressed and
    erasing that keycode again gives back the pressed entries. *)
Theorem add_then_erase (st : sway_shortcut_state) (kc key_id : Z) :
  wf_state st →
  (npressed st < SWAY_KEYBOARD_PRESSED_KEYS_CAP)%nat →
  ¬ Exists (from_keycode kc) (pressed st) →
  let r := state_erase_key (state_add_key st kc key_id) kc in
  r.1 = true ∧ pressed r.2 = pressed st.
Proof.
  intros Hwf Hlt Hno r.
  pose proof (wf_state_add_key st kc key_id Hwf) as Hwf'.
  destruct (state_erase_key_view (state_add_key st kc key_id) kc Hwf')
    as (Hp & Hf & _ & _).
  fold r in Hp, Hf. rewrite Hp, Hf, pressed_add_key by done. split.
  - apply Exists_app. right. by left.
  - rewrite filter_app, filter_cons_False by (unfold other_keycode; simpl; tauto).
    rewrite <- filter_app, take_drop.
    apply filter_all, Forall_forall. intros p Hin Heq.
    apply Hno. apply Exists_exists. by exists p.
Qed.

Lemma erase_loop_tail (kc : Z) (n : nat) :
  ∀ (i j : nat) (found : bool) (keys kcs : list Z),
    (j ≤ i)%nat →
    drop (i + n) (erase_loop n i j found keys kcs kc).1.2 = drop (i + n) keys ∧
    drop (i + n) (erase_loop n i j found keys kcs kc).2 = drop (i + n) kcs.
Proof.
  induction n as [|n IH]; intros i j found keys kcs Hji; [done|].
  simpl erase_loop.
  set (keys1 := if (j <? i)%nat then <[j := keys !!! i]> keys else keys).
  set (kcs1 := if (j <? i)%nat then <[j := kcs !!! i]> kcs else kcs).
  assert (Hk : drop (S i + n) keys1 = drop (S i + n) keys).
  { unfold keys1. destruct (j <? i)%nat; [|done]. apply drop_insert_lt. lia. }
  assert (Hc : drop (S i + n) kcs1 = drop (S i + n) kcs).
  { unfold kcs1. destruct (j <? i)%nat; [|done]. apply drop_insert_lt. lia. }
  replace (i + S n)%nat with (S i + n)%nat by lia.
  destruct (negb (kcs1 !!! i =? kc)).
  - destruct (IH (S i) (S j) found keys1 kcs1) as [-> ->]; [lia | done].
  - destruct (IH (S i) j true keys1 kcs1) as [-> ->]; [lia | done].
Qed.

Lemma replicate_snoc_cons {A} (n : nat) (x : A) (l : list A) :
  replicate n x ++ x :: l = replicate (S n) x ++ l.
Proof. rewrite replicate_S_end, <- app_assoc. done. Qed.

Lemma erase_clear_tail (np : nat) :
  ∀ (j : nat) (keys kcs : list Z),
    (j ≤ np)%nat → (np ≤ length keys)%nat → (np ≤ length kcs)%nat →
    drop j (erase_clear np j keys kcs).1.2 = replicate (np - j) 0 ++ drop np keys ∧
    drop j (erase_clear np j keys kcs).2 = replicate (np - j) 0 ++ drop np kcs.
Proof.
  induction np as [|m IH]; intros j keys kcs Hj Hk Hc.
  - assert (j = O) by lia. by subst j.
  - simpl. destruct (Nat.ltb_spec j (S m)) as [Hlt | Hge].
    + destruct (IH j (<[m := 0]> keys) (<[m := 0]> kcs)) as [-> ->];
        [lia | rewrite length_insert; lia | rewrite length_insert; lia |].
      rewrite !drop_insert_ge, !Nat.sub_diag by lia.
      rewrite (drop_S_total keys m), (drop_S_total kcs m) by lia. simpl.
      replace (S m - j)%nat with (S (m - j)) by lia.
      by rewrite !replicate_snoc_cons.
    + assert (j = S m) by lia. subst j. simpl.
      by rewrite Nat.sub_diag.
Qed.

Lemma tail_clear_erase st kc :
  wf_state st → tail_clear st → tail_clear (state_erase_key st kc).2.
Proof.
  intros (H1 & H2 & H3) [Hk Hc]. unfold tail_clear, state_erase_key.
  destruct (erase_loop_spec kc (npressed st) 0 0 false (pressed_keys st)
              (pressed_keycodes st)) as (j & keys & kcs & He & Hl1 & Hl2 & Hj & _);
    [lia | lia | lia |].
  pose proof (erase_loop_tail kc (npressed st) 0 0 false (pressed_keys st)
                (pressed_keycodes st) (Nat.le_refl _)) as [Ht1 Ht2].
  rewrite He in Ht1, Ht2 |- *. simpl in Ht1, Ht2.
  destruct (erase_clear_spec (npressed st) j keys kcs) as (keys' & kcs' & Hcl & _);
    [lia|].
  pose proof (erase_clear_tail (npressed st) j keys kcs) as [Hc1 Hc2];
    [lia | lia | lia |].
  rewrite Hcl in Hc1, Hc2 |- *. simpl in Hc1, Hc2 |- *.
  rewrite Hc1, Hc2, Ht1, Ht2, Hk, Hc, <- !replicate_add.
  split; f_equal; lia.
Qed.

Lemma drop_shifted {A} (i n : nat) (cells : list A) :
  (i ≤ n)%nat → (n < length cells)%nat →
  drop (S n) (shifted i n cells) = drop (S n) cells.
Proof.
  intros Hin Hn. unfold shifted. rewrite app_assoc.
  apply drop_app_length'. rewrite length_app, !length_take, length_drop. lia.
Qed.

Lemma tail_clear_add st kc key_id :
  wf_state st → tail_clear st → tail_clear (state_add_key st kc key_id).
Proof.
  intros (H1 & H2 & H3) [Hk Hc].
  destruct (Nat.le_gt_cases SWAY_KEYBOARD_PRESSED_KEYS_CAP (npressed st)) as [Hge | Hlt].
  { by rewrite state_add_key_full. }
  unfold tail_clear, state_add_key.
  destruct (Nat.leb_spec SWAY_KEYBOARD_PRESSED_KEYS_CAP (npressed st)); [lia|].
  set (i := add_find (npressed st) 0 (pressed_keys st) key_id).
  assert (Hi : (i ≤ npressed st)%nat).
  { unfold i. rewrite add_find_spec by lia. simpl.
    etrans; [apply insert_pos_le|]. rewrite length_take. lia. }
  destruct (add_shift_spec (npressed st) i (pressed_keys st) (pressed_keycodes st))
    as (keys' & kcs' & He & Hl1 & Hl2 & Hz); [lia | lia | lia |].
  rewrite He. simpl.
  assert (Hd : drop (S (npressed st)) (zip keys' kcs')
               = drop (S (npressed st)) (zip (pressed_keys st) (pressed_keycodes st))).
  { rewrite Hz. apply drop_shifted; [done|]. rewrite length_zip_with. lia. }
  rewrite !drop_insert_lt by lia.
  assert (Hk' : drop (S (npressed st)) keys' = drop (S (npressed st)) (pressed_keys st)).
  { rewrite <- (fst_zip keys' kcs'), <- (fst_zip (pressed_keys st) (pressed_keycodes st))
      by lia.
    by rewrite <- !fmap_drop, Hd. }
  assert (Hc' : drop (S (npressed st)) kcs'
                = drop (S (npressed st)) (pressed_keycodes st)).
  { rewrite <- (snd_zip keys' kcs'), <- (snd_zip (pressed_keys st) (pressed_keycodes st))
      by lia.
    by rewrite <- !fmap_drop, Hd. }
  rewrite Hk', Hc'.
  replace (S (npressed st)) with (npressed st + 1)%nat by lia.
  rewrite <- !drop_drop, Hk, Hc, !drop_replicate.
  split; f_equal; lia.
Qed.

Lemma tail_clear_apply_op st o :
  wf_state st → tail_clear st → tail_clear (apply_op st o).
Proof.
  intros Hwf Ht. destruct o as [kc key_id | kc | ev k m]; simpl.
  - by apply tail_clear_add.
  - by apply tail_clear_erase.
  - unfold update_shortcut_state.
    assert (wf_state (update_modifier_step st m)
            ∧ tail_clear (update_modifier_step st m)) as [Hwf1 Ht1].
    { unfold update_modifier_step. destruct (_ && _); [|done].
      split; [by apply wf_state_erase_key | by apply tail_clear_erase]. }
    destruct (state ev); [by apply tail_clear_erase|].
    by apply (tail_clear_add _ (keycode ev) k) in Ht1.
Qed.

Lemma tail_clear_apply_ops ops :
  ∀ st, wf_state st → tail_clear st → tail_clear (apply_ops st ops).
Proof.
  induction ops as [|o ops IH]; intros st Hwf Ht; [done|].
  apply IH; auto using wf_apply_op, tail_clear_apply_op.
Qed.

(** Whatever operations are applied to an empty state, every cell of
    both arrays from [npressed] on holds 0: erasing clears the cells it
    frees. *)
Theorem freed_cells_cleared (ops : list tracker_op) (i : nat) :
  let st := apply_ops empty_state ops in
  (npressed st ≤ i)%nat → (i < SWAY_KEYBOARD_PRESSED_KEYS_CAP)%nat →
  pressed_keys st !!! i = 0 ∧ pressed_keycodes st !!! i = 0.
Proof.
  intros st Hi Hcap.
  destruct (tracker_inv_apply_ops ops empty_state tracker_inv_empty) as [Hwf _].
  assert (tail_clear st) as [Hk Hc].
  { apply tail_clear_apply_ops; [apply wf_empty_state|].
    split; simpl; by rewrite Nat.sub_0_r. }
  fold st in Hwf. destruct Hwf as (H1 & H2 & H3).
  replace i with (npressed st + (i - npressed st))%nat by lia.
  rewrite <- !lookup_total_drop, Hk, Hc.
  split; apply lookup_total_replicate_2; lia.
Qed.

(** ** The tracker: [current_key], modifier keys and press/release pairs *)

(** In every state reached from the empty state, [current_key] is 0 or
    the identifier of a pressed entry. *)
Theorem current_key_pressed_or_cleared (ops : list tracker_op) :
  let st := apply_ops empty_state ops in
  current_key st = 0 ∨ ∃ kc, (current_key st, kc) ∈ pressed st.
Proof.
  intros st.
  assert (current_key_inv st) as [Hz | Hin].
  { apply current_key_inv_apply_ops; [apply wf_empty_state | by left]. }
  - by left.
  - right. unfold pressed_ids in Hin.
    apply list_elem_of_fmap in Hin as ([id kc] & Heq & Hin). simpl in Heq.
    exists kc. by rewrite Heq.
Qed.

Lemma update_records_press st ev k m :
  wf_state st → state ev = WLR_KEY_PRESSED →
  last_keycode (update_shortcut_state st ev k m).2 = keycode ev ∧
  last_raw_modifiers (update_shortcut_state st ev k m).2 = m.
Proof.
  intros Hwf Hst.
  pose proof (update_shortcut_state_view st ev k m Hwf) as (Hm & _ & _ & Hv).
  rewrite Hst in Hv. destruct Hv as (_ & Hl & _). split; [done|].
  pose proof (wf_update_modifier_step st m Hwf) as (H1 & H2 & H3).
  unfold update_shortcut_state. rewrite Hst.
  cbn [snd set_last_keycode last_raw_modifiers].
  destruct (Nat.le_gt_cases SWAY_KEYBOARD_PRESSED_KEYS_CAP
              (npressed (update_modifier_step st m))).
  - by rewrite state_add_key_full.
  - destruct (state_add_key_spec (update_modifier_step st m) (keycode ev) k)
      as (_ & _ & _ & _ & _ & _ & Hr); [lia | lia | lia |]. by rewrite Hr.
Qed.

Lemma no_entry_after_add st kc kc' key_id :
  wf_state st → kc' ≠ kc →
  ¬ Exists (from_keycode kc) (pressed st) →
  ¬ Exists (from_keycode kc) (pressed (state_add_key st kc' key_id)).
Proof.
  intros Hwf Hne Hno.
  destruct (Nat.le_gt_cases SWAY_KEYBOARD_PRESSED_KEYS_CAP (npressed st)).
  { by rewrite state_add_key_full. }
  rewrite pressed_add_key by done.
  rewrite Exists_app, Exists_cons. intros [Ha | [Ha | Ha]].
  - apply Hno. rewrite <- (take_drop (insert_pos key_id (pressed_ids st)) (pressed st)).
    apply Exists_app. by left.
  - by apply Hne.
  - apply Hno. rewrite <- (take_drop (insert_pos key_id (pressed_ids st)) (pressed st)).
    apply Exists_app. by right.
Qed.

(** A key whose press is followed by an event under a different
    modifier mask was a modifier: unless that event presses the same
    keycode again, nothing added under the key's keycode is pressed
    afterwards. Keycode 0 is exempt. *)
Theorem modifier_key_does_not_stay (st : sway_shortcut_state)
    (ev1 ev2 : wlr_event_keyboard_key) (k1 k2 m1 m2 : Z) :
  wf_state st →
  state ev1 = WLR_KEY_PRESSED → keycode ev1 ≠ 0 → m2 ≠ m1 →
  (state ev2 = WLR_KEY_RELEASED ∨ keycode ev2 ≠ keycode ev1) →
  let st1 := (update_shortcut_state st ev1 k1 m1).2 in
  let st2 := (update_shortcut_state st1 ev2 k2 m2).2 in
  ¬ Exists (from_keycode (keycode ev1)) (pressed st2).
Proof.
  intros Hwf Hp Hnz Hm Hev st1 st2.
  pose proof (wf_update_shortcut_state st ev1 k1 m1 Hwf) as Hwf1. fold st1 in Hwf1.
  destruct (update_records_press st ev1 k1 m1 Hwf Hp) as [Hlk Hlm].
  fold st1 in Hlk, Hlm.
  pose proof (wf_update_modifier_step st1 m2 Hwf1) as Hwfm.
  assert (Hgone : ¬ Exists (from_keycode (keycode ev1))
                      (pressed (update_modifier_step st1 m2))).
  { rewrite pressed_update_modifier_step by done.
    rewrite Hlk, Hlm, decide_True by done.
    rewrite Exists_exists. intros (p & Hin & Hk).
    apply list_elem_of_filter in Hin as [Hne _]. by apply Hne. }
  unfold st2, update_shortcut_state. destruct (state ev2) eqn:Hs2.
  - rewrite pressed_erase_key by done.
    rewrite Exists_exists. intros (p & Hin & Hk).
    apply list_elem_of_filter in Hin as [_ Hin].
    apply Hgone, Exists_exists. by exists p.
  - destruct Hev as [? | Hne]; [done|].
    by apply no_entry_after_add.
Qed.

(** A press and the release of the same keycode, both under the
    modifier mask already recorded, give back the pressed entries, and
    the release reports that the key was pressed. *)
Theorem press_then_release (st : sway_shortcut_state)
    (ev1 ev2 : wlr_event_keyboard_key) (k1 k2 : Z) :
  wf_state st →
  (npressed st < SWAY_KEYBOARD_PRESSED_KEYS_CAP)%nat →
  ¬ Exists (from_keycode (keycode ev1)) (pressed st) →
  state ev1 = WLR_KEY_PRESSED → state ev2 = WLR_KEY_RELEASED →
  keycode ev2 = keycode ev1 →
  let m := last_raw_modifiers st in
  let st1 := (update_shortcut_state st ev1 k1 m).2 in
  let r := update_shortcut_state st1 ev2 k2 m in
  r.1 = true ∧ pressed r.2 = pressed st.
Proof.
  intros Hwf Hlt Hno Hp Hr Hkc m st1 r.
  pose proof (wf_update_shortcut_state st ev1 k1 m Hwf) as Hwf1. fold st1 in Hwf1.
  destruct (update_records_press st ev1 k1 m Hwf Hp) as [_ Hlm]. fold st1 in Hlm.
  assert (Hp1 : pressed st1
                = take (insert_pos k1 (pressed_ids st)) (pressed st)
                  ++ (k1, keycode ev1) :: drop (insert_pos k1 (pressed_ids st)) (pressed st)).
  { unfold st1, update_shortcut_state.
    rewrite (update_modifier_step_same st m eq_refl), Hp.
    by apply pressed_add_key. }
  unfold r, update_shortcut_state.
  rewrite (update_modifier_step_same st1 m Hlm), Hr, Hkc.
  destruct (state_erase_key_view st1 (keycode ev1) Hwf1) as (Hpr & Hf & _ & _).
  rewrite Hpr, Hf, Hp1. split.
  - apply Exists_app. right. by left.
  - rewrite filter_app, filter_cons_False by (unfold other_keycode; simpl; tauto).
    rewrite <- filter_app, take_drop.
    apply filter_all, Forall_forall. intros p Hin Heq.
    apply Hno. apply Exists_exists. by exists p.
Qed.

(** ** The resolver: which binding a scan returns *)

Section Scan.

Variables (st : sway_shortcut_state) (mods : Z) (release locked : bool)
  (inp : string) (exact_input : bool) (grp : Z).

Local Abbreviation scan bs cur :=
  (get_active_binding st bs cur mods release locked inp exact_input grp).
Local Abbreviation cand := (candidate st mods release locked inp exact_input grp).

Lemma scan_cons b bs cur :
  scan (b :: bs) cur
  = if cand b
    then if match cur with
            | Some c => keep_current c b locked inp grp
            | None => false
            end
         then scan bs cur
         else if perfect_match b locked inp grp then Some b else scan bs (Some b)
    else scan bs cur.
Proof.
  unfold candidate. simpl.
  destruct (binding_filtered_out _ _ _ _ _ _ _); [done|].
  by destruct (binding_match st b).
Qed.

Lemma scan_some bs : ∀ c, ∃ r, scan bs (Some c) = Some r.
Proof.
  induction bs as [|b bs IH]; intros c; [by exists c|].
  rewrite scan_cons. destruct (cand b); [|apply IH].
  destruct (keep_current c b locked inp grp); [apply IH|].
  destruct (perfect_match b locked inp grp); [by exists b | apply IH].
Qed.

Lemma scan_sound bs :
  ∀ cur r, scan bs cur = Some r → cur = Some r ∨ (r ∈ bs ∧ cand r = true).
Proof.
  induction bs as [|b bs IH]; intros cur r Hr; [by left|].
  rewrite scan_cons in Hr. destruct (cand b) eqn:Hb.
  - destruct (match cur with Some c => _ | None => false end).
    + apply IH in Hr as [? | [? ?]]; [by left | right; split; [by right | done]].
    + destruct (perfect_match b locked inp grp).
      * injection Hr as <-. right. split; [by left | done].
      * apply IH in Hr as [[= <-] | [? ?]]; right; (split; [|done]);
          [by left | by right].
  - apply IH in Hr as [? | [? ?]]; [by left | right; split; [by right | done]].
Qed.

Lemma scan_none bs :
  ∀ cur, scan bs cur = None ↔ cur = None ∧ Forall (λ b, cand b = false) bs.
Proof.
  induction bs as [|b bs IH]; intros cur.
  - simpl. split; [by intros -> | by intros [-> _]].
  - rewrite scan_cons, Forall_cons. destruct (cand b) eqn:Hb.
    + split; [|by intros [_ [[=] _]]].
      destruct cur as [c|].
      * destruct (keep_current c b locked inp grp);
          [by destruct (scan_some bs c) as [r ->]|].
        destruct (perfect_match b locked inp grp); [done|].
        by destruct (scan_some bs b) as [r ->].
      * destruct (perfect_match b locked inp grp); [done|].
        by destruct (scan_some bs b) as [r ->].
    + rewrite IH. split; [by intros [-> ?] | by intros [-> [_ ?]]].
Qed.

(** A binding that satisfies the early-exit test is never displaced. *)
Lemma keep_perfect c b :
  perfect_match c locked inp grp = true → keep_current c b locked inp grp = true.
Proof.
  unfold perfect_match, keep_current.
  intros [[Hi _]%andb_true_iff Hg]%andb_true_iff. rewrite Hi, Hg.
  destruct (binding_ptr_eq c b); [done|].
  destruct (streq (input b) inp); simpl; [|done].
  by destruct (eqb _ _ && eqb _ _).
Qed.

Lemma scan_perfect bs c :
  perfect_match c locked inp grp = true → scan bs (Some c) = Some c.
Proof.
  intros Hp. induction bs as [|b bs IH]; [done|].
  rewrite scan_cons. destruct (cand b); [|done].
  by rewrite keep_perfect.
Qed.

(** A binding that names the device is displaced only by one that names
    the device. *)
Lemma keep_or_exact c b :
  streq (input c) inp = true →
  keep_current c b locked inp grp = false → streq (input b) inp = true.
Proof.
  unfold keep_current. intros ->.
  destruct (binding_ptr_eq c b); [done|].
  by destruct (streq (input b) inp).
Qed.

Lemma scan_exact_kept bs :
  ∀ c, streq (input c) inp = true →
       ∃ r, scan bs (Some c) = Some r ∧ streq (input r) inp = true.
Proof.
  induction bs as [|b bs IH]; intros c Hc; [by exists c|].
  rewrite scan_cons. destruct (cand b); [|by apply IH].
  destruct (keep_current c b locked inp grp) eqn:Hk; [by apply IH|].
  pose proof (keep_or_exact c b Hc Hk) as Hb.
  destruct (perfect_match b locked inp grp); [by exists b | by apply IH].
Qed.

(** A binding that does not name the device gives way to one that does,
    unless both live at the same address. *)
Lemma keep_implies_exact c b :
  binding_ptr_eq c b = false →
  streq (input b) inp = true →
  keep_current c b locked inp grp = true → streq (input c) inp = true.
Proof.
  unfold keep_current. intros -> ->.
  by destruct (streq (input c) inp).
Qed.

(** A binding that names the device and is set to the current layout
    group is kept against every other binding. *)
Lemma keep_device_group c b :
  streq (input c) inp = true → group c = grp →
  keep_current c b locked inp grp = true.
Proof.
  unfold keep_current. intros Hi Hg. rewrite Hi, Hg, Z.eqb_refl.
  destruct (binding_ptr_eq c b); [done|].
  destruct (streq (input b) inp); simpl; [|done].
  by destruct (eqb _ _ && eqb _ _).
Qed.

Lemma scan_device_group bs c :
  streq (input c) inp = true → group c = grp → scan bs (Some c) = Some c.
Proof.
  intros Hi Hg. induction bs as [|b bs IH]; [done|].
  rewrite scan_cons. destruct (cand b); [|done].
  by rewrite keep_device_group.
Qed.

End Scan.

(** The binding a scan returns is the one it started with or a binding
    of the table that passes the filter and matches the state; the scan
    returns none exactly when it started with none and no binding of
    the table passes the filter and matches. *)
Theorem get_active_binding_sound st bs cur mods release locked inp exact_input grp :
  (∀ r, get_active_binding st bs cur mods release locked inp exact_input grp = Some r →
        cur = Some r
        ∨ (r ∈ bs ∧
           binding_filtered_out r mods release locked inp exact_input grp = false ∧
           binding_match st r = true)) ∧
  (get_active_binding st bs cur mods release locked inp exact_input grp = None
   ↔ cur = None
     ∧ Forall (λ b, candidate st mods release locked inp exact_input grp b = false) bs).
Proof.
  split; [|apply scan_none].
  intros r Hr. apply scan_sound in Hr as [? | [Hin Hc]]; [by left|].
  right. unfold candidate in Hc. apply andb_true_iff in Hc as [Hf Hm].
  apply negb_true_iff in Hf. done.
Qed.

(** Once the scan holds a binding that names the device as input and is
    set to the current layout group, no later binding of the table
    displaces it, whatever the lock flags of the bindings and whether
    the query is locked. The test before the early return asks for
    both, so the early return loses nothing. *)
Theorem perfect_match_is_final st bs c mods release locked inp exact_input grp :
  streq (input c) inp = true →
  group c = grp →
  get_active_binding st bs (Some c) mods release locked inp exact_input grp = Some c ∧
  ∀ b bs',
    perfect_match b locked inp grp = true →
    get_active_binding st bs' (Some b) mods release locked inp exact_input grp
    = Some b.
Proof.
  intros Hi Hg. split; [by apply scan_device_group|].
  intros b bs'. apply scan_perfect.
Qed.

Lemma scan_prefers_device st mods release locked inp exact_input grp bs :
  ∀ cur,
    addresses_distinct (from_option (λ c, [c]) [] cur ++ bs) →
    Exists (λ b, candidate st mods release locked inp exact_input grp b = true
                 ∧ streq (input b) inp = true) bs →
    ∃ r, get_active_binding st bs cur mods release locked inp exact_input grp = Some r
         ∧ streq (input r) inp = true.
Proof.
  induction bs as [|b bs IH]; intros cur Hd Hex; [by apply Exists_nil in Hex|].
  rewrite scan_cons.
  assert (Hd' : ∀ c, addresses_distinct (c :: b :: bs) → addresses_distinct (c :: bs)).
  { intros c H x y Hx Hy. apply H.
    - apply elem_of_cons in Hx as [->|?]; [by left | by right; right].
    - apply elem_of_cons in Hy as [->|?]; [by left | by right; right]. }
  assert (Hdb : addresses_distinct (b :: bs)).
  { intros x y Hx Hy. apply Hd; apply elem_of_app; by right. }
  assert (Hnext : ∀ c, streq (input c) inp = true →
            ∃ r, get_active_binding st bs (Some c) mods release locked inp
                   exact_input grp = Some r ∧ streq (input r) inp = true)
    by (intros c; apply scan_exact_kept).
  apply Exists_cons in Hex as [[Hc Hi] | Hex].
  - rewrite Hc. destruct cur as [c|]; simpl.
    + destruct (keep_current c b locked inp grp) eqn:Hk.
      * apply Hnext.
        destruct (binding_ptr_eq c b) eqn:Hp.
        -- assert (c = b) as ->; [|done].
           apply Hd; [by left | by right; left |].
           unfold binding_ptr_eq in Hp. by apply Z.eqb_eq.
        -- by eapply keep_implies_exact.
      * destruct (perfect_match b locked inp grp); [by exists b | by apply Hnext].
    + destruct (perfect_match b locked inp grp); [by exists b | by apply Hnext].
  - destruct (candidate st mods release locked inp exact_input grp b).
    + destruct cur as [c|]; simpl.
      * destruct (keep_current c b locked inp grp).
        -- apply IH; [by apply Hd' | done].
        -- destruct (perfect_match b locked inp grp) eqn:Hp.
           ++ exists b. split; [done|]. unfold perfect_match in Hp.
              by apply andb_true_iff in Hp as [[? _]%andb_true_iff _].
           ++ by apply IH.
      * destruct (perfect_match b locked inp grp) eqn:Hp.
        -- exists b. split; [done|]. unfold perfect_match in Hp.
           by apply andb_true_iff in Hp as [[? _]%andb_true_iff _].
        -- by apply IH.
    + apply IH; [|done]. destruct cur as [c|]; simpl in *; [by apply Hd'|].
      intros x y Hx Hy. apply Hdb; by right.
Qed.

(** If any binding of the table that passes the filter and matches
    names the device itself, the scan returns a binding that names the
    device: a wildcard binding never wins over a device binding,
    wherever the two stand in the table. *)
Theorem device_binding_preferred st mods release locked inp exact_input grp bs :
  addresses_distinct bs →
  Exists (λ b, candidate st mods release locked inp exact_input grp b = true
               ∧ input b = inp) bs →
  ∃ r, get_active_binding st bs None mods release locked inp exact_input grp = Some r
       ∧ input r = inp.
Proof.
  intros Hd Hex.
  destruct (scan_prefers_device st mods release locked inp exact_input grp bs None)
    as (r & Hr & Hi); [done | | ].
  - eapply Exists_impl; [done|]. intros b [? ->]. split; [done|].
    apply String.eqb_refl.
  - exists r. split; [done|]. by apply String.eqb_eq.
Qed.

Lemma keep_equally_specific c b locked inp grp :
  equally_specific inp c b → keep_current c b locked inp grp = true.
Proof.
  intros (Hi & Hl & Hg). unfold keep_current.
  destruct (binding_ptr_eq c b); [done|].
  by rewrite Hi, Hl, Hg, !eqb_reflx.
Qed.

Lemma scan_keeps_first st mods release locked inp exact_input grp bs :
  ∀ c,
    Forall (λ b, candidate st mods release locked inp exact_input grp b = true →
                 equally_specific inp c b) bs →
    get_active_binding st bs (Some c) mods release locked inp exact_input grp = Some c.
Proof.
  induction bs as [|b bs IH]; intros c Hall; [done|].
  apply Forall_cons in Hall as [Hb Hall]. rewrite scan_cons.
  destruct (candidate st mods release locked inp exact_input grp b); [|by apply IH].
  rewrite keep_equally_specific by auto. by apply IH.
Qed.

(** When the bindings of the table that pass the filter and match are
    all equally specific, the scan returns the first of them in table
    order. *)
Theorem first_binding_wins st mods release locked inp exact_input grp bs :
  (∀ a b, a ∈ bs → b ∈ bs →
          candidate st mods release locked inp exact_input grp a = true →
          candidate st mods release locked inp exact_input grp b = true →
          equally_specific inp a b) →
  get_active_binding st bs None mods release locked inp exact_input grp
  = head (filter (λ b, candidate st mods release locked inp exact_input grp b = true) bs).
Proof.
  induction bs as [|b bs IH]; intros Hall; [done|].
  rewrite scan_cons.
  destruct (candidate st mods release locked inp exact_input grp b) eqn:Hb.
  - rewrite filter_cons_True by done. simpl.
    destruct (perfect_match b locked inp grp); [done|].
    apply scan_keeps_first, Forall_forall. intros x Hx Hc.
    apply Hall; [by left | by right | done | done].
  - rewrite filter_cons_False by (by rewrite Hb). apply IH.
    intros x y Hx Hy. apply Hall; by right.
Qed.

(** An event resolves to no binding exactly when no binding of the
    keycode table passes the filter and matches the keycode state, and
    no binding of the keysym table does so on the raw or on the
    translated keysym state. *)
Theorem active_binding_none ctx kb release :
  active_binding ctx kb release = None
  ↔ Forall (λ b, candidate (state_keycodes kb) (wlr_keyboard_get_modifiers ctx)
                   release (exclusive_client ctx) (device_identifier ctx)
                   (keyboard_group ctx) (effective_layout kb) b = false)
      (keycode_bindings ctx) ∧
    Forall (λ b, candidate (state_keysyms_raw kb) (keyboard_keysyms_raw ctx).2
                   release (exclusive_client ctx) (device_identifier ctx)
                   (keyboard_group ctx) (effective_layout kb) b = false)
      (keysym_bindings ctx) ∧
    Forall (λ b, candidate (state_keysyms_translated kb)
                   (keyboard_keysyms_translated ctx).2
                   release (exclusive_client ctx) (device_identifier ctx)
                   (keyboard_group ctx) (effective_layout kb) b = false)
      (keysym_bindings ctx).
Proof.
  unfold active_binding. rewrite !scan_none. split.
  - by intros [[[_ ?] ?] ?].
  - by intros (? & ? & ?).
Qed.

(** ** Compositor bindings *)

Lemma compositor_binding_run ctx syms kb :
  keyboard_execute_compositor_binding ctx syms kb
  = match filter is_vt_switch syms with
    | [] => (false, kb, [])
    | keysym :: _ =>
        (true, kb,
         if backend_is_multi ctx && backend_has_session ctx
         then [ChangeVT (keysym - XKB_KEY_XF86Switch_VT_1 + 1)] else [])
    end.
Proof.
  induction syms as [|k syms IH]; [done|]. simpl.
  destruct (Z.leb_spec XKB_KEY_XF86Switch_VT_1 k),
           (Z.leb_spec k XKB_KEY_XF86Switch_VT_12); simpl;
    rewrite ?filter_cons_True, ?filter_cons_False by (unfold is_vt_switch; lia);
    try apply IH.
  cbv beta iota zeta delta [bind when emit ret].
  by destruct (backend_is_multi ctx && backend_has_session ctx).
Qed.

(** [keyboard_execute_compositor_binding] reports the event handled
    exactly when one of the keysyms is a VT-switch keysym. Only the
    first such keysym counts: with a multi backend that has a session it
    asks for a switch to that keysym's VT, a number from 1 to 12;
    otherwise it swallows the keysym without any call. The keyboard is
    not touched. *)
Theorem compositor_binding_spec ctx syms kb :
  final_state (keyboard_execute_compositor_binding ctx syms) kb = kb ∧
  (value (keyboard_execute_compositor_binding ctx syms) kb = true
   ↔ Exists is_vt_switch syms) ∧
  calls (keyboard_execute_compositor_binding ctx syms) kb
  = (if backend_is_multi ctx && backend_has_session ctx
     then match head (filter is_vt_switch syms) with
          | Some keysym => [ChangeVT (keysym - XKB_KEY_XF86Switch_VT_1 + 1)]
          | None => []
          end
     else []) ∧
  ∀ vt, ChangeVT vt ∈ calls (keyboard_execute_compositor_binding ctx syms) kb →
        1 ≤ vt ≤ 12.
Proof.
  unfold final_state, value, calls. rewrite compositor_binding_run.
  destruct (filter is_vt_switch syms) as [|k l] eqn:Hf; cbn [fst snd head].
  - split_and!; [done | | by destruct (_ && _) | by intros vt ?%elem_of_nil].
    split; [done|]. rewrite Exists_exists. intros (x & Hin & Hx).
    assert (x ∈ filter is_vt_switch syms) as Hin'
      by (by apply list_elem_of_filter).
    rewrite Hf in Hin'. by apply elem_of_nil in Hin'.
  - assert (k ∈ filter is_vt_switch syms) as Hk by (rewrite Hf; by left).
    apply list_elem_of_filter in Hk as [Hvt Hin].
    split_and!; [done | | done |].
    + split; [|done]. intros _. apply Exists_exists. by exists k.
    + intros vt Hvt'. destruct (_ && _); [|by apply elem_of_nil in Hvt'].
      apply list_elem_of_singleton in Hvt'. injection Hvt' as ->.
      unfold is_vt_switch, XKB_KEY_XF86Switch_VT_1, XKB_KEY_XF86Switch_VT_12 in *.
      lia.
Qed.

(** ** The dispatcher: repetition, forwarding of presses, invariants *)

Lemma released_not_pressed ev : is_released ev = true → is_pressed ev = false.
Proof. unfold is_pressed, is_released. by destruct (state ev). Qed.

Lemma pressed_not_released ev : is_pressed ev = true → is_released ev = false.
Proof. unfold is_pressed, is_released. by destruct (state ev). Qed.

Lemma repeat_binding_forward ev handled kb :
  repeat_binding (final_state (forward_to_client ev handled) kb) = repeat_binding kb.
Proof.
  unfold final_state. rewrite forward_to_client_run. by destruct (_ || _).
Qed.

Lemma setup_key_repeat_none ctx kb :
  repeat_binding (final_state (setup_key_repeat ctx None) kb) = None ∧
  (repeat_binding kb ≠ None →
   key_repeat_source (final_state (setup_key_repeat ctx None) kb) = 0 ∧
   calls (setup_key_repeat ctx None) kb = [TimerUpdate 0]) ∧
  (repeat_binding kb = None → setup_key_repeat ctx None kb = (tt, kb, [])).
Proof.
  unfold setup_key_repeat, final_state, calls. cbn [non_null andb].
  cbv beta iota zeta delta [bind gets]. cbn [fst snd].
  destruct (repeat_binding kb) as [b|] eqn:Hb; cbn.
  - by split_and!.
  - by split_and!.
Qed.

(** A key release always cancels key repetition: after the event no
    binding is remembered for repetition, so a timer expiry runs
    nothing; and if one was remembered the timer has been disarmed. *)
Theorem release_cancels_repeat ctx ctx' ev kb :
  is_released ev = true →
  let kb' := final_state (handle_key_event ctx ev) kb in
  repeat_binding kb' = None ∧
  handle_keyboard_repeat ctx' kb' = (tt, kb', []) ∧
  (repeat_binding kb ≠ None →
   (∀ b k, repeat_binding (command_effect b k) = repeat_binding k) →
   TimerUpdate 0 ∈ calls (handle_key_event ctx ev) kb).
Proof.
  intros Hrel kb'. pose proof (released_not_pressed ev Hrel) as Hpr.
  assert (Hfinal : ∃ kb2 tr0 tr1,
            repeat_binding kb' = repeat_binding (final_state (setup_key_repeat ctx None) kb2)
            ∧ calls (handle_key_event ctx ev) kb
              = tr0 ++ calls (setup_key_repeat ctx None) kb2 ++ tr1
            ∧ ((∀ b k, repeat_binding (command_effect b k) = repeat_binding k) →
               repeat_binding kb2 = repeat_binding kb)).
  { unfold kb'. rewrite handle_key_event_final_state, handle_key_event_calls.
    rewrite execute_bindings_final_state, execute_bindings_calls. rewrite Hpr.
    cbn [exec_effect exec_calls].
    set (kb1 := update_model_state ctx ev kb).
    set (cand := active_binding ctx kb1 true).
    set (kb2 := store_held_binding cand ev (exec_effect (held_to_run cand ev kb1) kb1)).
    exists kb2.
    assert (Hk2 : (∀ b k, repeat_binding (command_effect b k) = repeat_binding k) →
                  repeat_binding kb2 = repeat_binding kb).
    { intros Hf. unfold kb2, store_held_binding.
      assert (repeat_binding (exec_effect (held_to_run cand ev kb1) kb1)
              = repeat_binding kb) as He.
      { destruct (held_to_run cand ev kb1); cbn [exec_effect];
          [by rewrite Hf | done]. }
      destruct (negb _), (_ && _); cbn; by rewrite ?He. }
    destruct (_ && keyboard_group ctx).
    - exists (IdleNotify :: exec_calls (held_to_run cand ev kb1)), [].
      by rewrite !app_nil_r.
    - eexists (IdleNotify :: exec_calls (held_to_run cand ev kb1)), _.
      rewrite repeat_binding_forward. split; [done|]. split; [|done].
      rewrite app_nil_r. cbn [app]. rewrite <- !app_assoc. reflexivity. }
  destruct Hfinal as (kb2 & tr0 & tr1 & Hrb & Hcalls & Hsame).
  destruct (setup_key_repeat_none ctx kb2) as (Hnone & Harmed & _).
  assert (repeat_binding kb' = None) as Hn by by rewrite Hrb.
  split_and!; [done | by apply handle_keyboard_repeat_idle |].
  intros Hset Hf. rewrite Hcalls.
  destruct Harmed as [_ ->]; [by rewrite Hsame|].
  apply elem_of_app. right. by left.
Qed.

Lemma compositor_bindings_press ctx ev handled kb :
  is_pressed ev = true →
  value (compositor_bindings ctx ev handled) kb
  = handled
    || bool_decide (Exists is_vt_switch (xkb_state_key_get_syms ctx))
    || bool_decide (Exists is_vt_switch (xkb_keymap_key_get_syms_by_level0 ctx)).
Proof.
  intros Hpr. unfold compositor_bindings. rewrite value_bind, Hpr, !andb_true_r.
  assert (Hv : ∀ syms k, value (keyboard_execute_compositor_binding ctx syms) k
                         = bool_decide (Exists is_vt_switch syms)).
  { intros syms k. unfold value. rewrite compositor_binding_run.
    destruct (filter is_vt_switch syms) as [|x l] eqn:Hf; cbn.
    - symmetry. apply bool_decide_eq_false. rewrite Exists_exists.
      intros (y & Hin & Hy).
      assert (y ∈ filter is_vt_switch syms) as Hin' by (by apply list_elem_of_filter).
      rewrite Hf in Hin'. by apply elem_of_nil in Hin'.
    - symmetry. apply bool_decide_eq_true.
      assert (x ∈ filter is_vt_switch syms) as Hx by (rewrite Hf; by left).
      apply list_elem_of_filter in Hx as [? ?]. apply Exists_exists. by exists x. }
  destruct handled; cbn [negb].
  - done.
  - rewrite Hv. cbn [keyboard_keysyms_translated keyboard_keysyms_raw fst orb].
    destruct (bool_decide (Exists is_vt_switch (xkb_state_key_get_syms ctx))) eqn:Ht;
      cbn [negb orb].
    + by unfold value.
    + apply Hv.
Qed.

(** On a keyboard that is not in a group, a press is passed on to the
    client exactly when the event ran no binding and none of its
    translated or raw keysyms is a VT-switch keysym; it is then passed
    on once, with the event's own time and keycode. *)
Theorem press_forwarded_iff ctx ev kb :
  keyboard_group ctx = false →
  is_pressed ev = true →
  let tr := calls (handle_key_event ctx ev) kb in
  (Exists is_notify_key tr
   ↔ filter is_execute tr = [] ∧
     ¬ Exists is_vt_switch (xkb_state_key_get_syms ctx) ∧
     ¬ Exists is_vt_switch (xkb_keymap_key_get_syms_by_level0 ctx)) ∧
  (Exists is_notify_key tr →
   filter is_notify_key tr = [NotifyKey (time_msec ev) (keycode ev) WLR_KEY_PRESSED]).
Proof.
  intros Hgrp Hpr tr.
  assert (Hst : state ev = WLR_KEY_PRESSED)
    by (unfold is_pressed in Hpr; by destruct (state ev)).
  set (handled := value (execute_bindings ctx ev) kb).
  set (kb1 := final_state (execute_bindings ctx ev) kb).
  assert (Hexec : filter is_execute tr = [] ↔ handled = false).
  { unfold tr, handled. rewrite executed_by_event, execute_bindings_value.
    destruct (held_to_run _ _ _), (if is_pressed ev then _ else _); cbn; split; done. }
  assert (Hn : filter is_notify_key tr
               = if value (compositor_bindings ctx ev handled) kb1 then []
                 else [NotifyKey (time_msec ev) (keycode ev) WLR_KEY_PRESSED]).
  { unfold tr. rewrite handle_key_event_calls. fold handled kb1.
    rewrite Hgrp, andb_false_r.
    rewrite !filter_app, filter_notify_execute_bindings.
    rewrite (filter_notify_quiet _ is_change_vt);
      [| by apply calls_only_compositor_bindings | intros a ? ?; by destruct a].
    unfold calls at 1. rewrite forward_to_client_run.
    rewrite (pressed_not_released ev Hpr), Hpr, orb_false_r, Hst.
    destruct (value (compositor_bindings ctx ev handled) kb1); cbn [negb snd app];
      [done|].
    cbv zeta. by rewrite orb_true_r. }
  rewrite (compositor_bindings_press ctx ev handled kb1 Hpr) in Hn.
  assert (Hiff : Exists is_notify_key tr ↔ filter is_notify_key tr ≠ []).
  { rewrite Exists_exists. split.
    - intros (a & Hin & Ha) Hnil.
      assert (a ∈ filter is_notify_key tr) as Hin' by (by apply list_elem_of_filter).
      rewrite Hnil in Hin'. by apply elem_of_nil in Hin'.
    - destruct (filter is_notify_key tr) as [|a l] eqn:Hf; [done|]. intros _.
      assert (a ∈ filter is_notify_key tr) as Hin by (rewrite Hf; by left).
      apply list_elem_of_filter in Hin as [? ?]. by exists a. }
  rewrite Hiff, Hexec, Hn.
  destruct handled; cbn [orb].
  { split; [split; [done | by intros [? _]] | done]. }
  destruct (bool_decide (Exists is_vt_switch (xkb_state_key_get_syms ctx))) eqn:Ht;
    cbn [orb].
  { apply bool_decide_eq_true in Ht.
    split; [split; [done | by intros (_ & ? & _)] | done]. }
  apply bool_decide_eq_false in Ht.
  destruct (bool_decide (Exists is_vt_switch (xkb_keymap_key_get_syms_by_level0 ctx)))
    eqn:Hr; cbn.
  { apply bool_decide_eq_true in Hr.
    split; [split; [done | by intros (_ & _ & ?)] | done]. }
  apply bool_decide_eq_false in Hr. split; [split; done | done].
Qed.

(** A keyboard that belongs to a group never passes a press on to the
    client, and a press never changes its [state_pressed_sent], whether
    or not the press ran a binding. *)
Theorem grouped_press_never_forwarded ctx ev kb :
  (∀ b k, state_pressed_sent (command_effect b k) = state_pressed_sent k) →
  keyboard_group ctx = true →
  is_pressed ev = true →
  filter is_notify_key (calls (handle_key_event ctx ev) kb) = [] ∧
  state_pressed_sent (final_state (handle_key_event ctx ev) kb)
  = state_pressed_sent kb.
Proof.
  intros Hf Hgrp Hpr.
  destruct (handle_key_event_sent ctx ev kb Hf) as [Hs Hn].
  assert (Hreach : reaches_forwarding ctx ev kb = false).
  { unfold reaches_forwarding. rewrite Hgrp, andb_true_r, negb_involutive.
    destruct (value (execute_bindings ctx ev) kb) eqn:Hv; [|done].
    destruct (compositor_bindings_value ctx ev true
                (final_state (execute_bindings ctx ev) kb)) as [Hc _].
    rewrite Hc by done. by rewrite (pressed_not_released ev Hpr). }
  by rewrite Hs, Hn, Hreach.
Qed.

Lemma keyboard_inv_ext kb kb' :
  state_keycodes kb' = state_keycodes kb →
  state_keysyms_translated kb' = state_keysyms_translated kb →
  state_keysyms_raw kb' = state_keysyms_raw kb →
  state_pressed_sent kb' = state_pressed_sent kb →
  keyboard_inv kb → keyboard_inv kb'.
Proof. unfold keyboard_inv. by intros -> -> -> ->. Qed.

Lemma tracker_inv_update_each st ev syms m :
  tracker_inv st → tracker_inv (update_each st ev syms m).
Proof.
  unfold update_each. revert st.
  induction syms as [|k syms IH]; intros st Hinv; [done|].
  simpl. by apply IH, tracker_inv_update.
Qed.

Lemma keyboard_inv_update_model_state ctx ev kb :
  keyboard_inv kb → keyboard_inv (update_model_state ctx ev kb).
Proof.
  intros (H1 & H2 & H3 & H4). unfold update_model_state, keyboard_inv. simpl.
  split_and!; [by apply tracker_inv_update | by apply tracker_inv_update_each
              | by apply tracker_inv_update_each | done].
Qed.

Lemma keyboard_inv_exec_effect b kb :
  (∀ b k, keyboard_inv k → keyboard_inv (command_effect b k)) →
  keyboard_inv kb → keyboard_inv (exec_effect b kb).
Proof. intros Hf Hinv. destruct b; [by apply Hf | done]. Qed.

Lemma keyboard_inv_store cand ev kb :
  keyboard_inv kb → keyboard_inv (store_held_binding cand ev kb).
Proof.
  apply keyboard_inv_ext; unfold store_held_binding; by destruct (negb _), (_ && _).
Qed.

Lemma keyboard_inv_execute_bindings ctx ev kb :
  (∀ b k, keyboard_inv k → keyboard_inv (command_effect b k)) →
  keyboard_inv kb → keyboard_inv (final_state (execute_bindings ctx ev) kb).
Proof.
  intros Hf Hinv. rewrite execute_bindings_final_state.
  apply keyboard_inv_exec_effect; [done|].
  eapply keyboard_inv_ext;
    [by apply (preserves_setup_key_repeat state_keycodes)
    |by apply (preserves_setup_key_repeat state_keysyms_translated)
    |by apply (preserves_setup_key_repeat state_keysyms_raw)
    |by apply (preserves_setup_key_repeat state_pressed_sent)|].
  apply keyboard_inv_store, keyboard_inv_exec_effect; [done|].
  by apply keyboard_inv_update_model_state.
Qed.

Lemma keyboard_inv_forward ev handled kb :
  keyboard_inv kb → keyboard_inv (final_state (forward_to_client ev handled) kb).
Proof.
  intros (H1 & H2 & H3 & H4). unfold final_state.
  rewrite forward_to_client_run. destruct (_ || _); [|done].
  cbv zeta. cbn [fst snd]. unfold keyboard_inv. simpl.
  split_and!; [done | done | done | by apply tracker_inv_update].
Qed.

Lemma keyboard_inv_event ctx ev kb :
  (∀ b k, keyboard_inv k → keyboard_inv (command_effect b k)) →
  keyboard_inv kb → keyboard_inv (final_state (handle_key_event ctx ev) kb).
Proof.
  intros Hf Hinv. rewrite handle_key_event_final_state.
  pose proof (keyboard_inv_execute_bindings ctx ev kb Hf Hinv).
  destruct (_ && _); [done | by apply keyboard_inv_forward].
Qed.

Lemma keyboard_inv_new_keyboard : keyboard_inv new_keyboard.
Proof. repeat split; try apply wf_empty_state; constructor. Qed.

(** However many key events a keyboard processes, each of its four
    shortcut states stays sorted by identifier and within the capacity,
    provided the commands run by bindings leave them so. *)
Theorem dispatcher_keeps_states_sorted
    (evs : list (key_context * wlr_event_keyboard_key)) :
  (∀ b k, keyboard_inv k → keyboard_inv (command_effect b k)) →
  let kb := final_state (handle_key_events evs) new_keyboard in
  Forall (λ st, sorted_by_id st
                ∧ (length (pressed st) ≤ SWAY_KEYBOARD_PRESSED_KEYS_CAP)%nat)
    [state_keycodes kb; state_keysyms_raw kb; state_keysyms_translated kb;
     state_pressed_sent kb].
Proof.
  intros Hf kb.
  assert (Hinv : keyboard_inv kb).
  { unfold kb. generalize keyboard_inv_new_keyboard. generalize new_keyboard.
    induction evs as [|[ctx ev] evs IH]; intros k Hk; [done|].
    destruct (handle_key_events_cons ctx ev evs k) as [-> _].
    by apply IH, keyboard_inv_event. }
  destruct Hinv as (H1 & H2 & H3 & H4).
  assert (Hs : ∀ st, tracker_inv st →
                sorted_by_id st
                ∧ (length (pressed st) ≤ SWAY_KEYBOARD_PRESSED_KEYS_CAP)%nat).
  { intros st [Hwf Hsort]. split; [by apply StronglySorted_Sorted|].
    rewrite pressed_length by done. apply Hwf. }
  repeat constructor; by apply Hs.
Qed.

(** ** Modifier names *)

Lemma land_single_bit x k :
  0 ≤ k → Z.land x (2 ^ k) ≠ 0 ↔ Z.testbit x k = true.
Proof.
  intros Hk. split.
  - intros Hne. destruct (Z.testbit x k) eqn:Hb; [done|]. exfalso. apply Hne.
    apply Z.bits_inj'. intros n Hn.
    rewrite Z.land_spec, Z.pow2_bits_eqb, Z.bits_0 by done.
    destruct (Z.eqb_spec k n) as [<-|]; [by rewrite Hb | by rewrite andb_false_r].
  - intros Hb Hz.
    assert (Z.testbit (Z.land x (2 ^ k)) k = true) as Ht.
    { rewrite Z.land_spec, Z.pow2_bits_eqb, Hb, Z.eqb_refl by done. done. }
    rewrite Hz, Z.bits_0 in Ht. done.
Qed.

(** Clearing a held bit: the bit is gone and the other bits stay. *)
Lemma lxor_clears_bit x p :
  single_bit p → Z.land x p ≠ 0 → Z.land (Z.lxor x p) p = 0.
Proof.
  intros (k & Hk & ->) Hx. apply land_single_bit in Hx; [|done].
  apply Z.bits_inj'. intros n Hn.
  rewrite Z.land_spec, Z.lxor_spec, Z.pow2_bits_eqb, Z.bits_0 by done.
  destruct (Z.eqb_spec k n) as [<-|]; [by rewrite Hx | by rewrite andb_false_r].
Qed.

Lemma lxor_keeps_other_bits x p q :
  single_bit p → single_bit q → p ≠ q →
  Z.land (Z.lxor x p) q = Z.land x q.
Proof.
  intros (k & Hk & ->) (j & Hj & ->) Hne.
  apply Z.bits_inj'. intros n Hn.
  rewrite !Z.land_spec, Z.lxor_spec, !Z.pow2_bits_eqb by done.
  destruct (Z.eqb_spec j n) as [<-|]; [|by rewrite !andb_false_r].
  destruct (Z.eqb_spec k j) as [->|]; [done|]. by rewrite xorb_false_r.
Qed.

Lemma modifier_names_entries tbl m :
  modifier_names_loop tbl m = name <$> held_entries tbl m.
Proof.
  revert m. induction tbl as [|e tbl IH]; intros m; [done|]. simpl.
  destruct (negb _); simpl; by rewrite IH.
Qed.

Lemma held_entries_held tbl :
  Forall (λ e, single_bit (mod_ e)) tbl →
  ∀ m e, e ∈ held_entries tbl m → e ∈ tbl ∧ Z.land m (mod_ e) ≠ 0.
Proof.
  induction 1 as [|h tbl Hh Hall IH]; intros m e Hin; [by apply elem_of_nil in Hin|].
  simpl in Hin. destruct (Z.eqb_spec (Z.land m (mod_ h)) 0) as [Hz | Hnz]; simpl in Hin.
  - apply IH in Hin as [? ?]. split; [by right | done].
  - apply elem_of_cons in Hin as [-> | Hin]; [split; [by left | done]|].
    apply IH in Hin as [Hin He]. split; [by right|].
    destruct (decide (mod_ h = mod_ e)) as [Heq | Hne].
    + rewrite <- Heq in He. by rewrite lxor_clears_bit in He.
    + rewrite lxor_keeps_other_bits in He; [done | done | | done].
      rewrite Forall_forall in Hall. by apply Hall.
Qed.

Lemma held_entries_complete tbl :
  Forall (λ e, single_bit (mod_ e)) tbl →
  ∀ m e, e ∈ tbl → Z.land m (mod_ e) ≠ 0 →
         ∃ e', e' ∈ held_entries tbl m ∧ mod_ e' = mod_ e.
Proof.
  induction 1 as [|h tbl Hh Hall IH]; intros m e Hin He; [by apply elem_of_nil in Hin|].
  simpl. destruct (Z.eqb_spec (Z.land m (mod_ h)) 0) as [Hz | Hnz]; simpl.
  - apply elem_of_cons in Hin as [-> | Hin]; [done|]. by apply IH.
  - destruct (decide (mod_ h = mod_ e)) as [Heq | Hne].
    + exists h. split; [by left | done].
    + apply elem_of_cons in Hin as [-> | Hin]; [done|].
      destruct (IH (Z.lxor m (mod_ h)) e Hin) as (e' & Hin' & Hm).
      * rewrite lxor_keeps_other_bits; [done | done | | done].
        rewrite Forall_forall in Hall. by apply Hall.
      * exists e'. split; [by right | done].
Qed.

Lemma held_entries_nodup tbl :
  Forall (λ e, single_bit (mod_ e)) tbl →
  ∀ m, NoDup (mod_ <$> held_entries tbl m).
Proof.
  induction 1 as [|h tbl Hh Hall IH]; intros m; [constructor|].
  simpl. destruct (Z.eqb_spec (Z.land m (mod_ h)) 0) as [Hz | Hnz]; simpl; [apply IH|].
  apply NoDup_cons. split; [|apply IH].
  intros Hin. apply list_elem_of_fmap in Hin as (e & Heq & Hin).
  apply (held_entries_held tbl Hall) in Hin as [_ He].
  rewrite <- Heq in He. by rewrite lxor_clears_bit in He.
Qed.

Lemma held_entries_first tbl :
  Forall (λ e, single_bit (mod_ e)) tbl →
  ∀ m e, e ∈ held_entries tbl m → name_by_mask_loop tbl (mod_ e) = Some (name e).
Proof.
  induction 1 as [|h tbl Hh Hall IH]; intros m e Hin; [by apply elem_of_nil in Hin|].
  simpl in *. destruct (Z.eqb_spec (Z.land m (mod_ h)) 0) as [Hz | Hnz]; simpl in Hin.
  - pose proof (held_entries_held tbl Hall m e Hin) as [_ He].
    destruct (Z.eqb_spec (mod_ h) (mod_ e)) as [Heq | Hne]; [congruence|].
    by eapply IH.
  - apply elem_of_cons in Hin as [-> | Hin]; [by rewrite Z.eqb_refl|].
    pose proof (held_entries_held tbl Hall _ e Hin) as [_ He].
    destruct (Z.eqb_spec (mod_ h) (mod_ e)) as [Heq | Hne].
    + rewrite <- Heq in He. by rewrite lxor_clears_bit in He.
    + by eapply IH.
Qed.

Lemma strcasecmp_eq_spec a b :
  strcasecmp_eq a b = true ↔ string_tolower a = string_tolower b.
Proof. apply String.eqb_eq. Qed.

Lemma name_by_mask_loop_some tbl m n :
  name_by_mask_loop tbl m = Some n → ∃ e, e ∈ tbl ∧ name e = n ∧ mod_ e = m.
Proof.
  induction tbl as [|h tbl IH]; [done|]. simpl.
  destruct (Z.eqb_spec (mod_ h) m) as [Heq | Hne].
  - intros [= <-]. exists h. split; [by left | done].
  - intros (e & ? & ? & ?)%IH. exists e. split; [by right | done].
Qed.

Lemma name_by_mask_loop_none tbl m :
  name_by_mask_loop tbl m = None ↔ m ∉ mod_ <$> tbl.
Proof.
  induction tbl as [|h tbl IH]; simpl.
  - split; [intros _ ?%elem_of_nil; done | done].
  - rewrite not_elem_of_cons. destruct (Z.eqb_spec (mod_ h) m) as [Heq | Hne].
    + split; [done | by intros [? _]].
    + rewrite IH. split; [by intros ? | by intros [_ ?]].
Qed.

Lemma mask_by_name_loop_entry tbl :
  NoDup ((λ e, string_tolower (name e)) <$> tbl) →
  ∀ e n, e ∈ tbl → strcasecmp_eq (name e) n = true →
         mask_by_name_loop tbl n = mod_ e.
Proof.
  induction tbl as [|h tbl IH]; intros Hnd e n Hin Heq;
    [by apply elem_of_nil in Hin|].
  rewrite fmap_cons in Hnd. apply NoDup_cons in Hnd as [Hh Hnd]. simpl.
  apply elem_of_cons in Hin as [-> | Hin]; [by rewrite Heq|].
  destruct (strcasecmp_eq (name h) n) eqn:Hhn; [|by apply IH].
  exfalso. apply Hh. apply list_elem_of_fmap. exists e. split; [|done].
  apply strcasecmp_eq_spec in Heq, Hhn. congruence.
Qed.

Lemma mask_by_name_loop_unknown tbl n :
  (∀ e, e ∈ tbl → strcasecmp_eq (name e) n = false) → mask_by_name_loop tbl n = 0.
Proof.
  induction tbl as [|h tbl IH]; intros Hno; [done|]. simpl.
  rewrite Hno by (by left). apply IH. intros e He. apply Hno. by right.
Qed.

(** Looking up the name of a modifier bit and then the mask of that
    name gives the bit back; a value that is none of the table's bits
    has no name. *)
Theorem modifier_name_round_trip (m : Z) :
  modifier_names_distinct →
  (∀ n, get_modifier_name_by_mask m = Some n → get_modifier_mask_by_name n = m) ∧
  (get_modifier_name_by_mask m = None ↔ m ∉ mod_ <$> modifiers_table).
Proof.
  intros Hnd. split; [|apply name_by_mask_loop_none].
  intros n (e & Hin & <- & <-)%name_by_mask_loop_some.
  apply mask_by_name_loop_entry; [done | done |].
  by apply strcasecmp_eq_spec.
Qed.

(** Every name of the table, in whatever letter case it is written,
    gives the modifier bit of its entry, so the alias names give the
    same bit as the xkb names; a name that matches no entry gives 0. *)
Theorem modifier_mask_by_name_spec :
  modifier_names_distinct →
  (∀ e n, e ∈ modifiers_table → strcasecmp_eq (name e) n = true →
          get_modifier_mask_by_name n = mod_ e) ∧
  (∀ n, (∀ e, e ∈ modifiers_table → strcasecmp_eq (name e) n = false) →
        get_modifier_mask_by_name n = 0) ∧
  get_modifier_mask_by_name "Ctrl" = get_modifier_mask_by_name XKB_MOD_NAME_CTRL ∧
  get_modifier_mask_by_name "Alt" = get_modifier_mask_by_name XKB_MOD_NAME_ALT.
Proof.
  intros Hnd.
  assert (H1 : ∀ e n, e ∈ modifiers_table → strcasecmp_eq (name e) n = true →
                      get_modifier_mask_by_name n = mod_ e)
    by (intros e n; by apply mask_by_name_loop_entry).
  assert (Hrefl : ∀ s, strcasecmp_eq s s = true)
    by (intros s; by apply strcasecmp_eq_spec).
  split_and!; [done | apply mask_by_name_loop_unknown | |].
  - rewrite (H1 {| name := "Ctrl"; mod_ := WLR_MODIFIER_CTRL |} "Ctrl"),
      (H1 {| name := XKB_MOD_NAME_CTRL; mod_ := WLR_MODIFIER_CTRL |} XKB_MOD_NAME_CTRL);
      [done | | apply Hrefl | | apply Hrefl];
      unfold modifiers_table; rewrite !elem_of_cons; tauto.
  - rewrite (H1 {| name := "Alt"; mod_ := WLR_MODIFIER_ALT |} "Alt"),
      (H1 {| name := XKB_MOD_NAME_ALT; mod_ := WLR_MODIFIER_ALT |} XKB_MOD_NAME_ALT);
      [done | | apply Hrefl | | apply Hrefl];
      unfold modifiers_table; rewrite !elem_of_cons; tauto.
Qed.

Lemma table_masks e :
  e ∈ modifiers_table →
  mod_ e ∈ [WLR_MODIFIER_SHIFT; WLR_MODIFIER_CAPS; WLR_MODIFIER_CTRL;
            WLR_MODIFIER_ALT; WLR_MODIFIER_MOD2; WLR_MODIFIER_MOD3;
            WLR_MODIFIER_LOGO; WLR_MODIFIER_MOD5].
Proof.
  unfold modifiers_table. rewrite !elem_of_cons.
  intros [->|[->|[->|[->|[->|[->|[->|[->|[->|[->|?%elem_of_nil]]]]]]]]]];
    simpl; rewrite ?elem_of_cons; tauto.
Qed.

Lemma held_entries_sublist tbl m : held_entries tbl m `sublist_of` tbl.
Proof.
  revert m. induction tbl as [|h tbl IH]; intros m; [done|]. simpl.
  destruct (negb _); [apply sublist_skip | apply sublist_cons]; apply IH.
Qed.

(** [get_modifier_names] names each held modifier bit of the table
    once, by the first name the table has for it, and names nothing
    else; it never writes more than eight names. *)
Theorem modifier_names_spec (m : Z) :
  modifier_bits_single →
  (∀ n, n ∈ get_modifier_names m →
        ∃ e, e ∈ modifiers_table ∧ Z.land m (mod_ e) ≠ 0 ∧
             get_modifier_name_by_mask (mod_ e) = Some n) ∧
  (∀ e, e ∈ modifiers_table → Z.land m (mod_ e) ≠ 0 →
        ∃ n, n ∈ get_modifier_names m ∧ get_modifier_name_by_mask (mod_ e) = Some n) ∧
  (modifier_names_distinct → NoDup (get_modifier_names m)) ∧
  (length (get_modifier_names m) ≤ 8)%nat.
Proof.
  intros Hbits. unfold get_modifier_names, get_modifier_name_by_mask.
  rewrite modifier_names_entries.
  pose proof (held_entries_nodup modifiers_table Hbits m) as Hnd.
  split_and!.
  - intros n (e & -> & Hin)%list_elem_of_fmap. exists e.
    destruct (held_entries_held modifiers_table Hbits m e Hin) as [? ?].
    split_and!; [done | done |]. by eapply held_entries_first.
  - intros e Hin He.
    destruct (held_entries_complete modifiers_table Hbits m e Hin He)
      as (e' & Hin' & Hm).
    exists (name e'). split; [by apply list_elem_of_fmap_2|].
    rewrite <- Hm. by eapply held_entries_first.
  - intros Hnames. apply (NoDup_fmap_1 string_tolower).
    rewrite <- list_fmap_compose.
    apply (sublist_NoDup _ ((λ e, string_tolower (name e)) <$> modifiers_table)); [exact Hnames|].
    apply (fmap_sublist (λ e, string_tolower (name e))), held_entries_sublist.
  - rewrite length_fmap, <- (length_fmap mod_).
    change 8%nat with (length [WLR_MODIFIER_SHIFT; WLR_MODIFIER_CAPS;
      WLR_MODIFIER_CTRL; WLR_MODIFIER_ALT; WLR_MODIFIER_MOD2; WLR_MODIFIER_MOD3;
      WLR_MODIFIER_LOGO; WLR_MODIFIER_MOD5]).
    apply submseteq_length, NoDup_submseteq; [exact Hnd|].
    intros x (e & -> & Hin)%list_elem_of_fmap. apply table_masks.
    by apply (held_entries_held modifiers_table Hbits m e Hin).
Qed.

(** ** Bars shown while a modifier is held *)

Lemma uint32_not_low x n :
  0 ≤ n < 32 → Z.testbit (uint32_not x) n = negb (Z.testbit x n).
Proof.
  intros Hn. unfold uint32_not.
  rewrite Z.mod_pow2_bits_low by lia. apply Z.lnot_spec. lia.
Qed.

Lemma uint32_not_high x n : 32 ≤ n → Z.testbit (uint32_not x) n = false.
Proof. intros Hn. unfold uint32_not. apply Z.mod_pow2_bits_high. lia. Qed.

Lemma uint32_high_bits b n : 0 ≤ b < 2 ^ 32 → 32 ≤ n → Z.testbit b n = false.
Proof.
  intros Hb Hn. rewrite <- (Z.mod_small b (2 ^ 32)) by done.
  apply Z.mod_pow2_bits_high. lia.
Qed.

Lemma vis_by_mod_held modifiers bar :
  0 ≤ modifier bar < 2 ^ 32 →
  vis_by_mod modifiers bar = true ↔ modifier_held modifiers bar.
Proof.
  intros Hb. unfold vis_by_mod, modifier_held. rewrite Z.eqb_eq. split.
  - intros Hz. apply Z.bits_inj'. intros n Hn. rewrite Z.land_spec.
    destruct (Z.testbit (modifier bar) n) eqn:Hbit; [|apply andb_false_r].
    rewrite andb_true_r. destruct (Z_lt_dec n 32) as [Hlt | Hge].
    + assert (Z.testbit (Z.land (uint32_not modifiers) (modifier bar)) n = false)
        as Ht by (by rewrite Hz, Z.bits_0).
      rewrite Z.land_spec, Hbit, andb_true_r, uint32_not_low in Ht by lia.
      by apply negb_false_iff.
    + rewrite uint32_high_bits in Hbit by (done || lia). done.
  - intros Hh. apply Z.bits_inj'. intros n Hn. rewrite Z.land_spec, Z.bits_0.
    destruct (Z_lt_dec n 32) as [Hlt | Hge].
    + rewrite uint32_not_low by lia. rewrite <- Hh, Z.land_spec.
      by destruct (Z.testbit modifiers n), (Z.testbit (modifier bar) n).
    + by rewrite uint32_not_high by lia.
Qed.

Lemma set_visible_same bar : set_visible_by_modifier (visible_by_modifier bar) bar = bar.
Proof. by destruct bar. Qed.

Lemma eqb_negb_true a b : negb (eqb a b) = true ↔ a ≠ b.
Proof. destruct a, b; simpl; split; congruence. Qed.

(** One round of the loop, case by case. *)
Lemma determine_bar_visibility_cons bar rest modifiers :
  determine_bar_visibility (bar :: rest) modifiers
  = let r := determine_bar_visibility rest modifiers in
    if decide (modifier bar ≠ 0
               ∧ visible_by_modifier bar ≠ vis_by_mod modifiers bar
               ∧ (visible_by_modifier bar = true ∨ mode bar = hidden_state bar))
    then let bar' := set_visible_by_modifier (vis_by_mod modifiers bar) bar in
         (bar' :: r.1, IpcBarStateUpdate bar' :: r.2)
    else (bar :: r.1, r.2).
Proof.
  simpl. destruct (determine_bar_visibility rest modifiers) as [rest' sent].
  destruct (Z.eqb_spec (modifier bar) 0) as [Hz | Hnz].
  { rewrite decide_False; [done | by intros [? _]]. }
  destruct (negb (eqb _ _)) eqn:Hv.
  - apply eqb_negb_true in Hv. unfold streq.
    destruct (visible_by_modifier bar) eqn:Hvis; simpl.
    + rewrite decide_True; [done | split_and!; [done | done | by left]].
    + destruct (String.eqb_spec (mode bar) (hidden_state bar)) as [He | Hne].
      * rewrite decide_True; [done | split_and!; [done | done | by right]].
      * rewrite decide_False; [done | by intros (_ & _ & [? | ?])].
  - rewrite decide_False; [done|]. intros (_ & Hne & _).
    apply eqb_negb_true in Hne. congruence.
Qed.

Lemma bar_visibility_settles_run (bars : list bar_config) (modifiers : Z) :
  determine_bar_visibility (determine_bar_visibility bars modifiers).1 modifiers
  = ((determine_bar_visibility bars modifiers).1, []).
Proof.
  induction bars as [|bar rest IH]; [done|].
  rewrite determine_bar_visibility_cons. cbv zeta.
  destruct (decide _) as [(Hm & Hv & Hs) | Hno]; cbn [fst snd];
    rewrite determine_bar_visibility_cons; cbv zeta; rewrite IH; cbn [fst snd].
  - rewrite decide_False; [done|]. by intros (_ & ? & _).
  - by rewrite decide_False.
Qed.

(** A second run with the same modifiers changes no bar and sends
    nothing; the first run sends at most one event for each bar. *)
Theorem bar_visibility_settles (bars : list bar_config) (modifiers : Z) :
  let r := determine_bar_visibility bars modifiers in
  determine_bar_visibility r.1 modifiers = (r.1, []) ∧
  length r.1 = length bars ∧
  (length r.2 ≤ length bars)%nat.
Proof.
  cbv zeta. split; [apply bar_visibility_settles_run|].
  induction bars as [|bar rest [IH1 IH2]]; [done|].
  rewrite determine_bar_visibility_cons. cbv zeta.
  destruct (decide _); cbn [fst snd length]; lia.
Qed.

(** What [determine_bar_visibility] does to each bar: only the flag
    [visible_by_modifier] can change; a bar without modifier is left
    alone; a bar shown by modifier follows the modifiers whatever its
    mode; a bar not shown whose mode is not its hidden state is left
    alone. One event is sent for each bar whose flag changed, in the
    order of the bars, carrying the bar as changed. *)
Theorem bar_visibility_spec (bars : list bar_config) (modifiers : Z) :
  let r := determine_bar_visibility bars modifiers in
  Forall2 (λ bar bar',
    (∃ v, bar' = set_visible_by_modifier v bar) ∧
    (modifier bar = 0 → bar' = bar) ∧
    (modifier bar ≠ 0 → visible_by_modifier bar = true →
     visible_by_modifier bar' = vis_by_mod modifiers bar) ∧
    (visible_by_modifier bar = false → mode bar ≠ hidden_state bar →
     bar' = bar)) bars r.1 ∧
  r.2 = IpcBarStateUpdate <$> (filter flag_changed (zip bars r.1)).*2.
Proof.
  cbv zeta. induction bars as [|bar rest [IH1 IH2]]; [by split; [constructor|]|].
  rewrite determine_bar_visibility_cons. cbv zeta.
  destruct (decide _) as [(Hm & Hv & Hs) | Hno]; cbn [fst snd zip zip_with].
  - split.
    + constructor; [|done]. split_and!; [by eexists | done | done |].
      intros Hf Hne. destruct Hs as [Hs | Hs]; congruence.
    + rewrite filter_cons, decide_True by (by unfold flag_changed).
      by rewrite !fmap_cons, IH2.
  - split.
    + constructor; [|done].
      split_and!; [exists (visible_by_modifier bar); by rewrite set_visible_same
                  | done | | done].
      intros Hm Hvis. destruct (decide (visible_by_modifier bar
                                        = vis_by_mod modifiers bar)); [done|].
      exfalso. apply Hno. split_and!; [done | done | by left].
    + rewrite filter_cons, decide_False by (unfold flag_changed; simpl; congruence).
      done.
Qed.

(** After the loop, every bar with a modifier that is shown by
    modifier has all the bits of its modifier among the modifiers the
    loop was given, whatever its flag was on entry. *)
Theorem shown_bars_have_modifier_held (bars : list bar_config) (modifiers : Z) :
  Forall (λ bar, 0 ≤ modifier bar < 2 ^ 32) bars →
  Forall (λ bar, modifier bar ≠ 0 → visible_by_modifier bar = true →
                 modifier_held modifiers bar)
         (determine_bar_visibility bars modifiers).1.
Proof.
  induction 1 as [|bar rest Hb Hall IH]; [constructor|].
  rewrite determine_bar_visibility_cons. cbv zeta.
  destruct (decide _) as [(Hm & Hv & Hs) | Hno]; cbn [fst snd];
    (constructor; [|done]).
  - simpl. intros _ Hvis. by apply vis_by_mod_held.
  - intros Hm Hvis. apply vis_by_mod_held; [done|].
    destruct (vis_by_mod modifiers bar) eqn:Hv; [done|].
    exfalso. apply Hno. split_and!; [done | congruence | by left].
Qed.

(** ** Modifier events *)

Lemma bar_events_only bars modifiers :
  Forall (λ c, ∃ bar, c = IpcBarStateUpdate bar)
         (determine_bar_visibility bars modifiers).2.
Proof.
  induction bars as [|bar rest IH]; [constructor|].
  rewrite determine_bar_visibility_cons. cbv zeta.
  destruct (decide _); cbn [fst snd]; [|done].
  constructor; [by eexists | done].
Qed.

Lemma handle_modifier_event_run ctx kb bars :
  handle_modifier_event ctx kb bars
  = let r := determine_bar_visibility bars (wlr_keyboard_get_modifiers (device ctx)) in
    let bars' := if keyboard_group (device ctx) then bars else r.1 in
    let sent := if keyboard_group (device ctx) then []
                else SeatSetKeyboard :: SeatNotifyModifiers :: r.2 in
    if decide (modifiers_group ctx ≠ effective_layout kb
               ∧ is_keyboard_group ctx = false)
    then (set_effective_layout (modifiers_group ctx) kb, bars',
          sent ++ [IpcInput "xkb_layout"])
    else (kb, bars', sent).
Proof.
  unfold handle_modifier_event. cbv zeta.
  destruct (determine_bar_visibility bars _) as [bars' sent].
  destruct (keyboard_group (device ctx)); cbn [negb fst snd app];
    destruct (Z.eqb_spec (modifiers_group ctx) (effective_layout kb)) as [He | Hne];
    destruct (is_keyboard_group ctx); cbn [negb andb];
    first [ by rewrite decide_True | rewrite decide_False; [done | by intros [? ?]] ].
Qed.

(** The keyboard follows the layout of its device: after a modifier
    event of a keyboard that is not the keyboard of a group,
    [effective_layout] is the device's layout; the keyboard of a group
    is left as it is. Only [effective_layout] ever changes, and the
    [xkb_layout] event is sent exactly when it did, as the last call.
    The event of a keyboard that belongs to a group reaches neither the
    seat nor the bars: the layout event is the only call it can make. *)
Theorem modifier_event_layout ctx kb bars :
  let r := handle_modifier_event ctx kb bars in
  (is_keyboard_group ctx = false → effective_layout r.1.1 = modifiers_group ctx) ∧
  (is_keyboard_group ctx = true → r.1.1 = kb) ∧
  r.1.1 = set_effective_layout (effective_layout r.1.1) kb ∧
  (IpcInput "xkb_layout" ∈ r.2 ↔ effective_layout r.1.1 ≠ effective_layout kb) ∧
  (effective_layout r.1.1 ≠ effective_layout kb →
   last r.2 = Some (IpcInput "xkb_layout")) ∧
  (keyboard_group (device ctx) = true →
   r.1.2 = bars ∧ Forall (λ c, c = IpcInput "xkb_layout") r.2).
Proof.
  cbv zeta. rewrite handle_modifier_event_run. cbv zeta.
  pose proof (bar_events_only bars (wlr_keyboard_get_modifiers (device ctx))) as Hev.
  set (sent := if keyboard_group (device ctx) then [] else _).
  assert (Hsent : IpcInput "xkb_layout" ∉ sent).
  { subst sent. destruct (keyboard_group (device ctx)); [by intros ?%elem_of_nil|].
    rewrite !not_elem_of_cons. split_and!; [done | done |].
    intros Hin. rewrite Forall_forall in Hev. by destruct (Hev _ Hin). }
  assert (Hgrp : keyboard_group (device ctx) = true →
                 (if keyboard_group (device ctx) then bars
                  else (determine_bar_visibility bars
                          (wlr_keyboard_get_modifiers (device ctx))).1) = bars
                 ∧ sent = []).
  { subst sent. by intros ->. }
  destruct (decide _) as [[Hne Hg] | Hno]; cbn [fst snd effective_layout set_effective_layout].
  - split_and!; [done | congruence | done | | by rewrite last_snoc |].
    + split; [done|]. intros _. apply elem_of_app. right. by left.
    + intros [Hb ->]%Hgrp. split; [done | by constructor].
  - split_and!; [| done | by destruct kb | by split | done |].
    + intros Hg. destruct (decide (modifiers_group ctx = effective_layout kb)); [done|].
      exfalso. by apply Hno.
    + intros [Hb ->]%Hgrp. split; [done | constructor].
Qed.

(** The same modifier event once more changes nothing and sends no
    event: only the two seat calls of an ungrouped keyboard are made
    again. *)
Theorem modifier_event_repeated ctx kb bars :
  let r := handle_modifier_event ctx kb bars in
  handle_modifier_event ctx r.1.1 r.1.2
  = (r.1.1, r.1.2,
     if keyboard_group (device ctx) then []
     else [SeatSetKeyboard; SeatNotifyModifiers]).
Proof.
  cbv zeta. rewrite (handle_modifier_event_run ctx kb bars). cbv zeta.
  set (m := wlr_keyboard_get_modifiers (device ctx)).
  pose proof (bar_visibility_settles_run bars m) as Hs.
  destruct (decide _) as [[Hne Hk] | Hno]; cbn [fst snd];
    rewrite handle_modifier_event_run; cbv zeta; fold m.
  - rewrite decide_False by (by intros [? _]).
    destruct (keyboard_group (device ctx)); [done|]. by rewrite Hs.
  - rewrite decide_False by done.
    destruct (keyboard_group (device ctx)); [done|]. by rewrite Hs.
Qed.

(** ** Messages of libxkbcommon *)

Lemma get_last_none s : String.get (String.length s - 1) s = None ↔ s = EmptyString.
Proof.
  induction s as [|a s IH]; [done|]. split; [|done]. cbn [String.length].
  replace (S (String.length s) - 1)%nat with (String.length s) by lia.
  destruct s as [|b s]; [done|]. cbn [String.length String.get].
  cbn [String.length] in IH.
  replace (S (String.length s) - 1)%nat with (String.length s) in IH by lia.
  intros Hn. by apply IH in Hn.
Qed.





Lemma strip_newline_run formatted :
  strip_newline formatted
  = match String.get (String.length formatted - 1) formatted with
    | None => None
    | Some c =>
        if Ascii.eqb c newline
        then Some (String.substring 0 (String.length formatted - 1) formatted)
        else Some formatted
    end.
Proof.
  unfold strip_newline. cbv zeta.
  replace (String.length formatted + 1 - 2)%nat
    with (String.length formatted - 1)%nat by lia.
  destruct (Nat.ltb_spec (String.length formatted + 1) 2) as [Hlt | Hge]; [|done].
  destruct formatted; [done | simpl in Hlt; lia].
Qed.


Lemma importance_error level :
  importance_of level = SWAY_ERROR ↔ level ≤ XKB_LOG_LEVEL_ERROR.
Proof.
  unfold importance_of.
  destruct (Z.leb_spec level XKB_LOG_LEVEL_ERROR); [done|].
  split; [|lia]. by destruct (level <=? XKB_LOG_LEVEL_INFO).
Qed.

Lemma strip_newline_some formatted :
  formatted ≠ EmptyString → ∃ error, strip_newline formatted = Some error.
Proof.
  intros Hne. destruct (strip_newline formatted) as [e|] eqn:He; [by exists e|].
  rewrite strip_newline_run in He.
  destruct (String.get _ formatted) as [c|] eqn:Hc.
  - by destruct (Ascii.eqb c newline).
  - by apply get_last_none in Hc.
Qed.

Lemma handle_xkb_context_log_run level formatted data error :
  strip_newline formatted = Some error →
  handle_xkb_context_log true level formatted data
  = Logged (importance_of level) error
      (if decide (level ≤ XKB_LOG_LEVEL_ERROR ∧ data = Some None)
       then Some (Some error) else data).
Proof.
  intros He. unfold handle_xkb_context_log. rewrite He. cbn [negb].
  destruct (importance_of level) eqn:Hi.
  - apply importance_error in Hi. destruct data as [[e|]|].
    + rewrite decide_False; [done | by intros [_ ?]].
    + by rewrite decide_True.
    + rewrite decide_False; [done | by intros [_ ?]].
  - rewrite decide_False; [done|]. intros [Hl _].
    apply importance_error in Hl. congruence.
  - rewrite decide_False; [done|]. intros [Hl _].
    apply importance_error in Hl. congruence.
Qed.

(** Of the messages of one compilation, the error slot receives the
    first one of level error or critical, without its final newline;
    a slot that is already filled, or no slot at all, is left as it
    is. *)
Theorem xkb_log_keeps_first_error (msgs : list (Z * string)) (data : error_slot) :
  Forall (λ m, m.2 ≠ EmptyString) msgs →
  handle_xkb_context_logs msgs data
  = Some (match data, filter is_error_message msgs with
          | Some None, m :: _ => Some (strip_newline m.2)
          | _, _ => data
          end).
Proof.
  intros Hne. revert data.
  induction Hne as [|[level formatted] msgs Hm Hne IH]; intros data.
  { simpl. by destruct data as [[e|]|]. }
  cbn [handle_xkb_context_logs].
  destruct (strip_newline_some formatted Hm) as [error He].
  rewrite (handle_xkb_context_log_run _ _ _ _ He), IH, filter_cons.
  destruct (decide (level ≤ _ ∧ _)) as [[Hl ->] | Hno].
  - rewrite decide_True by done. simpl. rewrite He. by destruct (filter _ msgs).
  - destruct (decide (is_error_message (level, formatted))) as [Hl | Hl]; [|done].
    destruct data as [[e|]|]; [done | | done].
    exfalso. by apply Hno.
Qed.

(** ** Modifiers consumed by the translation *)

Lemma candidate_modifiers st mods release locked inp exact_input grp b :
  candidate st mods release locked inp exact_input grp b = true →
  modifiers b = mods.
Proof.
  unfold candidate, binding_filtered_out.
  intros [Hf _]%andb_true_iff. apply negb_true_iff in Hf.
  repeat (apply orb_false_iff in Hf as [Hf _]).
  apply negb_false_iff, Z.eqb_eq, Z.lxor_eq in Hf. done.
Qed.

(** A binding found with the translated modifiers asks for exactly
    the translated modifiers, that is, for the held modifiers that the
    translation did not consume: a modifier used up to produce the
    keysym is never required by the binding that the translated keysym
    triggers. *)
Theorem consumed_modifiers_not_matched ctx st bs cur release locked inp
    exact_input grp b :
  get_active_binding st bs cur (keyboard_keysyms_translated ctx).2
    release locked inp exact_input grp = Some b →
  cur ≠ Some b →
  b ∈ bs ∧
  modifiers b = (keyboard_keysyms_translated ctx).2 ∧
  modifiers b
  = Z.land (wlr_keyboard_get_modifiers ctx) (Z.lnot (xkb_consumed_mods ctx)) ∧
  Z.land (modifiers b) (xkb_consumed_mods ctx) = 0 ∧
  Z.land (modifiers b) (wlr_keyboard_get_modifiers ctx) = modifiers b ∧
  (xkb_consumed_mods ctx = 0 → modifiers b = (keyboard_keysyms_raw ctx).2).
Proof.
  intros Hr Hcur. apply scan_sound in Hr as [? | [Hin Hc]]; [done|].
  apply candidate_modifiers in Hc. rewrite Hc. simpl.
  split_and!; [done | done | done | | |].
  - rewrite <- Z.land_assoc, (Z.land_comm (Z.lnot _)), Z.land_lnot_diag.
    apply Z.land_0_r.
  - rewrite (Z.land_comm (wlr_keyboard_get_modifiers ctx)), <- Z.land_assoc,
      Z.land_diag. done.
  - intros ->. change (Z.lnot 0) with (-1). apply Z.land_m1_r.
Qed.

(** ** Keyboard groups *)

Lemma keymaps_match_same keymap group :
  keymaps_match keymap (group_keymap group) = true ↔ same_keymap keymap group.
Proof.
  unfold keymaps_match, streq, same_keymap. rewrite String.eqb_eq.
  split; by intros ->.
Qed.

(** With grouping enabled the loop stops at the first group with the
    keyboard's keymap; the [return] of its first case is never taken. *)
Lemma group_add_loop_first sc keymap groups :
  sc ≠ Some KEYBOARD_GROUP_NONE →
  group_add_loop sc keymap groups
  = (λ group, [GroupAddKeyboard (wlr_group group)])
      <$> head (filter (same_keymap keymap) groups).
Proof.
  intros Hsc. induction groups as [|group rest IH]; [done|].
  cbn [group_add_loop]. rewrite filter_cons, IH.
  assert (Hg : grouping_of sc ≠ KEYBOARD_GROUP_NONE).
  { destruct sc as [grouping|]; [|done]. simpl. congruence. }
  destruct (keymaps_match keymap (group_keymap group)) eqn:Hm.
  - apply keymaps_match_same in Hm. rewrite decide_True by done.
    by destruct (grouping_of sc).
  - rewrite decide_False; [by destruct (grouping_of sc)|].
    intros Hs. apply keymaps_match_same in Hs. congruence.
Qed.

Lemma group_add_enabled sc groups keymap a :
  sc ≠ Some KEYBOARD_GROUP_NONE →
  sway_keyboard_group_add sc groups keymap a
  = match head (filter (same_keymap keymap) groups) with
    | Some group => Returned [GroupAddKeyboard (wlr_group group)]
    | None =>
        if negb (sway_group_alloc a) then Returned []
        else
          match wlr_keyboard_group_create a with
          | None => NullDereference [Alloc SwayGroup]
          | Some g =>
              let made := [Alloc SwayGroup; GroupCreate g; GroupSetKeymap g keymap] in
              if negb (seat_device_alloc a)
              then NullDereference (made ++ [GroupDestroy g])
              else if negb (input_device_alloc a)
              then Returned (made ++ [Alloc SeatDevice; GroupDestroy g;
                                      Free SeatDevice; Free SwayGroup])
              else if negb (sway_keyboard_create a)
              then Returned (made ++ [Alloc SeatDevice; Alloc InputDevice;
                                      GroupDestroy g; Free InputDevice;
                                      Free SeatDevice; Free SwayGroup])
              else Returned (made ++ [Alloc SeatDevice; Alloc InputDevice;
                                      Alloc Keyboard; GroupAddKeyboard g;
                                      GroupListInsert g; GroupListen g])
          end
    end.
Proof.
  intros Hsc. unfold sway_keyboard_group_add.
  rewrite group_add_loop_first by done.
  assert (match sc with
          | Some grouping => bool_decide (grouping = KEYBOARD_GROUP_NONE)
          | None => false
          end = false) as ->.
  { destruct sc as [grouping|]; [|done]. apply bool_decide_eq_false. congruence. }
  destruct (head _); [done|]. cbn [fmap option_fmap option_map].
  destruct (sway_group_alloc a); [|done]. cbn [negb].
  destruct (wlr_keyboard_group_create a) as [g|]; [|done]. cbv zeta.
  destruct (seat_device_alloc a); [|done]. cbn [negb].
  destruct (input_device_alloc a); [|done]. cbn [negb].
  by destruct (sway_keyboard_create a).
Qed.

(** A keyboard joins the first group of the seat that has its keymap,
    wherever grouping is not disabled: this is then the only call, and
    no group is created; with grouping disabled nothing is called at
    all. *)
Theorem group_add_joins_first_match sc groups keymap a :
  (sc = Some KEYBOARD_GROUP_NONE →
   sway_keyboard_group_add sc groups keymap a = Returned []) ∧
  (sc ≠ Some KEYBOARD_GROUP_NONE →
   ∀ group, head (filter (same_keymap keymap) groups) = Some group →
            sway_keyboard_group_add sc groups keymap a
            = Returned [GroupAddKeyboard (wlr_group group)]).
Proof.
  split.
  - by intros ->.
  - intros Hsc group Hg. by rewrite group_add_enabled, Hg.
Qed.

(** The error path reads [sway_group->seat_device->keyboard] while
    [seat_device] is [NULL] exactly when a group has to be created, the
    group structure is allocated, and either wlroots cannot create its
    group or the seat device cannot be allocated. *)
Theorem group_add_cleanup_null_dereference sc groups keymap a :
  (∃ made, sway_keyboard_group_add sc groups keymap a = NullDereference made)
  ↔ sc ≠ Some KEYBOARD_GROUP_NONE ∧
    Forall (λ group, ¬ same_keymap keymap group) groups ∧
    sway_group_alloc a = true ∧
    (wlr_keyboard_group_create a = None ∨ seat_device_alloc a = false).
Proof.
  destruct (decide (sc = Some KEYBOARD_GROUP_NONE)) as [-> | Hsc].
  { split; [by intros [made ?] | by intros [? _]]. }
  rewrite group_add_enabled by done.
  destruct (head (filter (same_keymap keymap) groups)) as [group|] eqn:Hh.
  { split; [by intros [made ?]|]. intros (_ & Hno & _).
    apply head_Some_elem_of, list_elem_of_filter in Hh as [Hs Hin].
    rewrite Forall_forall in Hno. by destruct (Hno _ Hin). }
  assert (Hno : Forall (λ group, ¬ same_keymap keymap group) groups).
  { apply head_None in Hh. apply Forall_forall. intros group Hin Hs.
    assert (group ∈ filter (same_keymap keymap) groups) as Hf
      by (by apply list_elem_of_filter).
    rewrite Hh in Hf. by apply elem_of_nil in Hf. }
  destruct (sway_group_alloc a); cbn [negb].
  2: { split; [by intros [made ?] | by intros (_ & _ & ? & _)]. }
  destruct (wlr_keyboard_group_create a) as [g|].
  2: { split; [intros _; split_and!; [done | done | done | by left] | by eexists]. }
  cbv zeta. destruct (seat_device_alloc a); cbn [negb].
  2: { split; [intros _; split_and!; [done | done | done | by right] | by eexists]. }
  split.
  - intros [made Hm].
    by destruct (input_device_alloc a), (sway_keyboard_create a).
  - by intros (_ & _ & _ & [? | ?]).
Qed.

Ltac call_made :=
  repeat first [ apply list_elem_of_here | apply list_elem_of_further ].

Ltac call_cases H :=
  repeat (apply elem_of_cons in H as [H | H];
          [first [discriminate H | injection H as ->; call_made]|]);
  by apply elem_of_nil in H.

(** When the function returns, the keyboard has been added to at most
    one group, and only to a group with its keymap: one of the seat's,
    or a new one that was given the keymap and put on the seat's list.
    If it has been added to none, everything allocated or created on
    the way has been released. *)
Theorem group_add_all_or_nothing sc groups keymap a made :
  sway_keyboard_group_add sc groups keymap a = Returned made →
  (∃ g, filter is_add_keyboard made = [GroupAddKeyboard g] ∧
        ((∃ group, group ∈ groups ∧ same_keymap keymap group ∧ wlr_group group = g
                   ∧ made = [GroupAddKeyboard g]) ∨
         (Forall (λ group, ¬ same_keymap keymap group) groups ∧
          GroupSetKeymap g keymap ∈ made ∧ GroupListInsert g ∈ made ∧
          ∀ o, Free o ∉ made))) ∨
  ((∀ g, GroupAddKeyboard g ∉ made) ∧ (∀ g, GroupListInsert g ∉ made) ∧
   all_released made).
Proof.
  destruct (decide (sc = Some KEYBOARD_GROUP_NONE)) as [-> | Hsc].
  { intros [= <-]. right. split_and!; [by intros g ?%elem_of_nil..|].
    split; by intros ? ?%elem_of_nil. }
  rewrite group_add_enabled by done.
  destruct (head (filter (same_keymap keymap) groups)) as [group|] eqn:Hh.
  { intros [= <-]. left. exists (wlr_group group). split.
    - done.
    - left. exists group.
      apply head_Some_elem_of, list_elem_of_filter in Hh as [Hs Hin]. done. }
  assert (Hno : Forall (λ group, ¬ same_keymap keymap group) groups).
  { apply head_None in Hh. apply Forall_forall. intros group Hin Hs.
    assert (group ∈ filter (same_keymap keymap) groups) as Hf
      by (by apply list_elem_of_filter).
    rewrite Hh in Hf. by apply elem_of_nil in Hf. }
  destruct (sway_group_alloc a); cbn [negb].
  2: { intros [= <-]. right. split_and!; [by intros g ?%elem_of_nil..|].
       split; by intros ? ?%elem_of_nil. }
  destruct (wlr_keyboard_group_create a) as [g|]; [|done]. cbv zeta.
  destruct (seat_device_alloc a); cbn [negb]; [|done].
  destruct (input_device_alloc a); cbn [negb];
    [destruct (sway_keyboard_create a); cbn [negb]|]; intros [= <-]; cbn [app].
  - left. exists g. split; [done|].
    right. split_and!; [done | call_made | call_made | intros o H; call_cases H].
  - right. split_and!; [intros g' H; call_cases H | intros g' H; call_cases H |].
    split; [intros o H; call_cases H | intros g' H; call_cases H].
  - right. split_and!; [intros g' H; call_cases H | intros g' H; call_cases H |].
    split; [intros o H; call_cases H | intros g' H; call_cases H].
Qed.

End Keyboard.

(** * Concrete runs

    The lemmas below instantiate the development at a capacity of 32
    pressed keys, [BINDING_RELEASE = 1], [BINDING_LOCKED = 2] and
    commands that leave the keyboard as it is. *)






Example three_entries_pressed : pressed (three_entries 32) = [(3, 11); (5, 10); (7, 10)].
Proof. reflexivity. Qed.

Example erase_three_entries :
  (state_erase_key (three_entries 32) 10).1 = true ∧
  pressed (state_erase_key (three_entries 32) 10).2 = [(3, 11)] ∧
  take 4 (pressed_keys (state_erase_key (three_entries 32) 10).2) = [3; 0; 0; 0].
Proof. repeat split; reflexivity. Qed.

Lemma wf_three_entries : wf_state 32 (three_entries 32).
Proof. repeat split; vm_compute; lia. Defined.

Lemma wf_one_key_left : wf_state 32 (one_key_left 32).
Proof. repeat split; vm_compute; lia. Defined.

Lemma state_erase_key_exact_witness :
  wf_state 32 (three_entries 32) ∧
  let r := state_erase_key (three_entries 32) 10 in
  pressed r.2 = filter (other_keycode 10) (pressed (three_entries 32)) ∧
  (r.1 = true ↔ Exists (from_keycode 10) (pressed (three_entries 32))) ∧
  (r.1 = true ↔ (length (pressed r.2) < length (pressed (three_entries 32)))%nat) ∧
  current_key r.2 = 0.
Proof.
  split; [exact wf_three_entries|].
  exact (state_erase_key_exact 32 (three_entries 32) 10 wf_three_entries).
Defined.

(** C1 fails as stated: adding identifier 97 under two keycodes leaves
    it in the pressed sequence twice. *)
Lemma state_add_key_duplicates :
  ¬ NoDup (pressed_ids (apply_ops 32 (empty_state 32) [OpAdd 38 97; OpAdd 39 97])).
Proof.
  vm_compute. intros H. apply NoDup_cons in H as [H _]. apply H. by left.
Qed.

Lemma tracker_nodup_when_fresh_witness :
  ops_fresh 32 (empty_state 32) [OpAdd 38 97; OpAdd 39 98; OpErase 38] ∧
  let st := apply_ops 32 (empty_state 32) [OpAdd 38 97; OpAdd 39 98; OpErase 38] in
  NoDup (pressed_ids st) ∧
  ∀ kc key_id, (npressed st < 32)%nat →
               pressed_ids (state_add_key 32 st kc key_id) ≡ₚ key_id :: pressed_ids st.
Proof.
  assert (Hf : ops_fresh 32 (empty_state 32) [OpAdd 38 97; OpAdd 39 98; OpErase 38]).
  { repeat split; apply (bool_decide_unpack _); by vm_compute. }
  split; [exact Hf|].
  exact (tracker_nodup_when_fresh 32 [OpAdd 38 97; OpAdd 39 98; OpErase 38] Hf).
Defined.

Lemma tracker_sorted_bounded_witness :
  let st := apply_ops 2 (empty_state 2) [OpAdd 38 97; OpAdd 39 98] in
  npressed st = 2%nat ∧ state_add_key 2 st 40 99 = st.
Proof.
  split; [reflexivity|].
  exact (proj2 (proj2 (proj2 (tracker_sorted_bounded 2 [OpAdd 38 97; OpAdd 39 98])))
           40 99 eq_refl).
Defined.

(** A release whose keycode was already erased by the modifier step
    finds nothing to erase and returns false. *)
Example release_after_modifier_step :
  let st := (update_shortcut_state 32 (empty_state 32) (press 50) 58 0).2 in
  pressed st = [(58, 50)] ∧
  (update_shortcut_state 32 st (release 50) 58 1).1 = false ∧
  (update_shortcut_state 32 st (release 50) 58 0).1 = true.
Proof. repeat split; reflexivity. Qed.

(** C7 fails as stated: on a state that is full (here with a capacity
    of 2), a press adds nothing, yet the event's keycode is recorded as
    [last_keycode]. *)
Lemma update_shortcut_state_press_when_full :
  let st := apply_ops 2 (empty_state 2) [OpAdd 38 97; OpAdd 39 98] in
  let r := update_shortcut_state 2 st (press 40) 99 0 in
  wf_state 2 st ∧
  (99 ∉ pressed_ids r.2) ∧ pressed r.2 = pressed st ∧ last_keycode r.2 = 40.
Proof.
  cbv zeta. split_and!; [repeat split; vm_compute; lia | | reflexivity | reflexivity].
  apply (bool_decide_unpack _). by vm_compute.
Qed.

Lemma update_shortcut_state_spec_witness :
  wf_state 32 (one_key_left 32) ∧
  let st1 := update_modifier_step (one_key_left 32) 4 in
  let r := update_shortcut_state 32 (one_key_left 32) (press 32) 40 4 in
  (npressed st1 < 32)%nat ∧
  r.1 = false ∧ last_keycode r.2 = 32 ∧
  pressed r.2
  = take (insert_pos 40 (pressed_ids st1)) (pressed st1)
    ++ (40, 32) :: drop (insert_pos 40 (pressed_ids st1)) (pressed st1) ∧
  pressed r.2 = [(38, 30); (40, 32)].
Proof.
  assert (Hlt : (npressed (update_modifier_step (one_key_left 32) 4) < 32)%nat)
    by (vm_compute; lia).
  split; [exact wf_one_key_left|]. cbv zeta. split; [exact Hlt|].
  pose proof (update_shortcut_state_spec 32 (one_key_left 32) (press 32) 40 4
                wf_one_key_left) as (_ & _ & _ & H1 & H2 & _ & H3 & _).
  split; [exact H1|]. split; [exact H2|]. split; [exact (H3 Hlt) | reflexivity].
Defined.



(** C3 fails as stated: with key 30 still held after key 31 was released
    [current_key] is 0, so rule (b) of the claim accepts the binding on
    key 0, but the code compares it with the one pressed identifier and
    rejects it. *)
Lemma binding_match_single_key_shadowed :
  binding_filtered_out 1 2 binding_key0 0 true false "kbd0" false 0 = false ∧
  get_active_binding 1 2 (one_key_left 32) [binding_key0] None
    0 true false "kbd0" false 0 = None ∧
  current_key (one_key_left 32) = 0 ∧
  pressed (one_key_left 32) = [(38, 30)] ∧
  single_match (one_key_left 32) binding_key0 ∧
  ¬ (binding_match (one_key_left 32) binding_key0 = true
     ↔ exact_match (one_key_left 32) binding_key0 ∨ single_match (one_key_left 32) binding_key0).
Proof.
  assert (Hs : single_match (one_key_left 32) binding_key0) by (by split).
  split_and!; [reflexivity | reflexivity | reflexivity | reflexivity | exact Hs |].
  intros [_ H]. specialize (H (or_intror Hs)). vm_compute in H. discriminate.
Qed.

Lemma binding_match_iff_witness :
  wf_state 32 (one_key_left 32) ∧
  (binding_match (one_key_left 32) binding_key0 = true
   ↔ exact_match (one_key_left 32) binding_key0
     ∨ (npressed (one_key_left 32) ≠ length (keys binding_key0)
        ∧ single_match (one_key_left 32) binding_key0)).
Proof.
  split; [exact wf_one_key_left|].
  exact (proj1 (binding_match_iff 32 1 2 (one_key_left 32) binding_key0
                  wf_one_key_left)).
Defined.







Example plain_press_is_forwarded :
  calls (handle_key_event 32 1 2 no_effect plain_context (press 30)) (new_keyboard 32)
  = [IdleNotify; SetKeyboard; NotifyKey 0 30 WLR_KEY_PRESSED; CommitDirty].
Proof. reflexivity. Qed.

Example bound_press_runs_binding :
  calls (handle_key_event 32 1 2 no_effect bound_context (press 30)) (new_keyboard 32)
  = [IdleNotify; TimerUpdate 600; Execute binding_a; CommitDirty] ∧
  held_binding (final_state (handle_key_event 32 1 2 no_effect bound_context (press 30)) (new_keyboard 32))
  = Some binding_a_release.
Proof. split; reflexivity. Qed.

Example bound_release_runs_held_binding :
  calls (handle_key_events 32 1 2 no_effect [(bound_context, press 30); (bound_context, release 30)])
        (new_keyboard 32)
  = [IdleNotify; TimerUpdate 600; Execute binding_a; CommitDirty;
     IdleNotify; Execute binding_a_release; TimerUpdate 0; CommitDirty].
Proof. reflexivity. Qed.

(** C5 fails as stated: a press on a grouped keyboard that runs no
    binding is due for forwarding by the rule of the last block, yet
    nothing is passed on to the client. *)
Lemma grouped_press_not_forwarded :
  keyboard_group grouped_context = true ∧
  filter is_execute
    (calls (execute_bindings 32 1 2 no_effect grouped_context (press 30))
           (new_keyboard 32)) = [] ∧
  forwarding_rule (new_keyboard 32) (press 30) ∧
  ¬ Exists is_notify_key
      (calls (handle_key_event 32 1 2 no_effect grouped_context (press 30)) (new_keyboard 32)).
Proof.
  split_and!; [reflexivity | reflexivity | by left |].
  vm_compute. intros H. apply Exists_cons in H as [[] | H]. by apply Exists_nil in H.
Qed.

Lemma grouped_unhandled_event_stops_witness :
  keyboard_group grouped_context = true ∧
  filter is_execute
    (calls (execute_bindings 32 1 2 no_effect grouped_context (press 30))
           (new_keyboard 32)) = [] ∧
  (∀ t kc s, NotifyKey t kc s
             ∉ calls (handle_key_event 32 1 2 no_effect grouped_context (press 30)) (new_keyboard 32)) ∧
  state_pressed_sent
    (final_state (handle_key_event 32 1 2 no_effect grouped_context (press 30)) (new_keyboard 32))
  = state_pressed_sent (new_keyboard 32).
Proof.
  pose proof (grouped_unhandled_event_stops 32 1 2 no_effect grouped_context
                (press 30) (new_keyboard 32) eq_refl eq_refl)
    as (_ & _ & _ & Hn & _ & Hs).
  exact (conj eq_refl (conj eq_refl (conj Hn Hs))).
Defined.

Lemma key_repeat_600_25_witness :
  repeat_info_delay bound_context = 600 ∧
  repeat_info_rate bound_context = 25 ∧
  handle_key_event 32 1 2 no_effect bound_context (press 30) (new_keyboard 32)
  = (tt,
     set_key_repeat_source 600
       (set_repeat_binding (Some binding_a)
          (store_held_binding
             (active_binding 1 2 bound_context
                (update_model_state 32 bound_context (press 30)
                   (new_keyboard 32)) true)
             (press 30)
             (update_model_state 32 bound_context (press 30)
                (new_keyboard 32)))),
     [IdleNotify; TimerUpdate 600; Execute binding_a; CommitDirty]).
Proof.
  split; [reflexivity|]. split; [reflexivity|].
  exact (proj1 (key_repeat_600_25 32 1 2 no_effect bound_context (press 30)
                  (new_keyboard 32) binding_a eq_refl eq_refl)
           eq_refl eq_refl).
Defined.

Lemma held_binding_after_event_witness :
  (∀ b k, held_binding (no_effect b k) = held_binding k) ∧
  held_binding (final_state (handle_key_event 32 1 2 no_effect bound_context (press 30)) (new_keyboard 32))
  = Some binding_a_release.
Proof.
  split; [reflexivity|].
  exact (proj1 (held_binding_after_event 32 1 2 no_effect bound_context (press 30)
                  (new_keyboard 32) (λ _ _, eq_refl))).
Defined.


(** C6 fails as stated, in two ways. With 32 keys recorded as sent, the
    press of key 33 is passed on but not recorded, so its release is not
    passed on. And a key pressed on a keyboard of its own is passed on,
    but its release, arriving after the keyboard joined a group, ends in
    the keyboard-group return and is not passed on. *)
Lemma forwarded_press_without_release :
  (let kb := final_state (handle_key_events 32 1 2 no_effect presses_1_to_33) (new_keyboard 32) in
   let tr := calls (handle_key_events 32 1 2 no_effect presses_1_to_33) (new_keyboard 32) in
   33 ∈ sent_keys tr ∧
   filter is_notify_key (calls (handle_key_event 32 1 2 no_effect plain_context (release 33)) kb) = []) ∧
  (let kb := final_state (handle_key_events 32 1 2 no_effect [(plain_context, press 30)]) (new_keyboard 32) in
   let tr := calls (handle_key_events 32 1 2 no_effect [(plain_context, press 30)]) (new_keyboard 32) in
   30 ∈ sent_keys tr ∧
   filter is_notify_key (calls (handle_key_event 32 1 2 no_effect grouped_context (release 30)) kb) = []).
Proof.
  split; (split; [apply (bool_decide_unpack _); by vm_compute | by vm_compute]).
Qed.

(** A release on a grouped keyboard that runs the stored release
    binding is passed on to the client. *)
Example grouped_release_after_binding_forwarded :
  calls (handle_key_events 32 1 2 no_effect
           [(release_bound_context, press 30);
            (grouped_release_bound_context, release 30)]) (new_keyboard 32)
  = [IdleNotify; SetKeyboard; NotifyKey 0 30 WLR_KEY_PRESSED; CommitDirty;
     IdleNotify; Execute binding_a_release; SetKeyboard;
     NotifyKey 0 30 WLR_KEY_RELEASED; CommitDirty].
Proof. reflexivity. Qed.

(** With exactly 32 keycodes outstanding, the release of the last one is
    passed on; so is a release on a grouped keyboard that runs the
    stored release binding. *)
Lemma forwarded_release_balanced_witness :
  (∀ b k, state_pressed_sent (no_effect b k) = state_pressed_sent k) ∧
  (let kb := final_state (handle_key_events 32 1 2 no_effect presses_1_to_32)
               (new_keyboard 32) in
   let tr := calls (handle_key_events 32 1 2 no_effect presses_1_to_32)
               (new_keyboard 32) in
   let tr' := calls (handle_key_event 32 1 2 no_effect plain_context (release 32)) kb in
   is_released (release 32) = true ∧
   length (sent_keys tr) = 32%nat ∧
   keycode (release 32) ∈ recorded_keys 32 tr ∧
   ¬ stopped_by_group 32 1 2 no_effect plain_context (release 32) kb ∧
   filter is_notify_key tr' = [NotifyKey 0 32 WLR_KEY_RELEASED] ∧
   (keycode (release 32) ∉ sent_keys (tr ++ tr')) ∧
   within_capacity 32 tr ∧ recorded_keys 32 tr = sent_keys tr) ∧
  (let evs := [(release_bound_context, press 30)] in
   let kb := final_state (handle_key_events 32 1 2 no_effect evs) (new_keyboard 32) in
   let tr := calls (handle_key_events 32 1 2 no_effect evs) (new_keyboard 32) in
   let tr' := calls (handle_key_event 32 1 2 no_effect grouped_release_bound_context
                       (release 30)) kb in
   keyboard_group grouped_release_bound_context = true ∧
   keycode (release 30) ∈ recorded_keys 32 tr ∧
   ¬ stopped_by_group 32 1 2 no_effect grouped_release_bound_context (release 30) kb ∧
   filter is_notify_key tr' = [NotifyKey 0 30 WLR_KEY_RELEASED] ∧
   keycode (release 30) ∉ sent_keys (tr ++ tr')).
Proof.
  cbv zeta.
  assert (Hf : ∀ b k, state_pressed_sent (no_effect b k) = state_pressed_sent k)
    by reflexivity.
  split; [exact Hf|]. split.
  - assert (Hin : keycode (release 32)
                  ∈ recorded_keys 32 (calls (handle_key_events 32 1 2 no_effect
                                               presses_1_to_32) (new_keyboard 32)))
      by (apply (bool_decide_unpack _); by vm_compute).
    assert (Hgo : ¬ stopped_by_group 32 1 2 no_effect plain_context (release 32)
                      (final_state (handle_key_events 32 1 2 no_effect presses_1_to_32)
                         (new_keyboard 32)))
      by (intros [Hg _]; discriminate Hg).
    split; [reflexivity|]. split; [by vm_compute|]. split; [exact Hin|].
    split; [exact Hgo|].
    assert (Hcap : within_capacity 32 (calls (handle_key_events 32 1 2 no_effect
                                                presses_1_to_32) (new_keyboard 32))).
    { intros n. destruct (decide (n < 129)%nat) as [Hlt | Hge].
      - assert (Hall : Forall (λ n, (length (sent_keys
                          (take n (calls (handle_key_events 32 1 2 no_effect
                                            presses_1_to_32) (new_keyboard 32))))
                                     ≤ 32)%nat) (seq 0 129))
          by (apply (bool_decide_unpack _); by vm_compute).
        rewrite Forall_forall in Hall. apply Hall, elem_of_seq. lia.
      - rewrite take_ge by (vm_compute; lia). vm_compute. lia. }
    pose proof (forwarded_release_balanced 32 1 2 no_effect
                  presses_1_to_32 plain_context (release 32) Hf)
      as (_ & Hrel & _ & Hrec).
    destruct (proj1 (Hrel eq_refl) Hin Hgo) as [Hn Hout].
    split; [exact Hn|]. split; [exact Hout|]. split; [exact Hcap | exact (Hrec Hcap)].
  - assert (Hin : keycode (release 30)
                  ∈ recorded_keys 32 (calls (handle_key_events 32 1 2 no_effect
                                               [(release_bound_context, press 30)])
                                        (new_keyboard 32)))
      by (apply (bool_decide_unpack _); by vm_compute).
    assert (Hgo : ¬ stopped_by_group 32 1 2 no_effect grouped_release_bound_context
                      (release 30)
                      (final_state (handle_key_events 32 1 2 no_effect
                                      [(release_bound_context, press 30)])
                         (new_keyboard 32)))
      by (intros [_ He]; vm_compute in He; discriminate He).
    split; [reflexivity|]. split; [exact Hin|]. split; [exact Hgo|].
    exact (proj1 (proj1 (proj2 (forwarded_release_balanced 32 1 2 no_effect
                                  [(release_bound_context, press 30)]
                                  grouped_release_bound_context (release 30) Hf))
                    eq_refl) Hin Hgo).
Defined.

(** ** Runs of the tracker *)

Lemma wf_empty_state_32 : wf_state 32 (empty_state 32).
Proof. repeat split; vm_compute; lia. Defined.

Lemma state_erase_key_absent_witness :
  wf_state 32 (three_entries 32) ∧
  ¬ Exists (from_keycode 12) (pressed (three_entries 32)) ∧
  state_erase_key (three_entries 32) 12
  = (false,
     {| pressed_keys := pressed_keys (three_entries 32);
        pressed_keycodes := pressed_keycodes (three_entries 32);
        last_keycode := last_keycode (three_entries 32);
        last_raw_modifiers := last_raw_modifiers (three_entries 32);
        npressed := npressed (three_entries 32); current_key := 0 |}) ∧
  state_erase_key (state_erase_key (three_entries 32) 12).2 12
  = (false, (state_erase_key (three_entries 32) 12).2).
Proof.
  assert (Hno : ¬ Exists (from_keycode 12) (pressed (three_entries 32)))
    by (apply (bool_decide_unpack _); by vm_compute).
  split; [exact wf_three_entries|]. split; [exact Hno|].
  pose proof (state_erase_key_absent 32 (three_entries 32) 12 wf_three_entries)
    as [Habsent Htwice].
  split; [exact (Habsent Hno) | exact Htwice].
Defined.

Lemma add_then_erase_witness :
  wf_state 32 (three_entries 32) ∧
  (npressed (three_entries 32) < 32)%nat ∧
  ¬ Exists (from_keycode 12) (pressed (three_entries 32)) ∧
  let r := state_erase_key (state_add_key 32 (three_entries 32) 12 9) 12 in
  r.1 = true ∧ pressed r.2 = pressed (three_entries 32).
Proof.
  assert (Hlt : (npressed (three_entries 32) < 32)%nat) by (vm_compute; lia).
  assert (Hno : ¬ Exists (from_keycode 12) (pressed (three_entries 32)))
    by (apply (bool_decide_unpack _); by vm_compute).
  split; [exact wf_three_entries|]. split; [exact Hlt|]. split; [exact Hno|].
  exact (add_then_erase 32 (three_entries 32) 12 9 wf_three_entries Hlt Hno).
Defined.

Lemma freed_cells_cleared_witness :
  let st := apply_ops 32 (empty_state 32) [OpAdd 10 7; OpAdd 11 3; OpErase 10] in
  (npressed st ≤ 1)%nat ∧ (1 < 32)%nat ∧
  pressed_keys st !!! 1%nat = 0 ∧ pressed_keycodes st !!! 1%nat = 0.
Proof.
  assert (Hn : (npressed (apply_ops 32 (empty_state 32)
                            [OpAdd 10 7; OpAdd 11 3; OpErase 10]) ≤ 1)%nat)
    by (vm_compute; lia).
  assert (Hi : (1 < 32)%nat) by lia.
  split; [exact Hn|]. split; [exact Hi|].
  exact (freed_cells_cleared 32 [OpAdd 10 7; OpAdd 11 3; OpErase 10] 1 Hn Hi).
Defined.

Lemma modifier_key_does_not_stay_witness :
  wf_state 32 (empty_state 32) ∧
  state (press 50) = WLR_KEY_PRESSED ∧ keycode (press 50) ≠ 0 ∧ 1 ≠ 0 ∧
  (state (press 38) = WLR_KEY_RELEASED ∨ keycode (press 38) ≠ keycode (press 50)) ∧
  let st1 := (update_shortcut_state 32 (empty_state 32) (press 50) 65505 0).2 in
  let st2 := (update_shortcut_state 32 st1 (press 38) 65 1).2 in
  ¬ Exists (from_keycode (keycode (press 50))) (pressed st2).
Proof.
  assert (H1 : state (press 50) = WLR_KEY_PRESSED) by reflexivity.
  assert (H2 : keycode (press 50) ≠ 0) by (simpl; lia).
  assert (H3 : 1 ≠ 0) by lia.
  assert (H4 : state (press 38) = WLR_KEY_RELEASED
               ∨ keycode (press 38) ≠ keycode (press 50)) by (right; simpl; lia).
  split; [exact wf_empty_state_32|]. split; [exact H1|]. split; [exact H2|].
  split; [exact H3|]. split; [exact H4|].
  exact (modifier_key_does_not_stay 32 (empty_state 32) (press 50) (press 38)
           65505 65 0 1 wf_empty_state_32 H1 H2 H3 H4).
Defined.

Lemma press_then_release_witness :
  wf_state 32 (three_entries 32) ∧
  (npressed (three_entries 32) < 32)%nat ∧
  ¬ Exists (from_keycode (keycode (press 12))) (pressed (three_entries 32)) ∧
  state (press 12) = WLR_KEY_PRESSED ∧ state (release 12) = WLR_KEY_RELEASED ∧
  keycode (release 12) = keycode (press 12) ∧
  let m := last_raw_modifiers (three_entries 32) in
  let st1 := (update_shortcut_state 32 (three_entries 32) (press 12) 9 m).2 in
  let r := update_shortcut_state 32 st1 (release 12) 9 m in
  r.1 = true ∧ pressed r.2 = pressed (three_entries 32).
Proof.
  assert (Hlt : (npressed (three_entries 32) < 32)%nat) by (vm_compute; lia).
  assert (Hno : ¬ Exists (from_keycode (keycode (press 12))) (pressed (three_entries 32)))
    by (apply (bool_decide_unpack _); by vm_compute).
  split; [exact wf_three_entries|]. split; [exact Hlt|]. split; [exact Hno|].
  split; [reflexivity|]. split; [reflexivity|]. split; [reflexivity|].
  exact (press_then_release 32 (three_entries 32) (press 12) (release 12) 9 9
           wf_three_entries Hlt Hno eq_refl eq_refl eq_refl).
Defined.

(** ** Runs of the resolver *)

Lemma perfect_match_is_final_witness :
  let st := apply_ops 32 (empty_state 32) [OpAdd 38 97] in
  let bs := [binding_own_any_group; binding_any_group0] in
  streq (input binding_own_group0) "kbd0" = true ∧
  group binding_own_group0 = 0 ∧
  Forall (λ b, candidate 1 2 st 0 false true "kbd0" false 0 b = true) bs ∧
  perfect_match 2 binding_own_group0 true "kbd0" 0 = false ∧
  get_active_binding 1 2 st bs (Some binding_own_group0) 0 false true
    "kbd0" false 0 = Some binding_own_group0.
Proof.
  cbv zeta. split; [reflexivity|]. split; [reflexivity|].
  split; [repeat constructor|]. split; [reflexivity|].
  exact (proj1 (perfect_match_is_final 1 2
                  (apply_ops 32 (empty_state 32) [OpAdd 38 97])
                  [binding_own_any_group; binding_any_group0] binding_own_group0
                  0 false true "kbd0" false 0 eq_refl eq_refl)).
Defined.

Lemma device_binding_preferred_witness :
  let own := {| baddr := 12288; order := 3; input := "kbd0"; flags := 0;
                keys := [97]; modifiers := 0; group := XKB_LAYOUT_INVALID |} in
  let st := apply_ops 32 (empty_state 32) [OpAdd 38 97] in
  addresses_distinct [binding_a; own] ∧
  Exists (λ b, candidate 1 2 st 0 false false "kbd0" false 0 b = true
               ∧ input b = "kbd0") [binding_a; own] ∧
  ∃ r, get_active_binding 1 2 st [binding_a; own] None 0 false false "kbd0" false 0
       = Some r ∧ input r = "kbd0".
Proof.
  cbv zeta.
  set (own := {| baddr := 12288; order := 3; input := "kbd0"; flags := 0;
                 keys := [97]; modifiers := 0; group := XKB_LAYOUT_INVALID |}).
  assert (Hd : addresses_distinct [binding_a; own]).
  { intros a b Ha Hb.
    apply elem_of_cons in Ha as [-> | Ha]; [|apply list_elem_of_singleton in Ha as ->];
      (apply elem_of_cons in Hb as [-> | Hb];
       [|apply list_elem_of_singleton in Hb as ->]);
      first [ reflexivity | (intros Heq; vm_compute in Heq; discriminate Heq) ]. }
  assert (He : Exists (λ b, candidate 1 2 (apply_ops 32 (empty_state 32) [OpAdd 38 97])
                              0 false false "kbd0" false 0 b = true
                            ∧ input b = "kbd0") [binding_a; own]).
  { apply Exists_cons. right. apply Exists_cons. left. split; reflexivity. }
  split; [exact Hd|]. split; [exact He|].
  exact (device_binding_preferred 1 2 (apply_ops 32 (empty_state 32) [OpAdd 38 97])
           0 false false "kbd0" false 0 [binding_a; own] Hd He).
Defined.

Lemma first_binding_wins_witness :
  let st := apply_ops 32 (empty_state 32) [OpAdd 38 97] in
  let bs := [binding_a_release; binding_a; binding_b] in
  (∀ a b, a ∈ bs → b ∈ bs →
          candidate 1 2 st 0 false false "kbd0" false 0 a = true →
          candidate 1 2 st 0 false false "kbd0" false 0 b = true →
          equally_specific 2 "kbd0" a b) ∧
  filter (λ b, candidate 1 2 st 0 false false "kbd0" false 0 b = true) bs
  = [binding_a; binding_b] ∧
  get_active_binding 1 2 st bs None 0 false false "kbd0" false 0 = Some binding_a.
Proof.
  cbv zeta.
  assert (Hs : ∀ a b, a ∈ [binding_a_release; binding_a; binding_b] →
                 b ∈ [binding_a_release; binding_a; binding_b] →
                 candidate 1 2 (apply_ops 32 (empty_state 32) [OpAdd 38 97])
                   0 false false "kbd0" false 0 a = true →
                 candidate 1 2 (apply_ops 32 (empty_state 32) [OpAdd 38 97])
                   0 false false "kbd0" false 0 b = true →
                 equally_specific 2 "kbd0" a b).
  { intros a b Ha Hb Hca Hcb.
    apply elem_of_cons in Ha as [-> | Ha];
      [vm_compute in Hca; discriminate Hca|].
    apply elem_of_cons in Hb as [-> | Hb];
      [vm_compute in Hcb; discriminate Hcb|].
    apply elem_of_cons in Ha as [-> | Ha]; [|apply list_elem_of_singleton in Ha as ->];
      (apply elem_of_cons in Hb as [-> | Hb];
       [|apply list_elem_of_singleton in Hb as ->]);
      repeat split. }
  split; [exact Hs|]. split; [reflexivity|].
  exact (first_binding_wins 1 2 (apply_ops 32 (empty_state 32) [OpAdd 38 97])
           0 false false "kbd0" false 0 [binding_a_release; binding_a; binding_b] Hs).
Defined.

Lemma consumed_modifiers_not_matched_witness :
  let st := apply_ops 32 (empty_state 32) [OpAdd 11 64] in
  (keyboard_keysyms_translated shift_ctrl_context).2 = 4 ∧
  get_active_binding 1 2 st [binding_ctrl_at] None
    (keyboard_keysyms_translated shift_ctrl_context).2
    false false "kbd0" false 0 = Some binding_ctrl_at ∧
  None ≠ Some binding_ctrl_at ∧
  binding_ctrl_at ∈ [binding_ctrl_at] ∧
  modifiers binding_ctrl_at = (keyboard_keysyms_translated shift_ctrl_context).2 ∧
  modifiers binding_ctrl_at
  = Z.land (wlr_keyboard_get_modifiers shift_ctrl_context)
           (Z.lnot (xkb_consumed_mods shift_ctrl_context)) ∧
  Z.land (modifiers binding_ctrl_at) (xkb_consumed_mods shift_ctrl_context) = 0 ∧
  Z.land (modifiers binding_ctrl_at) (wlr_keyboard_get_modifiers shift_ctrl_context)
  = modifiers binding_ctrl_at ∧
  (xkb_consumed_mods shift_ctrl_context = 0 →
   modifiers binding_ctrl_at = (keyboard_keysyms_raw shift_ctrl_context).2).
Proof.
  cbv zeta.
  assert (Hne : None ≠ Some binding_ctrl_at) by discriminate.
  split; [reflexivity|]. split; [reflexivity|]. split; [exact Hne|].
  exact (consumed_modifiers_not_matched 1 2 shift_ctrl_context
           (apply_ops 32 (empty_state 32) [OpAdd 11 64]) [binding_ctrl_at]
           None false false "kbd0" false 0 binding_ctrl_at eq_refl Hne).
Defined.

(** ** Runs of the dispatcher *)

Lemma release_cancels_repeat_witness :
  let kb := final_state (handle_key_event 32 1 2 no_effect bound_context (press 38))
              (new_keyboard 32) in
  let kb' := final_state (handle_key_event 32 1 2 no_effect bound_context (release 38))
               kb in
  is_released (release 38) = true ∧
  repeat_binding kb = Some binding_a ∧ key_repeat_source kb = 600 ∧
  (∀ b k, repeat_binding (no_effect b k) = repeat_binding k) ∧
  repeat_binding kb' = None ∧
  handle_keyboard_repeat no_effect bound_context kb' = (tt, kb', []) ∧
  TimerUpdate 0 ∈ calls (handle_key_event 32 1 2 no_effect bound_context (release 38)) kb ∧
  key_repeat_source kb' = 0.
Proof.
  cbv zeta.
  assert (Hset : repeat_binding
                   (final_state (handle_key_event 32 1 2 no_effect bound_context
                                   (press 38)) (new_keyboard 32)) ≠ None)
    by (vm_compute; discriminate).
  assert (Hf : ∀ b k, repeat_binding (no_effect b k) = repeat_binding k)
    by reflexivity.
  split; [reflexivity|]. split; [reflexivity|]. split; [reflexivity|].
  split; [exact Hf|].
  pose proof (release_cancels_repeat 32 1 2 no_effect bound_context bound_context
                (release 38)
                (final_state (handle_key_event 32 1 2 no_effect bound_context
                                (press 38)) (new_keyboard 32)) eq_refl)
    as (Hnone & Hidle & Hdisarm).
  split; [exact Hnone|]. split; [exact Hidle|].
  split; [exact (Hdisarm Hset Hf) | reflexivity].
Defined.

Lemma press_forwarded_iff_witness :
  keyboard_group plain_context = false ∧ is_pressed (press 38) = true ∧
  let tr := calls (handle_key_event 32 1 2 no_effect plain_context (press 38))
              (new_keyboard 32) in
  (Exists is_notify_key tr
   ↔ filter is_execute tr = [] ∧
     ¬ Exists is_vt_switch (xkb_state_key_get_syms plain_context) ∧
     ¬ Exists is_vt_switch (xkb_keymap_key_get_syms_by_level0 plain_context)) ∧
  (Exists is_notify_key tr →
   filter is_notify_key tr = [NotifyKey (time_msec (press 38)) (keycode (press 38))
                                WLR_KEY_PRESSED]).
Proof.
  split; [reflexivity|]. split; [reflexivity|].
  exact (press_forwarded_iff 32 1 2 no_effect plain_context (press 38)
           (new_keyboard 32) eq_refl eq_refl).
Defined.

Lemma grouped_press_never_forwarded_witness :
  (∀ b k, state_pressed_sent (no_effect b k) = state_pressed_sent k) ∧
  keyboard_group grouped_context = true ∧ is_pressed (press 38) = true ∧
  filter is_notify_key
    (calls (handle_key_event 32 1 2 no_effect grouped_context (press 38))
       (new_keyboard 32)) = [] ∧
  state_pressed_sent
    (final_state (handle_key_event 32 1 2 no_effect grouped_context (press 38))
       (new_keyboard 32))
  = state_pressed_sent (new_keyboard 32).
Proof.
  split; [exact (λ _ _, eq_refl)|]. split; [reflexivity|]. split; [reflexivity|].
  exact (grouped_press_never_forwarded 32 1 2 no_effect grouped_context (press 38)
           (new_keyboard 32) (λ _ _, eq_refl) eq_refl eq_refl).
Defined.

Lemma dispatcher_keeps_states_sorted_witness :
  (∀ b k, keyboard_inv 32 k → keyboard_inv 32 (no_effect b k)) ∧
  let kb := final_state
              (handle_key_events 32 1 2 no_effect
                 [(bound_context, press 38); (bound_context, release 38)])
              (new_keyboard 32) in
  Forall (λ st, sorted_by_id st ∧ (length (pressed st) ≤ 32)%nat)
    [state_keycodes kb; state_keysyms_raw kb; state_keysyms_translated kb;
     state_pressed_sent kb].
Proof.
  split; [exact (λ _ _ H, H)|].
  exact (dispatcher_keeps_states_sorted 32 1 2 no_effect
           [(bound_context, press 38); (bound_context, release 38)] (λ _ _ H, H)).
Defined.

(** ** The modifier table of xkbcommon and wlroots

    The names are those of xkbcommon-names.h, the bits those of
    [enum wlr_keyboard_modifier]. *)

Lemma modifier_names_distinct_xkb :
  modifier_names_distinct "Shift" "Lock" "Control" "Mod1" "Mod2" "Mod4"
    1 2 4 8 16 32 64 128.
Proof. apply (bool_decide_unpack _). by vm_compute. Defined.

Lemma modifier_bits_single_wlr :
  modifier_bits_single "Shift" "Lock" "Control" "Mod1" "Mod2" "Mod4"
    1 2 4 8 16 32 64 128.
Proof.
  unfold modifier_bits_single, modifiers_table.
  repeat apply Forall_cons_2; [| | | | | | | | | |apply Forall_nil_2]; simpl;
    [exists 0 | exists 1 | exists 2 | exists 2 | exists 3 | exists 3
     | exists 4 | exists 5 | exists 6 | exists 7]; (split; [lia | reflexivity]).
Defined.

Lemma modifier_name_round_trip_witness :
  modifier_names_distinct "Shift" "Lock" "Control" "Mod1" "Mod2" "Mod4"
    1 2 4 8 16 32 64 128 ∧
  (∀ n, get_modifier_name_by_mask "Shift" "Lock" "Control" "Mod1" "Mod2" "Mod4"
          1 2 4 8 16 32 64 128 4 = Some n →
        get_modifier_mask_by_name "Shift" "Lock" "Control" "Mod1" "Mod2" "Mod4"
          1 2 4 8 16 32 64 128 n = 4) ∧
  (get_modifier_name_by_mask "Shift" "Lock" "Control" "Mod1" "Mod2" "Mod4"
     1 2 4 8 16 32 64 128 4 = None
   ↔ 4 ∉ mod_ <$> modifiers_table "Shift" "Lock" "Control" "Mod1" "Mod2" "Mod4"
                    1 2 4 8 16 32 64 128).
Proof.
  split; [exact modifier_names_distinct_xkb|].
  exact (modifier_name_round_trip "Shift" "Lock" "Control" "Mod1" "Mod2" "Mod4"
           1 2 4 8 16 32 64 128 4 modifier_names_distinct_xkb).
Defined.

Lemma modifier_mask_by_name_spec_witness :
  modifier_names_distinct "Shift" "Lock" "Control" "Mod1" "Mod2" "Mod4"
    1 2 4 8 16 32 64 128 ∧
  get_modifier_mask_by_name "Shift" "Lock" "Control" "Mod1" "Mod2" "Mod4"
    1 2 4 8 16 32 64 128 "Ctrl"
  = get_modifier_mask_by_name "Shift" "Lock" "Control" "Mod1" "Mod2" "Mod4"
      1 2 4 8 16 32 64 128 "Control" ∧
  get_modifier_mask_by_name "Shift" "Lock" "Control" "Mod1" "Mod2" "Mod4"
    1 2 4 8 16 32 64 128 "Alt"
  = get_modifier_mask_by_name "Shift" "Lock" "Control" "Mod1" "Mod2" "Mod4"
      1 2 4 8 16 32 64 128 "Mod1".
Proof.
  split; [exact modifier_names_distinct_xkb|].
  exact (proj2 (proj2 (modifier_mask_by_name_spec
           "Shift" "Lock" "Control" "Mod1" "Mod2" "Mod4"
           1 2 4 8 16 32 64 128 modifier_names_distinct_xkb))).
Defined.

Lemma modifier_names_spec_witness :
  modifier_bits_single "Shift" "Lock" "Control" "Mod1" "Mod2" "Mod4"
    1 2 4 8 16 32 64 128 ∧
  modifier_names_distinct "Shift" "Lock" "Control" "Mod1" "Mod2" "Mod4"
    1 2 4 8 16 32 64 128 ∧
  get_modifier_names "Shift" "Lock" "Control" "Mod1" "Mod2" "Mod4"
    1 2 4 8 16 32 64 128 13 = ["Shift"; "Control"; "Mod1"] ∧
  NoDup (get_modifier_names "Shift" "Lock" "Control" "Mod1" "Mod2" "Mod4"
           1 2 4 8 16 32 64 128 13) ∧
  (length (get_modifier_names "Shift" "Lock" "Control" "Mod1" "Mod2" "Mod4"
             1 2 4 8 16 32 64 128 13) ≤ 8)%nat.
Proof.
  split; [exact modifier_bits_single_wlr|].
  split; [exact modifier_names_distinct_xkb|]. split; [reflexivity|].
  pose proof (modifier_names_spec "Shift" "Lock" "Control" "Mod1" "Mod2" "Mod4"
                1 2 4 8 16 32 64 128 13 modifier_bits_single_wlr)
    as (_ & _ & Hnd & Hlen).
  split; [exact (Hnd modifier_names_distinct_xkb) | exact Hlen].
Defined.

(** ** Bars, modifier events and log messages *)

Lemma shown_bars_have_modifier_held_witness :
  let bars := [ {| modifier := 64; visible_by_modifier := false;
                   mode := "hide"; hidden_state := "hide" |};
                {| modifier := 8; visible_by_modifier := true;
                   mode := "dock"; hidden_state := "hide" |} ] in
  Forall (λ bar, 0 ≤ modifier bar < 2 ^ 32) bars ∧
  Forall (λ bar, modifier bar ≠ 0 → visible_by_modifier bar = true →
                 modifier_held 65 bar)
         (determine_bar_visibility bars 65).1.
Proof.
  cbv zeta.
  assert (Hr : Forall (λ bar, 0 ≤ modifier bar < 2 ^ 32)
                 [ {| modifier := 64; visible_by_modifier := false;
                      mode := "hide"; hidden_state := "hide" |};
                   {| modifier := 8; visible_by_modifier := true;
                      mode := "dock"; hidden_state := "hide" |} ]).
  { repeat apply Forall_cons_2; [| |apply Forall_nil_2]; simpl; lia. }
  split; [exact Hr|].
  exact (shown_bars_have_modifier_held _ 65 Hr).
Defined.

Lemma xkb_log_keeps_first_error_witness :
  let msgs := [ (30, "unknown option" +:+ String newline EmptyString);
                (20, "no such file" +:+ String newline EmptyString);
                (10, "giving up") ] in
  Forall (λ m : Z * string, m.2 ≠ EmptyString) msgs ∧
  handle_xkb_context_logs 20 40 msgs (Some None) = Some (Some (Some "no such file")).
Proof.
  cbv zeta.
  assert (Hne : Forall (λ m : Z * string, m.2 ≠ EmptyString)
                  [ (30, "unknown option" +:+ String newline EmptyString);
                    (20, "no such file" +:+ String newline EmptyString);
                    (10, "giving up") ]).
  { repeat apply Forall_cons_2; [| | |apply Forall_nil_2]; simpl; discriminate. }
  split; [exact Hne|].
  exact (xkb_log_keeps_first_error 20 40 _ (Some None) Hne).
Defined.

(** ** A keyboard joining the groups of its seat *)

Lemma group_add_all_or_nothing_witness :
  let groups := [ {| wlr_group := 4096; group_keymap := "us" |};
                  {| wlr_group := 8192; group_keymap := "de" |} ] in
  let a := {| sway_group_alloc := true; wlr_keyboard_group_create := Some 12288;
              seat_device_alloc := true; input_device_alloc := true;
              sway_keyboard_create := true |} in
  sway_keyboard_group_add None groups "de" a = Returned [GroupAddKeyboard 8192] ∧
  ((∃ g, filter is_add_keyboard [GroupAddKeyboard 8192] = [GroupAddKeyboard g] ∧
         ((∃ group, group ∈ groups ∧ same_keymap "de" group ∧ wlr_group group = g
                    ∧ [GroupAddKeyboard 8192] = [GroupAddKeyboard g]) ∨
          (Forall (λ group, ¬ same_keymap "de" group) groups ∧
           GroupSetKeymap g "de" ∈ [GroupAddKeyboard 8192] ∧
           GroupListInsert g ∈ [GroupAddKeyboard 8192] ∧
           ∀ o, Free o ∉ [GroupAddKeyboard 8192]))) ∨
   ((∀ g, GroupAddKeyboard g ∉ [GroupAddKeyboard 8192]) ∧
    (∀ g, GroupListInsert g ∉ [GroupAddKeyboard 8192]) ∧
    all_released [GroupAddKeyboard 8192])).
Proof.
  cbv zeta. split; [reflexivity|].
  exact (group_add_all_or_nothing None
           [ {| wlr_group := 4096; group_keymap := "us" |};
             {| wlr_group := 8192; group_keymap := "de" |} ] "de"
           {| sway_group_alloc := true; wlr_keyboard_group_create := Some 12288;
              seat_device_alloc := true; input_device_alloc := true;
              sway_keyboard_create := true |}
           [GroupAddKeyboard 8192] eq_refl).
Defined.
